(** * ad9084: channel-topology discovery and channel ordering

    A shallow embedding of the logic-bearing part of [adi/ad9084.py]: the
    label parser [_map_to_dict], the channel sorter [_sortconv], the part
    of [ad9084.__init__] that builds the topology map, gathers and sorts
    the channel-name lists and derives the coarse and fine representative
    lists, and the single-element accessor helpers.

    Python strings are modelled as [string], a character standing for
    the code point of its number (IIO channel identifiers and labels are
    ASCII; the primitives below are those of the interpreter on every
    code point below 256), Python [dict]s as association lists in
    insertion order (the iteration order is observable in the derivation
    of the representative lists), Python exceptions as an explicit result
    type, and the dictionary objects that [_map_to_dict] updates in place
    as locations of a store.  The base classes of [ad9084] are outside
    the module; what [__init__] calls of them is a parameter of the
    constructor. *)

From Stdlib Require Import String Ascii List ZArith Bool Arith Lia.
From Stdlib Require Import Permutation Sorted.
From Stdlib Require Import DecimalString DecimalNat.
Import ListNotations.
Open Scope string_scope.
Open Scope list_scope.

Set Implicit Arguments.

(* ------------------------------------------------------------------ *)
(** ** Exceptions *)

Inductive exn : Type :=
| AssertionError
| ValueError
| IndexError
| DeviceNotFound.

Inductive result (A : Type) : Type :=
| Ok (a : A)
| Raise (e : exn).

Arguments Ok {A} a.
Arguments Raise {A} e.

Definition bind {A B : Type} (m : result A) (k : A -> result B) : result B :=
  match m with
  | Ok a => k a
  | Raise e => Raise e
  end.

Notation "x <- m ;; k" := (bind m (fun x => k))
  (at level 61, m at next level, right associativity).

(* ------------------------------------------------------------------ *)
(** ** The Python string primitives the module uses *)

Module PyStr.

(** [sub in s] *)
Fixpoint str_in (sub s : string) : bool :=
  prefix sub s ||
  match s with
  | EmptyString => false
  | String _ s' => str_in sub s'
  end.

(** [s.find(sub)]: index of the first occurrence, [-1] when there is none. *)
Fixpoint find_from (sub s : string) (i : Z) : Z :=
  if prefix sub s then i
  else match s with
       | EmptyString => (-1)%Z
       | String _ s' => find_from sub s' (i + 1)
       end.

Definition find (s sub : string) : Z := find_from sub s 0.

(** [s.replace(old, new)] for a non-empty [old]: occurrences are taken
    leftmost first and do not overlap; [skip] counts the characters of a
    matched occurrence that are still to be consumed. *)
Fixpoint replace_go (old new : string) (skip : nat) (s : string) : string :=
  match s with
  | EmptyString => EmptyString
  | String c s' =>
      match skip with
      | S k => replace_go old new k s'
      | O =>
          if prefix old s
          then (new ++ replace_go old new (String.length old - 1) s')%string
          else String c (replace_go old new 0 s')
      end
  end.

Definition replace (s old new : string) : string := replace_go old new 0 s.

(** [s.split(sep)] for a non-empty [sep]: the pieces between the leftmost,
    non-overlapping occurrences of [sep]; always at least one piece. *)
Fixpoint split_go (sep : string) (skip : nat) (s : string) : list string :=
  match s with
  | EmptyString => [EmptyString]
  | String c s' =>
      match skip with
      | S k => split_go sep k s'
      | O =>
          if prefix sep s
          then EmptyString :: split_go sep (String.length sep - 1) s'
          else match split_go sep 0 s' with
               | piece :: rest => String c piece :: rest
               | [] => [String c EmptyString]
               end
      end
  end.

Definition split (s sep : string) : list string := split_go sep 0 s.

(** Slice indices: a negative index counts from the end, and both ends
    are clamped to the string. *)
Definition clamp_index (len i : Z) : Z :=
  if (i <? 0)%Z then Z.max 0 (len + i) else Z.min i len.

(** [s[start:stop]] *)
Definition slice (s : string) (start stop : Z) : string :=
  let len := Z.of_nat (String.length s) in
  let a := clamp_index len start in
  let b := clamp_index len stop in
  substring (Z.to_nat a) (Z.to_nat (b - a)) s.

(** [s[start:]] *)
Definition slice_from (s : string) (start : Z) : string :=
  slice s start (Z.of_nat (String.length s)).

(** White space as [int] skips it around a literal: the ASCII white
    space and, of the other code points below 256, the next-line control
    (133) and the no-break space (160). *)
Definition is_space (c : ascii) : bool :=
  let n := nat_of_ascii c in
  (((9 <=? n) && (n <=? 13)) || (n =? 32) || (n =? 133) || (n =? 160))%nat.

Fixpoint lstrip (s : string) : string :=
  match s with
  | EmptyString => EmptyString
  | String c s' => if is_space c then lstrip s' else s
  end.

Fixpoint rstrip (s : string) : string :=
  match s with
  | EmptyString => EmptyString
  | String c s' =>
      match rstrip s' with
      | EmptyString => if is_space c then EmptyString else String c EmptyString
      | r => String c r
      end
  end.

Definition strip (s : string) : string := rstrip (lstrip s).

Definition digit_val (c : ascii) : option Z :=
  let n := nat_of_ascii c in
  if ((48 <=? n) && (n <=? 57))%nat then Some (Z.of_nat (n - 48)) else None.

(** Decimal digits, a single underscore allowed between two digits. *)
Fixpoint parse_digits (acc : Z) (after_digit : bool) (s : string) : option Z :=
  match s with
  | EmptyString => if after_digit then Some acc else None
  | String c s' =>
      match digit_val c with
      | Some d => parse_digits (10 * acc + d) true s'
      | None =>
          if (Ascii.eqb c "_" && after_digit)%bool
          then parse_digits acc false s'
          else None
      end
  end.

(** The interpreter's limit on the number of digits of a decimal
    literal, at its default ([sys.int_info.default_max_str_digits]). *)
Definition max_str_digits : Z := 4300.

(** The number of digit characters of a string; underscores and the sign
    do not count towards the limit. *)
Fixpoint count_digits (s : string) : Z :=
  match s with
  | EmptyString => 0
  | String c s' =>
      match digit_val c with
      | Some _ => 1 + count_digits s'
      | None => count_digits s'
      end
  end.

(** [int(s)] in base ten; [None] stands for [ValueError], which is what
    both a string that is not a literal and a literal of more than
    [max_str_digits] digits raise. *)
Definition int (s : string) : option Z :=
  let t := strip s in
  if (max_str_digits <? count_digits t)%Z then None
  else
    match t with
    | String "+" r => parse_digits 0 false r
    | String "-" r => option_map Z.opp (parse_digits 0 false r)
    | _ => parse_digits 0 false t
    end.

End PyStr.

(* ------------------------------------------------------------------ *)
(** ** Python dictionaries with string keys, in insertion order *)

Module Dict.

Definition dict (V : Type) : Type := list (string * V).

Section Ops.
Variable V : Type.

(** [d.get(k)] *)
Fixpoint get (k : string) (d : dict V) : option V :=
  match d with
  | [] => None
  | (k', v) :: d' => if String.eqb k k' then Some v else get k d'
  end.

(** [k in d] *)
Definition mem (k : string) (d : dict V) : bool :=
  match get k d with Some _ => true | None => false end.

(** [d[k]] where the caller has just made sure that [k in d]. *)
Definition item (dflt : V) (k : string) (d : dict V) : V :=
  match get k d with Some v => v | None => dflt end.

(** [d[k] = v]: an existing key keeps its position, a new key goes last. *)
Fixpoint set (k : string) (v : V) (d : dict V) : dict V :=
  match d with
  | [] => [(k, v)]
  | (k', v') :: d' =>
      if String.eqb k k' then (k', v) :: d' else (k', v') :: set k v d'
  end.

(** [if k not in d: d[k] = v0] *)
Definition ensure (k : string) (v0 : V) (d : dict V) : dict V :=
  if mem k d then d else set k v0 d.

Definition keys (d : dict V) : list string := map fst d.
Definition values (d : dict V) : list V := map snd d.

End Ops.

End Dict.

(* ------------------------------------------------------------------ *)
(** ** Data model *)

(** What the module reads of an IIO channel: [ch.attrs["label"].value]
    when ["label" in ch.attrs], [ch._id], [ch.scan_element], [ch.output]. *)
Record channel : Type := {
  label : option string;
  _id : string;
  scan_element : bool;
  output : bool
}.

(** The innermost dictionary [{"channels": [...]}]. *)
Record leaf : Type := { channels : list string }.

Definition fine_map : Type := Dict.dict leaf.
Definition coarse_map : Type := Dict.dict fine_map.
Definition topology : Type := Dict.dict coarse_map.

Definition no_leaf : leaf := {| channels := [] |}.

(* ------------------------------------------------------------------ *)
(** ** [_map_to_dict] *)

(** Lines 32-39: lookup-or-insert at each of the three levels, then the
    identifier goes last in the leaf's list.  The nested dictionaries are
    updated in place in the source; here the updated inner dictionary is
    written back at its key, which keeps the key's position. *)
Definition place (paths : topology) (adc cddc fddc id : string) : topology :=
  let paths := Dict.ensure adc [] paths in
  let at_adc := Dict.item [] adc paths in
  let at_adc := Dict.ensure cddc [] at_adc in
  let at_cddc := Dict.item [] cddc at_adc in
  let at_cddc :=
    if Dict.mem fddc at_cddc
    then Dict.set fddc
           {| channels := channels (Dict.item no_leaf fddc at_cddc) ++ [id] |}
           at_cddc
    else Dict.set fddc {| channels := [id] |} at_cddc in
  Dict.set adc (Dict.set cddc at_cddc at_adc) paths.

Definition _map_to_dict (paths : topology) (ch : channel) : topology :=
  match label ch with
  | None => paths
  | Some lab =>
      if String.eqb lab "buffer_only" then paths
      else
        let lab := PyStr.replace lab ":" "->" in
        let parts := PyStr.split lab "->" in
        match parts with
        | [fddc; cddc; adc] => place paths adc cddc fddc (_id ch)
        | [_; fddc; cddc; adc] => place paths adc cddc fddc (_id ch)
        | _ => paths
        end
  end.

(** [paths[adc][cddc][fddc]["channels"]], when all three keys exist. *)
Definition channels_at (paths : topology) (adc cddc fddc : string)
  : option (list string) :=
  match Dict.get adc paths with
  | None => None
  | Some at_adc =>
      match Dict.get cddc at_adc with
      | None => None
      | Some at_cddc => option_map channels (Dict.get fddc at_cddc)
      end
  end.

(** Lines 139-140 of [__init__]: one round of the loop over the channels
    of the receive device. *)
Definition parse_step (paths : topology) (ch : channel) : topology :=
  match label ch with
  | Some _ => _map_to_dict paths ch
  | None => paths
  end.

(** Lines 136-141 of [__init__]: the topology map of the receive device. *)
Definition build_path_map (chs : list channel) : topology :=
  fold_left parse_step chs [].

(* ------------------------------------------------------------------ *)
(** ** Loops whose body may raise *)

Fixpoint for_each {A S : Type} (body : A -> S -> result S)
  (l : list A) (s : S) : result S :=
  match l with
  | [] => Ok s
  | a :: l' => s' <- body a s ;; for_each body l' s'
  end.

(** [l[i]] for a non-negative [i] *)
Definition index {A : Type} (l : list A) (i : nat) : result A :=
  match nth_error l i with
  | Some a => Ok a
  | None => Raise IndexError
  end.

(* ------------------------------------------------------------------ *)
(** ** [_sortconv] *)

(** [sorted(l, key=key)]: the keys of all elements are computed first, in
    order (a key that does not parse raises [ValueError]); the sort is
    stable.  A stable sort has one possible result, computed here by
    insertion. *)
Section SortedByKey.
Variable key : string -> option Z.

Fixpoint decorate (l : list string) : option (list (Z * string)) :=
  match l with
  | [] => Some []
  | w :: l' =>
      match key w with
      | None => None
      | Some k =>
          match decorate l' with
          | None => None
          | Some d => Some ((k, w) :: d)
          end
      end
  end.

Fixpoint insert (p : Z * string) (l : list (Z * string))
  : list (Z * string) :=
  match l with
  | [] => [p]
  | q :: l' => if (fst p <=? fst q)%Z then p :: q :: l' else q :: insert p l'
  end.

Fixpoint isort (l : list (Z * string)) : list (Z * string) :=
  match l with
  | [] => []
  | p :: l' => insert p (isort l')
  end.

Definition sorted (l : list string) : result (list string) :=
  match decorate l with
  | None => Raise ValueError
  | Some d => Ok (map snd (isort d))
  end.

End SortedByKey.

(** [voltage{N}_i/_q] *)
Definition ignoreadc (w : string) : option Z :=
  PyStr.int
    (PyStr.slice w (Z.of_nat (String.length "voltage")) (PyStr.find w "_")).

(** [altvoltage{N}] *)
Definition ignorealt (w : string) : option Z :=
  PyStr.int (PyStr.slice_from w (Z.of_nat (String.length "altvoltage"))).

(** [voltage{N}] *)
Definition ignorevoltage (w : string) : option Z :=
  PyStr.int (PyStr.slice_from w (Z.of_nat (String.length "voltage"))).

(** Lines 77-80: one round of the output loop. *)
Definition emit (tmpI tmpQ : list string) (noq : bool) (i : nat)
  (out : list string) : result (list string) :=
  a <- index tmpI i ;;
  let out := out ++ [a] in
  if noq then Ok out
  else b <- index tmpQ i ;; Ok (out ++ [b]).

(** Lines 43-81.  The two [filter] objects of lines 48-49 are lazy and
    are consumed by [sorted]; the [assert] of line 51 is checked, as in
    the interpreter's default mode. *)
Definition _sortconv (chans_names : list string) (noq dds complex : bool)
  : result (list string) :=
  let tmpI := filter (PyStr.str_in "_i") chans_names in
  let tmpQ := filter (PyStr.str_in "_q") chans_names in
  if dds && complex then Raise AssertionError
  else
    let '(filt, tmpI, noq) :=
      if dds then (ignorealt, chans_names, true)
      else if negb complex then (ignorevoltage, chans_names, true)
      else (ignoreadc, tmpI, noq) in
    tmpI <- sorted filt tmpI ;;
    tmpQ <- sorted filt tmpQ ;;
    for_each (emit tmpI tmpQ noq) (seq 0 (List.length tmpI)) [].

(* ------------------------------------------------------------------ *)
(** ** [ad9084.__init__] *)

(** The four representative lists filled by lines 163-179. *)
Record reps : Type := {
  rx_coarse : list string;
  rx_fine : list string;
  tx_coarse : list string;
  tx_fine : list string
}.

Definition no_reps : reps :=
  {| rx_coarse := []; rx_fine := []; tx_coarse := []; tx_fine := [] |}.

(** Line 173: keep one (I) per complex pair. *)
Definition keep (n : string) : bool :=
  negb (PyStr.str_in "_q" n) && PyStr.str_in "voltage" n.

(** Lines 169-171: the channel lists of every fine stage of one
    (converter, coarse) pair, in the iteration order of the fine stages. *)
Definition flatten (at_cdc : fine_map) : list string :=
  fold_left
    (fun chans fdc => chans ++ channels (Dict.item no_leaf fdc at_cdc))
    (Dict.keys at_cdc) [].

(** Lines 169-179: the body of the inner loop. *)
Definition derive_group (converter : string) (at_cdc : fine_map) (r : reps)
  : result reps :=
  let chans := flatten at_cdc in
  let chans := filter keep chans in
  if PyStr.str_in "ADC" converter then
    c <- index chans 0 ;;
    Ok {| rx_coarse := rx_coarse r ++ [c];
          rx_fine := rx_fine r ++ chans;
          tx_coarse := tx_coarse r;
          tx_fine := tx_fine r |}
  else
    c <- index chans 0 ;;
    Ok {| rx_coarse := rx_coarse r;
          rx_fine := rx_fine r;
          tx_coarse := tx_coarse r ++ [c];
          tx_fine := tx_fine r ++ chans |}.

(** Lines 167-179: [for converter in paths: for cdc in paths[converter]:]. *)
Definition derive (paths : topology) (r : reps) : result reps :=
  for_each
    (fun converter r =>
       let at_converter := Dict.item [] converter paths in
       for_each
         (fun cdc r => derive_group converter (Dict.item [] cdc at_converter) r)
         (Dict.keys at_converter) r)
    (Dict.keys paths) r.

(** Lines 144-146: the raw receive channel-name list. *)
Definition gather_rx (chs : list channel) : list string :=
  fold_left
    (fun names ch =>
       if scan_element ch && negb (output ch) then names ++ [_id ch]
       else names)
    chs [].

(** Lines 147-151: the raw transmit and DDS channel-name lists. *)
Definition gather_tx (chs : list channel) : list string * list string :=
  fold_left
    (fun '(tx_names, dds_names) ch =>
       if scan_element ch then (tx_names ++ [_id ch], dds_names)
       else (tx_names, dds_names ++ [_id ch]))
    chs ([], []).

(** The attributes of the constructed object that the topology logic
    fills. *)
Record ad9084 : Type := {
  _rx_channel_names : list string;
  _tx_channel_names : list string;
  _dds_channel_names : list string;
  _rx_coarse_ddc_channel_names : list string;
  _tx_coarse_duc_channel_names : list string;
  _rx_fine_ddc_channel_names : list string;
  _tx_fine_duc_channel_names : list string;
  _path_map : topology
}.

(** Lines 121-179 of [__init__], the part that this module writes out
    itself: [rxadc] and [txdac] are the channel lists of the devices found
    in the context ([None] when [find_device] finds none);
    [rx_complex_data] and [tx_complex_data] are the flags after lines
    131-134. *)
Definition discover (rxadc txdac : option (list channel))
  (rx_complex_data tx_complex_data : bool) : result ad9084 :=
  match rxadc, txdac with
  | None, _ => Raise DeviceNotFound
  | Some _, None => Raise DeviceNotFound
  | Some rx, Some tx =>
      let paths := build_path_map rx in
      let rx_names := gather_rx rx in
      let '(tx_names, dds_names) := gather_tx tx in
      rx_names <- _sortconv rx_names false false rx_complex_data ;;
      tx_names <- _sortconv tx_names false false tx_complex_data ;;
      dds_names <- _sortconv dds_names false true false ;;
      r <- derive paths no_reps ;;
      Ok {| _rx_channel_names := rx_names;
            _tx_channel_names := tx_names;
            _dds_channel_names := dds_names;
            _rx_coarse_ddc_channel_names := rx_coarse r;
            _tx_coarse_duc_channel_names := tx_coarse r;
            _rx_fine_ddc_channel_names := rx_fine r;
            _tx_fine_duc_channel_names := tx_fine r;
            _path_map := paths |}
  end.

(** What lines 181-183 call of the base classes, whose code is outside
    this module: [rx_tx.__init__], [sync_start.__init__] and the setter of
    the property [rx_buffer_size].  Each is given the object as the lines
    before have filled it, may raise, and sets attributes other than those
    of the record [ad9084]. *)
Record inherited : Type := {
  rx_tx_init : ad9084 -> result unit;
  sync_start_init : ad9084 -> result unit;
  set_rx_buffer_size : ad9084 -> Z -> result unit
}.

(** [__init__] as a whole: the object is returned only when the three
    inherited calls of lines 181-183 have returned as well. *)
Definition construct (base : inherited) (rxadc txdac : option (list channel))
  (rx_complex_data tx_complex_data : bool) : result ad9084 :=
  self <- discover rxadc txdac rx_complex_data tx_complex_data ;;
  u <- rx_tx_init base self ;;
  u <- sync_start_init base self ;;
  u <- set_rx_buffer_size base self (2 ^ 16) ;;
  Ok self.

(** Base classes that accept every object. *)
Definition accepting : inherited :=
  {| rx_tx_init := fun _ => Ok tt;
     sync_start_init := fun _ => Ok tt;
     set_rx_buffer_size := fun _ _ => Ok tt |}.

(* ------------------------------------------------------------------ *)
(** ** The topology parser on a store of dictionary objects

    [_map_to_dict] updates the dictionary it is given and returns that
    same object.  To speak about freshness and about what a call leaves
    untouched, top-level dictionaries live in a store and are named by
    their location; the nested dictionaries and lists are created by
    [_map_to_dict] itself and are reachable only through the top-level
    dictionary that owns them, so they are kept by value. *)

Module Store.

Definition loc : Type := nat.
Definition store : Type := list topology.

Definition read (h : store) (p : loc) : option topology := nth_error h p.

Fixpoint write (h : store) (p : loc) (m : topology) : store :=
  match h, p with
  | [], _ => []
  | _ :: h', O => m :: h'
  | x :: h', S p' => x :: write h' p' m
  end.

(** [{}]: a new, empty dictionary object. *)
Definition alloc (h : store) : store * loc := (h ++ [[]], List.length h).

(** [_map_to_dict(paths, ch)] on the object at [paths]: the object is
    updated in place and its own location is returned. *)
Definition map_to_dict (h : store) (paths : loc) (ch : channel)
  : store * loc :=
  match read h paths with
  | Some m => (write h paths (_map_to_dict m ch), paths)
  | None => (h, paths)
  end.

(** Lines 139-140: [if "label" in ch.attrs: paths = _map_to_dict(paths, ch)]. *)
Definition round (hp : store * loc) (ch : channel) : store * loc :=
  let '(h, paths) := hp in
  match label ch with
  | Some _ => map_to_dict h paths ch
  | None => (h, paths)
  end.

(** Lines 137-141: [paths = {}] and the loop over the channels. *)
Definition parse (h : store) (chs : list channel) : store * loc :=
  fold_left round chs (alloc h).

End Store.

(* ------------------------------------------------------------------ *)
(** ** Single-element accessor helpers (lines 186-204) *)

(** The [channel_name] argument: a name, or a list of names
    ([isinstance(channel_name, list)]). *)
Inductive channel_arg : Type :=
| Name (n : string)
| Names (l : list string).

(** Lines 187-188 and their three copies. *)
Definition first_name (channel_name : channel_arg) : result string :=
  match channel_name with
  | Names l => index l 0
  | Name n => Ok n
  end.

Section Accessors.
(** The attribute primitives inherited from [rx_tx]; [Ctrl] is the type of
    the optional [_ctrl] device. *)
Variables T U Ctrl : Type.
Variable _get_iio_attr_str : string -> string -> bool -> result T.
Variable _get_iio_attr :
  string -> string -> bool -> option Ctrl -> result T.
Variable _set_iio_attr :
  string -> string -> bool -> U -> option Ctrl -> result unit.

Definition _get_iio_attr_str_single (channel_name : channel_arg)
  (attr : string) (output : bool) : result T :=
  n <- first_name channel_name ;; _get_iio_attr_str n attr output.

Definition _set_iio_attr_str_single (channel_name : channel_arg)
  (attr : string) (output : bool) (value : U) : result unit :=
  n <- first_name channel_name ;; _set_iio_attr n attr output value None.

Definition _get_iio_attr_single (channel_name : channel_arg)
  (attr : string) (output : bool) (_ctrl : option Ctrl) : result T :=
  n <- first_name channel_name ;; _get_iio_attr n attr output _ctrl.

Definition _set_iio_attr_single (channel_name : channel_arg)
  (attr : string) (output : bool) (value : U) (_ctrl : option Ctrl)
  : result unit :=
  n <- first_name channel_name ;; _set_iio_attr n attr output value _ctrl.

End Accessors.

(* ------------------------------------------------------------------ *)
(** ** [jesd204_device_status_check] (lines 635-650) *)

Module PyLines.

(** The line boundaries of [str.splitlines] among the code points below
    256: LF, CR, VT, FF, FS, GS, RS and NEL. *)
Definition is_linebreak (c : ascii) : bool :=
  let n := nat_of_ascii c in
  ((n =? 10) || (n =? 13) || (n =? 11) || (n =? 12)
   || (n =? 28) || (n =? 29) || (n =? 30) || (n =? 133))%nat.

(** [s.splitlines(0)]: the lines without their line breaks; CR LF is one
    break; no empty last line after a final break. *)
Fixpoint splitlines (s : string) : list string :=
  match s with
  | EmptyString => []
  | String c s' =>
      if is_linebreak c then
        EmptyString ::
          match s' with
          | String c' s'' =>
              if (Ascii.eqb c "013" && Ascii.eqb c' "010")%bool
              then splitlines s''
              else splitlines s'
          | EmptyString => []
          end
      else
        match splitlines s' with
        | [] => [String c EmptyString]
        | line :: rest => String c line :: rest
        end
  end.

End PyLines.

(** Lines 638-649: the loop over the lines, left at the first [return
    True]. *)
Fixpoint scan_status (lines : list string) : bool :=
  match lines with
  | [] => false
  | s :: rest =>
      if PyStr.str_in "JRX" s then
        if PyStr.str_in "204C" s then
          if negb (PyStr.str_in "Link is good" s) then true
          else scan_status rest
        else if PyStr.str_in "204B" s then
          if PyStr.str_in "0x0 lanes in DATA" s then true
          else scan_status rest
        else scan_status rest
      else if PyStr.str_in "JTX" s then
        if existsb (fun substr => PyStr.str_in substr s)
             [" asserted"; "unlocked"; "lost"; "invalid"]
        then true
        else scan_status rest
      else scan_status rest
  end.

Section Status.
(** The debug-attribute primitive inherited from [rx_tx], and the receive
    device it is asked about. *)
Variable Dev : Type.
Variable _get_iio_debug_attr_str : string -> Dev -> result string.
Variable _rxadc : Dev.

Definition jesd204_device_status_check : result bool :=
  stat <- _get_iio_debug_attr_str "status" _rxadc ;;
  Ok (scan_status (PyLines.splitlines stat)).

End Status.

(* ------------------------------------------------------------------ *)
(** ** Properties read through the single-element helpers
    (lines 274-284, 573-599) *)

Section SingleProperties.
Variables T U Ctrl : Type.
Variable _get_iio_attr_str : string -> string -> bool -> result T.
Variable _get_iio_attr :
  string -> string -> bool -> option Ctrl -> result T.
Variable _set_iio_attr :
  string -> string -> bool -> U -> option Ctrl -> result unit.

Definition rx_test_mode (self : ad9084) : result T :=
  _get_iio_attr_str_single _get_iio_attr_str
    (Names (_rx_coarse_ddc_channel_names self)) "test_mode" false.

Definition set_rx_test_mode (self : ad9084) (value : U) : result unit :=
  _set_iio_attr_single _set_iio_attr
    (Names (_rx_coarse_ddc_channel_names self)) "test_mode" false value None.

Definition rx_sample_rate (self : ad9084) : result T :=
  _get_iio_attr_single _get_iio_attr
    (Names (_rx_coarse_ddc_channel_names self)) "sampling_frequency" false None.

Definition adc_frequency (self : ad9084) : result T :=
  _get_iio_attr_single _get_iio_attr
    (Names (_rx_coarse_ddc_channel_names self)) "adc_frequency" false None.

Definition tx_sample_rate (self : ad9084) : result T :=
  _get_iio_attr_single _get_iio_attr
    (Names (_tx_coarse_duc_channel_names self)) "sampling_frequency" true None.

Definition dac_frequency (self : ad9084) : result T :=
  _get_iio_attr_single _get_iio_attr
    (Names (_tx_coarse_duc_channel_names self)) "dac_frequency" true None.

End SingleProperties.

(* ------------------------------------------------------------------ *)
(** ** Vocabulary of the properties *)

(** A path segment: text with no separator inside. *)
Definition is_segment (s : string) : bool :=
  negb (PyStr.str_in "->" s) && negb (PyStr.str_in ":" s).

(** The segments of a label, as lines 23-24 compute them. *)
Definition segments (lab : string) : list string :=
  PyStr.split (PyStr.replace lab ":" "->") "->".


(** The channel list at [paths[adc][cddc][fddc]], empty when a key is
    missing. *)
Definition existing (paths : topology) (adc cddc fddc : string) : list string :=
  match channels_at paths adc cddc fddc with
  | Some l => l
  | None => []
  end.

(** Whether [_map_to_dict] takes the label of [ch] as a path: the label is
    there, is not the sentinel, and has 3 or 4 segments. *)
Definition parsed (ch : channel) : bool :=
  match label ch with
  | None => false
  | Some lab =>
      negb (String.eqb lab "buffer_only") &&
      ((List.length (segments lab) =? 3) || (List.length (segments lab) =? 4))%nat
  end.

(** Every identifier held by some leaf of the map. *)
Definition fine_ids (at_cddc : fine_map) : list string :=
  flat_map (@channels) (Dict.values at_cddc).

Definition coarse_ids (at_adc : coarse_map) : list string :=
  flat_map fine_ids (Dict.values at_adc).

Definition leaf_ids (paths : topology) : list string :=
  flat_map coarse_ids (Dict.values paths).

(** Decorated entries in key order, and entries that carry their own key. *)
Definition le_key (p q : Z * string) : Prop := (fst p <= fst q)%Z.

Definition keyed (key : string -> option Z) (p : Z * string) : Prop :=
  key (snd p) = Some (fst p).

(** A list whose keys all parse and never decrease. *)
Definition ordered (key : string -> option Z) (l : list string) : Prop :=
  exists d, decorate key l = Some d /\ StronglySorted le_key d.

(** The outcome of the output loop of [_sortconv] when [noq] is false:
    [I[0], Q[0], I[1], Q[1], ...], with an index error as soon as [Q] is
    exhausted before [I]. *)
Fixpoint weave (tmpI tmpQ : list string) : result (list string) :=
  match tmpI, tmpQ with
  | [], _ => Ok []
  | _ :: _, [] => Raise IndexError
  | a :: tmpI', b :: tmpQ' => r <- weave tmpI' tmpQ' ;; Ok (a :: b :: r)
  end.

(** Dictionaries have each key once. *)
Definition wf_fine (at_cdc : fine_map) : Prop := NoDup (Dict.keys at_cdc).

Definition wf_coarse (at_converter : coarse_map) : Prop :=
  NoDup (Dict.keys at_converter) /\ Forall wf_fine (Dict.values at_converter).

Definition wf_topology (paths : topology) : Prop :=
  NoDup (Dict.keys paths) /\ Forall wf_coarse (Dict.values paths).

(** The derivation of the representative lists, in the words of its
    description: per (converter, coarse) pair the channel lists of the
    fine stages are flattened in iteration order and filtered; the first
    survivor is the pair's coarse representative and all survivors are
    fine representatives; converters named with [ADC] are receive-side.
    The filter lets through the names that contain the fragment [voltage]
    and do not contain the fragment [_q]. *)
Definition i_half (n : string) : bool :=
  PyStr.str_in "voltage" n && negb (PyStr.str_in "_q" n).

Definition survivors (at_cdc : fine_map) : list string :=
  filter i_half (concat (map (@channels) (Dict.values at_cdc))).

Definition groups (paths : topology) : list (string * list string) :=
  flat_map
    (fun entry : string * coarse_map =>
       map (fun at_cdc => (fst entry, survivors at_cdc))
         (Dict.values (snd entry)))
    paths.

Definition is_rx (g : string * list string) : bool :=
  PyStr.str_in "ADC" (fst g).

Definition firsts (gs : list (string * list string)) : list string :=
  flat_map (fun g => firstn 1 (snd g)) gs.

Definition alls (gs : list (string * list string)) : list string :=
  flat_map (fun g => snd g) gs.

Definition nonempty (g : string * list string) : bool :=
  match snd g with [] => false | _ :: _ => true end.

Definition representatives (paths : topology) : result reps :=
  let gs := groups paths in
  if forallb nonempty gs
  then Ok {| rx_coarse := firsts (filter is_rx gs);
             rx_fine := alls (filter is_rx gs);
             tx_coarse := firsts (filter (fun g => negb (is_rx g)) gs);
             tx_fine := alls (filter (fun g => negb (is_rx g)) gs) |}
  else Raise IndexError.

(** Every name of the representative lists has passed the filter. *)
Definition filtered (r : reps) : Prop :=
  forall n,
    In n (rx_coarse r ++ rx_fine r ++ tx_coarse r ++ tx_fine r) ->
    i_half n = true.

(** What one (converter, coarse) pair with survivors [snd g] adds to the
    representative lists. *)
Definition add_group (g : string * list string) (r : reps) : result reps :=
  c <- index (snd g) 0 ;;
  Ok (if is_rx g
      then {| rx_coarse := rx_coarse r ++ [c];
              rx_fine := rx_fine r ++ snd g;
              tx_coarse := tx_coarse r;
              tx_fine := tx_fine r |}
      else {| rx_coarse := rx_coarse r;
              rx_fine := rx_fine r;
              tx_coarse := tx_coarse r ++ [c];
              tx_fine := tx_fine r ++ snd g |}).

(** The topology map of the example: one receive converter, one coarse
    stage, one fine stage holding a complex pair. *)
Definition example_map : topology :=
  [("ADC0",
    [("CDDC0",
      [("FDDC0", {| channels := ["voltage0_i"; "voltage0_q"] |})])])].

(* ------------------------------------------------------------------ *)
(** ** Further vocabulary *)

(** The path [(adc, cddc, fddc)] that [_map_to_dict] reads off the label
    of [ch], if it reads one. *)
Definition target (ch : channel) : option (string * string * string) :=
  match label ch with
  | None => None
  | Some lab =>
      if String.eqb lab "buffer_only" then None
      else
        match segments lab with
        | [fddc; cddc; adc] => Some (adc, cddc, fddc)
        | [_; fddc; cddc; adc] => Some (adc, cddc, fddc)
        | _ => None
        end
  end.

(** Whether the label of [ch] is the path to [paths[adc][cddc][fddc]]. *)
Definition hits (adc cddc fddc : string) (ch : channel) : bool :=
  match target ch with
  | Some (a, c, f) => String.eqb a adc && String.eqb c cddc && String.eqb f fddc
  | None => false
  end.

(** The converter names of the parsed labels, in channel order. *)
Definition converters (chs : list channel) : list string :=
  flat_map
    (fun ch => match target ch with Some (a, _, _) => [a] | None => [] end)
    chs.

(** The distinct elements of a list, in the order of their first
    occurrence. *)
Definition add_new (acc : list string) (x : string) : list string :=
  if existsb (String.eqb x) acc then acc else acc ++ [x].

Definition first_seen (l : list string) : list string :=
  fold_left add_new l [].

(** The names with index [k] under [key]. *)
Definition has_key (key : string -> option Z) (k : Z) (w : string) : bool :=
  match key w with
  | Some k' => (k' =? k)%Z
  | None => false
  end.

(** Order of two names by their indices. *)
Definition key_le (key : string -> option Z) (a b : string) : Prop :=
  exists x y, key a = Some x /\ key b = Some y /\ (x <= y)%Z.

(** The key function of the two modes without interleaving. *)
Definition plain_key (dds : bool) : string -> option Z :=
  if dds then ignorealt else ignorevoltage.

(** [str(n)] for a natural number. *)
Definition str_of_nat (n : nat) : string :=
  NilEmpty.string_of_uint (Nat.to_uint n).

(** An index whose decimal writing [int] accepts. *)
Definition short_index (n : nat) : Prop :=
  (Z.of_nat (String.length (str_of_nat n)) <= PyStr.max_str_digits)%Z.

(** The verdict of lines 639-649 on one line. *)
Definition flagged (s : string) : bool :=
  if PyStr.str_in "JRX" s then
    if PyStr.str_in "204C" s then negb (PyStr.str_in "Link is good" s)
    else if PyStr.str_in "204B" s then PyStr.str_in "0x0 lanes in DATA" s
    else false
  else if PyStr.str_in "JTX" s then
    existsb (fun substr => PyStr.str_in substr s)
      [" asserted"; "unlocked"; "lost"; "invalid"]
  else false.

(** [line] occurs in [s] as a contiguous piece. *)
Definition piece_of (s line : string) : Prop :=
  exists pre post, s = (pre ++ line ++ post)%string.

(* ================================================================== *)
(** * Properties *)

(* ------------------------------------------------------------------ *)
(** ** Strings: splitting and replacing around the separators *)

Module PyStrFacts.
Import PyStr.

Lemma prefix_empty (s : string) : prefix "" s = true.
Proof. destruct s; reflexivity. Qed.

Lemma str_in_inv (sub : string) (c : ascii) (s : string) :
  str_in sub (String c s) = false ->
  prefix sub (String c s) = false /\ str_in sub s = false.
Proof.
  cbn [str_in]. intros H. apply orb_false_iff in H. exact H.
Qed.

(** An arrow that does not start at the head of [String c s] does not
    start at the head of [String c (s ++ "-"...)] either: the appended
    text begins with a dash. *)
Lemma prefix_arrow_app (c : ascii) (s r : string) :
  prefix "->" (String c s) = false ->
  prefix "->" (String c (s ++ String "-" r)) = false.
Proof.
  cbn [prefix]. destruct (ascii_dec "-" c) as [_|_]; [|reflexivity].
  destruct s as [|c' s']; cbn [append prefix].
  - intros _. destruct (ascii_dec ">" "-") as [E|_]; [discriminate E|reflexivity].
  - destruct (ascii_dec ">" c'); [|reflexivity].
    rewrite !prefix_empty. trivial.
Qed.

Lemma split_whole (s : string) :
  str_in "->" s = false -> split s "->" = [s].
Proof.
  unfold split. induction s as [|c s IH]; intros H.
  - reflexivity.
  - apply str_in_inv in H. destruct H as [Hp Hs].
    cbn [split_go]. rewrite Hp, (IH Hs). reflexivity.
Qed.

Lemma split_first (s r : string) :
  str_in "->" s = false ->
  split (s ++ "->" ++ r) "->" = s :: split r "->".
Proof.
  unfold split. induction s as [|c s IH]; intros H.
  - cbn. rewrite prefix_empty. reflexivity.
  - apply str_in_inv in H. destruct H as [Hp Hs].
    change ((String c s ++ "->" ++ r)%string)
      with (String c (s ++ String "-" (String ">" r))).
    cbn [split_go]. rewrite (prefix_arrow_app _ _ _ Hp).
    change (String "-" (String ">" r)) with (("->" ++ r)%string).
    rewrite (IH Hs). reflexivity.
Qed.

Lemma replace_colon_app (a b : string) :
  replace (a ++ b) ":" "->" = (replace a ":" "->" ++ replace b ":" "->")%string.
Proof.
  unfold replace. induction a as [|c a IH].
  - reflexivity.
  - cbn [append replace_go prefix String.length Nat.sub].
    rewrite !prefix_empty.
    destruct (ascii_dec ":" c); cbn [append]; rewrite IH; reflexivity.
Qed.

Lemma replace_colon_id (s : string) :
  str_in ":" s = false -> replace s ":" "->" = s.
Proof.
  unfold replace. induction s as [|c s IH]; intros H.
  - reflexivity.
  - apply str_in_inv in H. destruct H as [Hp Hs].
    cbn [replace_go]. rewrite Hp, (IH Hs). reflexivity.
Qed.

End PyStrFacts.

Lemma is_segment_inv (s : string) :
  is_segment s = true ->
  PyStr.str_in "->" s = false /\ PyStr.str_in ":" s = false.
Proof.
  unfold is_segment. intros H. apply andb_true_iff in H.
  destruct H as [H1 H2]. apply negb_true_iff in H1, H2. auto.
Qed.

Lemma segments_3 (F C A : string) :
  is_segment F = true -> is_segment C = true -> is_segment A = true ->
  segments (F ++ "->" ++ C ++ "->" ++ A) = [F; C; A].
Proof.
  intros HF HC HA.
  apply is_segment_inv in HF, HC, HA.
  destruct HF as [F1 F2], HC as [C1 C2], HA as [A1 A2].
  unfold segments.
  rewrite !PyStrFacts.replace_colon_app.
  rewrite (PyStrFacts.replace_colon_id F F2), (PyStrFacts.replace_colon_id C C2),
    (PyStrFacts.replace_colon_id A A2).
  change (PyStr.replace "->" ":" "->") with "->".
  rewrite !PyStrFacts.split_first by assumption.
  rewrite PyStrFacts.split_whole by assumption.
  reflexivity.
Qed.

Lemma segments_4 (S F C A : string) :
  is_segment S = true ->
  is_segment F = true -> is_segment C = true -> is_segment A = true ->
  segments (S ++ ":" ++ F ++ "->" ++ C ++ "->" ++ A) = [S; F; C; A].
Proof.
  intros HS HF HC HA.
  apply is_segment_inv in HS, HF, HC, HA.
  destruct HS as [S1 S2], HF as [F1 F2], HC as [C1 C2], HA as [A1 A2].
  unfold segments.
  rewrite !PyStrFacts.replace_colon_app.
  rewrite (PyStrFacts.replace_colon_id S S2), (PyStrFacts.replace_colon_id F F2),
    (PyStrFacts.replace_colon_id C C2), (PyStrFacts.replace_colon_id A A2).
  change (PyStr.replace "->" ":" "->") with "->".
  change (PyStr.replace ":" ":" "->") with "->".
  rewrite !PyStrFacts.split_first by assumption.
  rewrite PyStrFacts.split_whole by assumption.
  reflexivity.
Qed.

(* ------------------------------------------------------------------ *)
(** ** Dictionaries *)

Module DictFacts.
Import Dict.

Section Facts.
Variable V : Type.
Implicit Types (d : dict V) (k : string) (v : V).

Lemma get_set_same k v d : get k (set k v d) = Some v.
Proof.
  induction d as [|[k' v'] d IH]; cbn.
  - now rewrite String.eqb_refl.
  - destruct (String.eqb k k') eqn:E; cbn; rewrite E; auto.
Qed.

Lemma get_set_other k k' v d :
  String.eqb k' k = false -> get k' (set k v d) = get k' d.
Proof.
  intros N. induction d as [|[k0 v0] d IH]; cbn.
  - now rewrite N.
  - destruct (String.eqb k k0) eqn:E; cbn.
    + apply String.eqb_eq in E. subst k0. now rewrite N.
    + destruct (String.eqb k' k0); auto.
Qed.

Lemma get_ensure k v0 d : get k (ensure k v0 d) = Some (item v0 k d).
Proof.
  unfold ensure, mem, item. destruct (get k d) eqn:E.
  - exact E.
  - apply get_set_same.
Qed.

Lemma get_ensure_other k k' v0 d :
  String.eqb k' k = false -> get k' (ensure k v0 d) = get k' d.
Proof.
  intros N. unfold ensure. destruct (mem k d); [reflexivity|].
  now apply get_set_other.
Qed.

Lemma item_ensure k v0 d : item v0 k (ensure k v0 d) = item v0 k d.
Proof. unfold item at 1. now rewrite get_ensure. Qed.

Lemma get_In k v d : get k d = Some v -> In v (values d).
Proof.
  induction d as [|[k' v'] d IH]; cbn; [discriminate|].
  destruct (String.eqb k k').
  - intros [= ->]. now left.
  - intros H. right. now apply IH.
Qed.

Lemma values_set k v d v' :
  In v' (values (set k v d)) -> v' = v \/ In v' (values d).
Proof.
  induction d as [|[k0 v0] d IH]; cbn.
  - intros [<-|[]]. now left.
  - destruct (String.eqb k k0); cbn.
    + intros [<-|H]; auto.
    + intros [<-|H]; auto. destruct (IH H); auto.
Qed.

Section Ids.
Variable g : V -> list string.

Lemma ids_set k v d x :
  In x (flat_map g (values (set k v d))) ->
  In x (g v) \/ In x (flat_map g (values d)).
Proof.
  rewrite !in_flat_map. intros [v' [Hv Hx]].
  apply values_set in Hv. destruct Hv as [->|Hv]; eauto.
Qed.

Lemma ids_item k v0 d x :
  In x (g (item v0 k d)) -> In x (g v0) \/ In x (flat_map g (values d)).
Proof.
  unfold item. destruct (get k d) eqn:E; auto.
  intros H. right. apply in_flat_map. eauto using get_In.
Qed.

Lemma ids_ensure k v0 d x :
  g v0 = [] ->
  In x (flat_map g (values (ensure k v0 d))) -> In x (flat_map g (values d)).
Proof.
  intros G. unfold ensure. destruct (mem k d); auto.
  intros H. apply ids_set in H. rewrite G in H. destruct H as [[]|H]; auto.
Qed.

End Ids.
End Facts.
End DictFacts.

(* ------------------------------------------------------------------ *)
(** ** [_map_to_dict]: where an identifier lands *)

Import DictFacts.

Ltac plain_dicts :=
  cbv delta [topology coarse_map fine_map Dict.dict] in *.

Lemma channels_at_place_same (paths : topology) (adc cddc fddc id : string) :
  channels_at (place paths adc cddc fddc id) adc cddc fddc
  = Some (existing paths adc cddc fddc ++ [id]).
Proof.
  unfold place, existing, channels_at. cbv zeta. plain_dicts.
  rewrite !get_set_same.
  rewrite !item_ensure.
  set (c0 := Dict.item [] cddc (Dict.item [] adc paths)).
  assert (E : Dict.get fddc c0
              = match Dict.get adc paths with
                | None => None
                | Some at_adc =>
                    match Dict.get cddc at_adc with
                    | None => None
                    | Some at_cddc => Dict.get fddc at_cddc
                    end
                end).
  { unfold c0, Dict.item.
    destruct (Dict.get adc paths) as [a|]; [|reflexivity].
    destruct (Dict.get cddc a) as [c|]; reflexivity. }
  unfold Dict.mem, Dict.item at 1.
  destruct (Dict.get fddc c0) as [l|] eqn:G; rewrite get_set_same; cbn;
    destruct (Dict.get adc paths) as [a|]; try discriminate E;
    try destruct (Dict.get cddc a) as [c|]; try discriminate E;
    try rewrite <- E; reflexivity.
Qed.

(** The lists at the other keys are left as they are. *)
Lemma channels_at_place_other (paths : topology)
  (adc cddc fddc id adc' cddc' fddc' : string) :
  (String.eqb adc' adc && String.eqb cddc' cddc && String.eqb fddc' fddc)
  = false ->
  existing (place paths adc cddc fddc id) adc' cddc' fddc'
  = existing paths adc' cddc' fddc'.
Proof.
  intros N. unfold existing, channels_at, place. cbv zeta. plain_dicts.
  destruct (String.eqb adc' adc) eqn:Ea.
  - apply String.eqb_eq in Ea. subst adc'. rewrite get_set_same.
    destruct (String.eqb cddc' cddc) eqn:Ec.
    + apply String.eqb_eq in Ec. subst cddc'. rewrite get_set_same.
      cbn in N.
      assert (G : forall l,
        Dict.get fddc' (Dict.set fddc l
          (Dict.item [] cddc (Dict.ensure cddc []
             (Dict.item [] adc (Dict.ensure adc [] paths)))))
        = Dict.get fddc'
            (Dict.item [] cddc (Dict.item [] adc paths))).
      { intros l. rewrite get_set_other by exact N.
        now rewrite !item_ensure. }
      destruct (Dict.mem fddc _); rewrite G; unfold Dict.item;
        destruct (Dict.get adc paths) as [a|]; try reflexivity;
        destruct (Dict.get cddc a) as [c|]; reflexivity.
    + rewrite get_set_other by exact Ec.
      rewrite get_ensure_other by exact Ec.
      rewrite item_ensure. unfold Dict.item.
      destruct (Dict.get adc paths) as [a|]; reflexivity.
  - rewrite get_set_other by exact Ea.
    rewrite get_ensure_other by exact Ea. reflexivity.
Qed.

Lemma In_existing_place (paths : topology)
  (adc cddc fddc id adc' cddc' fddc' x : string) :
  In x (existing paths adc' cddc' fddc') ->
  In x (existing (place paths adc cddc fddc id) adc' cddc' fddc').
Proof.
  intros H.
  destruct (String.eqb adc' adc && String.eqb cddc' cddc
            && String.eqb fddc' fddc) eqn:E.
  - apply andb_true_iff in E. destruct E as [E E3].
    apply andb_true_iff in E. destruct E as [E1 E2].
    apply String.eqb_eq in E1, E2, E3. subst.
    unfold existing at 1. rewrite channels_at_place_same.
    apply in_or_app. now left.
  - now rewrite channels_at_place_other.
Qed.

Lemma In_existing_map_to_dict (paths : topology) (ch : channel)
  (adc cddc fddc x : string) :
  In x (existing paths adc cddc fddc) ->
  In x (existing (_map_to_dict paths ch) adc cddc fddc).
Proof.
  intros H. unfold _map_to_dict.
  destruct (label ch) as [lab|]; [|exact H].
  destruct (String.eqb lab "buffer_only"); [exact H|].
  destruct (PyStr.split _ _) as [|p1 [|p2 [|p3 [|p4 [|p5 r]]]]];
    auto using In_existing_place.
Qed.

Lemma In_existing_fold (chs : list channel) (paths : topology)
  (adc cddc fddc x : string) :
  In x (existing paths adc cddc fddc) ->
  In x (existing (fold_left parse_step chs paths) adc cddc fddc).
Proof.
  revert paths. induction chs as [|ch chs IH]; intros paths H; cbn.
  - exact H.
  - apply IH. unfold parse_step.
    destruct (label ch); auto using In_existing_map_to_dict.
Qed.

Lemma map_to_dict_3 (paths : topology) (ch : channel) (F C A : string) :
  label ch = Some (F ++ "->" ++ C ++ "->" ++ A)%string ->
  is_segment F = true -> is_segment C = true -> is_segment A = true ->
  _map_to_dict paths ch = place paths A C F (_id ch).
Proof.
  intros L HF HC HA. pose proof (segments_3 F C A HF HC HA) as Sg.
  unfold _map_to_dict. rewrite L.
  destruct (String.eqb_spec (F ++ "->" ++ C ++ "->" ++ A) "buffer_only")
    as [e|_].
  - rewrite e in Sg. discriminate Sg.
  - unfold segments in Sg. cbv zeta. rewrite Sg. reflexivity.
Qed.

Lemma map_to_dict_4 (paths : topology) (ch : channel) (S F C A : string) :
  label ch = Some (S ++ ":" ++ F ++ "->" ++ C ++ "->" ++ A)%string ->
  is_segment S = true ->
  is_segment F = true -> is_segment C = true -> is_segment A = true ->
  _map_to_dict paths ch = place paths A C F (_id ch).
Proof.
  intros L HS HF HC HA. pose proof (segments_4 S F C A HS HF HC HA) as Sg.
  unfold _map_to_dict. rewrite L.
  destruct (String.eqb_spec (S ++ ":" ++ F ++ "->" ++ C ++ "->" ++ A)
              "buffer_only") as [e|_].
  - rewrite e in Sg. discriminate Sg.
  - unfold segments in Sg. cbv zeta. rewrite Sg. reflexivity.
Qed.

(** C1. A label that is the 3-segment path [F->C->A] puts the
    descriptor's identifier in the channel list at [paths[A][C][F]]:
    [_map_to_dict] appends it to the list found there, and it is still in
    that list of the topology map built from any channel sequence that
    contains the descriptor.  For the 4-segment path [S:F->C->A] the
    leading segment is dropped: [_map_to_dict] returns the same map as for
    the 3-segment label with the same [F], [C], [A], so the identifier
    lands in the same list. *)
Theorem C1_label_placement (paths : topology) (id : string) (se out : bool)
  (F C A : string) :
  is_segment F = true -> is_segment C = true -> is_segment A = true ->
  let ch3 := {| label := Some (F ++ "->" ++ C ++ "->" ++ A)%string;
                _id := id; scan_element := se; output := out |} in
  channels_at (_map_to_dict paths ch3) A C F
    = Some (existing paths A C F ++ [id])
  /\ (forall before after,
        In id (existing (build_path_map (before ++ ch3 :: after)) A C F))
  /\ (forall S, is_segment S = true ->
        let ch4 :=
          {| label := Some (S ++ ":" ++ F ++ "->" ++ C ++ "->" ++ A)%string;
             _id := id; scan_element := se; output := out |} in
        _map_to_dict paths ch4 = _map_to_dict paths ch3
        /\ (forall before after,
              In id (existing (build_path_map (before ++ ch4 :: after)) A C F))).
Proof.
  intros HF HC HA ch3.
  assert (E3 : forall p, _map_to_dict p ch3 = place p A C F id).
  { intros p. now apply (map_to_dict_3 p ch3 F C A). }
  assert (Hin : forall p, In id (existing (place p A C F id) A C F)).
  { intros p. unfold existing at 1. rewrite channels_at_place_same.
    apply in_or_app. right. now left. }
  split; [|split].
  - rewrite E3. apply channels_at_place_same.
  - intros before after. unfold build_path_map.
    rewrite fold_left_app. cbn [fold_left]. apply In_existing_fold.
    unfold parse_step at 1. cbn [label ch3]. rewrite E3. apply Hin.
  - intros S HS ch4.
    assert (E4 : forall p, _map_to_dict p ch4 = place p A C F id).
    { intros p. now apply (map_to_dict_4 p ch4 S F C A). }
    split; [now rewrite E3, E4|].
    intros before after. unfold build_path_map.
    rewrite fold_left_app. cbn [fold_left]. apply In_existing_fold.
    unfold parse_step at 1. cbn [label ch4]. rewrite E4. apply Hin.
Qed.

Lemma C1_label_placement_witness :
  is_segment "FDDC0" = true /\
  is_segment "CDDC0" = true /\ is_segment "ADC0" = true /\
  channels_at
    (_map_to_dict []
       {| label := Some "FDDC0->CDDC0->ADC0"; _id := "voltage0_i";
          scan_element := true; output := false |})
    "ADC0" "CDDC0" "FDDC0" = Some ["voltage0_i"] /\
  is_segment "a" = true /\
  _map_to_dict []
    {| label := Some "a:FDDC0->CDDC0->ADC0"; _id := "voltage0_i";
       scan_element := true; output := false |}
  = _map_to_dict []
      {| label := Some "FDDC0->CDDC0->ADC0"; _id := "voltage0_i";
         scan_element := true; output := false |}.
Proof.
  pose proof (C1_label_placement [] "voltage0_i" true false
                "FDDC0" "CDDC0" "ADC0" eq_refl eq_refl eq_refl) as H.
  split; [reflexivity|]. split; [reflexivity|]. split; [reflexivity|].
  split; [exact (proj1 H)|]. split; [reflexivity|].
  exact (proj1 (proj2 (proj2 H) "a" eq_refl)).
Defined.

(* ------------------------------------------------------------------ *)
(** ** Descriptors the parser skips *)

Lemma parsed_false_skip (paths : topology) (ch : channel) :
  parsed ch = false -> _map_to_dict paths ch = paths.
Proof.
  unfold parsed, _map_to_dict, segments.
  destruct (label ch) as [lab|]; [|reflexivity].
  destruct (String.eqb lab "buffer_only"); [reflexivity|].
  cbv zeta.
  destruct (PyStr.split _ _) as [|p1 [|p2 [|p3 [|p4 [|p5 r]]]]];
    cbn; intros H; try reflexivity; discriminate H.
Qed.

Lemma leaf_ids_place (paths : topology) (adc cddc fddc id x : string) :
  In x (leaf_ids (place paths adc cddc fddc id)) ->
  x = id \/ In x (leaf_ids paths).
Proof.
  unfold place, leaf_ids. cbv zeta. intros H.
  set (p1 := Dict.ensure adc [] paths) in *.
  set (a1 := Dict.ensure cddc [] (Dict.item [] adc p1)) in *.
  set (c1 := Dict.item [] cddc a1) in *.
  assert (P1 : forall y, In y (flat_map coarse_ids (Dict.values p1)) ->
                         In y (flat_map coarse_ids (Dict.values paths))).
  { intros y. now apply ids_ensure. }
  assert (A1 : forall y, In y (coarse_ids a1) ->
                         In y (flat_map coarse_ids (Dict.values paths))).
  { intros y Hy. unfold a1, coarse_ids in Hy.
    apply (ids_ensure fine_ids) in Hy; [|reflexivity].
    apply (ids_item coarse_ids) in Hy. destruct Hy as [[]|Hy]. now apply P1. }
  assert (C1 : forall y, In y (fine_ids c1) ->
                         In y (flat_map coarse_ids (Dict.values paths))).
  { intros y Hy. unfold c1 in Hy.
    apply (ids_item fine_ids) in Hy. destruct Hy as [[]|Hy]. now apply A1. }
  apply ids_set in H. destruct H as [H|H]; [|right; now apply P1].
  unfold coarse_ids at 1 in H. apply ids_set in H.
  destruct H as [H|H]; [|right; now apply A1].
  destruct (Dict.mem fddc c1); unfold fine_ids at 1 in H;
    apply ids_set in H; cbn [channels] in H;
    destruct H as [H|H]; try (right; now apply C1).
  - apply in_app_or in H. destruct H as [H|[H|[]]]; [|now left].
    apply (ids_item (@channels)) in H. destruct H as [[]|H].
    right. now apply C1.
  - destruct H as [H|[]]. now left.
Qed.

Lemma leaf_ids_map_to_dict (paths : topology) (ch : channel) (x : string) :
  In x (leaf_ids (_map_to_dict paths ch)) ->
  In x (leaf_ids paths) \/ (x = _id ch /\ parsed ch = true).
Proof.
  destruct (parsed ch) eqn:P.
  - unfold _map_to_dict.
    destruct (label ch) as [lab|]; [|now left].
    destruct (String.eqb lab "buffer_only"); [now left|].
    cbv zeta.
    destruct (PyStr.split _ _) as [|p1 [|p2 [|p3 [|p4 [|p5 r]]]]];
      try (now left); intros H; apply leaf_ids_place in H;
      destruct H as [H|H]; auto.
  - rewrite parsed_false_skip by exact P. now left.
Qed.

Lemma leaf_ids_fold (chs : list channel) (paths : topology) (x : string) :
  In x (leaf_ids (fold_left parse_step chs paths)) ->
  In x (leaf_ids paths)
  \/ exists ch, In ch chs /\ parsed ch = true /\ _id ch = x.
Proof.
  revert paths. induction chs as [|ch chs IH]; intros paths H; cbn in H.
  - now left.
  - apply IH in H. destruct H as [H|[ch' [I [P E]]]].
    + unfold parse_step in H. destruct (label ch) eqn:L.
      * apply leaf_ids_map_to_dict in H. destruct H as [H|[E P]]; [now left|].
        right. exists ch. repeat split; auto. now left.
      * now left.
    + right. exists ch'. repeat split; auto. now right.
Qed.

Lemma gather_rx_fold (chs : list channel) (names : list string) :
  fold_left
    (fun names ch =>
       if scan_element ch && negb (output ch) then names ++ [_id ch]
       else names) chs names
  = names ++ map _id
      (filter (fun ch => scan_element ch && negb (output ch)) chs).
Proof.
  revert names. induction chs as [|ch chs IH]; intros names; cbn.
  - now rewrite app_nil_r.
  - rewrite IH. destruct (scan_element ch && negb (output ch)); cbn.
    + now rewrite <- app_assoc.
    + reflexivity.
Qed.

Lemma gather_rx_spec (chs : list channel) :
  gather_rx chs
  = map _id (filter (fun ch => scan_element ch && negb (output ch)) chs).
Proof. unfold gather_rx. now rewrite gather_rx_fold. Qed.


(* ------------------------------------------------------------------ *)
(** ** [sorted]: stable sorting by key *)

Lemma Permutation_filter {A : Type} (f : A -> bool) (l l' : list A) :
  Permutation l l' -> Permutation (filter f l) (filter f l').
Proof.
  induction 1 as [|x l l' _ IH|x y l|l l' l'' _ IH1 _ IH2]; cbn.
  - constructor.
  - destruct (f x); auto.
  - destruct (f x), (f y); auto. apply perm_swap.
  - now transitivity (filter f l').
Qed.

Section SortedFacts.
Variable key : string -> option Z.

Lemma decorate_spec (l : list string) (d : list (Z * string)) :
  decorate key l = Some d -> map snd d = l /\ Forall (keyed key) d.
Proof.
  revert d. induction l as [|w l IH]; cbn; intros d H.
  - injection H as <-. split; constructor.
  - destruct (key w) as [k|] eqn:K; [|discriminate].
    destruct (decorate key l) as [d'|]; [|discriminate].
    injection H as <-. destruct (IH d' eq_refl) as [M F].
    split; cbn; [now rewrite M|]. constructor; auto.
Qed.

Lemma decorate_keyed (d : list (Z * string)) :
  Forall (keyed key) d -> decorate key (map snd d) = Some d.
Proof.
  induction 1 as [|[k w] d K _ IH]; cbn.
  - reflexivity.
  - unfold keyed in K. cbn in K. now rewrite K, IH.
Qed.

Lemma decorate_total (l : list string) :
  Forall (fun w => key w <> None) l -> exists d, decorate key l = Some d.
Proof.
  induction 1 as [|w l K _ [d IH]]; cbn.
  - now exists [].
  - destruct (key w) as [k|]; [|congruence]. rewrite IH. eauto.
Qed.

Lemma decorate_parses (l : list string) (d : list (Z * string)) :
  decorate key l = Some d -> Forall (fun w => key w <> None) l.
Proof.
  intros H. apply decorate_spec in H. destruct H as [<- F].
  induction F as [|p d K _ IH]; cbn; constructor; auto.
  unfold keyed in K. congruence.
Qed.

Lemma decorate_fails (l : list string) :
  ~ Forall (fun w => key w <> None) l -> decorate key l = None.
Proof.
  intros N. destruct (decorate key l) eqn:E; [|reflexivity].
  exfalso. eauto using decorate_parses.
Qed.

Lemma decorate_perm (l l' : list string) (d' : list (Z * string)) :
  Permutation l l' -> decorate key l' = Some d' ->
  exists d, decorate key l = Some d /\ Permutation d d'.
Proof.
  intros P H. apply decorate_spec in H. destruct H as [<- F].
  apply Permutation_map_inv in P. destruct P as [d [-> P]].
  exists d. split; [|now symmetry].
  apply decorate_keyed. eapply Permutation_Forall; eauto.
Qed.

Lemma insert_perm (p : Z * string) (l : list (Z * string)) :
  Permutation (insert p l) (p :: l).
Proof.
  induction l as [|q l IH]; cbn.
  - reflexivity.
  - destruct (fst p <=? fst q)%Z; [reflexivity|].
    rewrite IH. apply perm_swap.
Qed.

Lemma isort_perm (l : list (Z * string)) : Permutation (isort l) l.
Proof.
  induction l as [|p l IH]; cbn; [constructor|].
  rewrite insert_perm. now constructor.
Qed.

Lemma insert_sorted (p : Z * string) (l : list (Z * string)) :
  StronglySorted le_key l -> StronglySorted le_key (insert p l).
Proof.
  induction 1 as [|q l S IH F]; cbn.
  - repeat constructor.
  - destruct (fst p <=? fst q)%Z eqn:E.
    + apply Z.leb_le in E. constructor; [now constructor|].
      constructor; [exact E|].
      eapply Forall_impl; [|exact F]. unfold le_key. intros; lia.
    + apply Z.leb_gt in E. constructor; [exact IH|].
      eapply Permutation_Forall; [symmetry; apply insert_perm|].
      constructor; [unfold le_key; lia|exact F].
Qed.

Lemma isort_sorted (l : list (Z * string)) : StronglySorted le_key (isort l).
Proof.
  induction l as [|p l IH]; cbn; [constructor|now apply insert_sorted].
Qed.

(** Sorting moves nothing in a list that is already in key order. *)
Lemma isort_id (l : list (Z * string)) :
  StronglySorted le_key l -> isort l = l.
Proof.
  induction 1 as [|p l S IH F]; cbn; [reflexivity|].
  rewrite IH. destruct l as [|q l]; [reflexivity|]. cbn.
  inversion F as [|? ? Hq _]; subst. unfold le_key in Hq.
  apply Z.leb_le in Hq. now rewrite Hq.
Qed.

(** With pairwise distinct keys there is one list in key order. *)
Lemma sorted_unique (a b : list (Z * string)) :
  StronglySorted le_key a -> StronglySorted le_key b ->
  Permutation a b -> NoDup (map fst a) -> a = b.
Proof.
  intros Sa. revert b. induction Sa as [|x a Sa IH Fa]; intros b Sb P N.
  - apply Permutation_nil in P. now subst.
  - destruct b as [|y b].
    { symmetry in P. apply Permutation_nil in P. discriminate. }
    inversion Sb as [|? ? Sb' Fb]; subst.
    inversion N as [|? ? Nx Na]; subst.
    assert (E : x = y).
    { assert (Iy : In y (x :: a)).
      { eapply Permutation_in; [symmetry; exact P|now left]. }
      destruct Iy as [|Iy]; [assumption|].
      assert (Ix : In x (y :: b)).
      { eapply Permutation_in; [exact P|now left]. }
      destruct Ix as [|Ix]; [now symmetry|].
      rewrite Forall_forall in Fa, Fb.
      pose proof (Fa y Iy) as L1. pose proof (Fb x Ix) as L2.
      unfold le_key in L1, L2.
      exfalso. apply Nx. replace (fst x) with (fst y) by lia.
      now apply in_map. }
    subst y. f_equal. apply IH; auto.
    now apply Permutation_cons_inv in P.
Qed.

Lemma sorted_inv (l out : list string) :
  sorted key l = Ok out ->
  exists d, decorate key l = Some d /\ out = map snd (isort d).
Proof.
  unfold sorted. destruct (decorate key l) as [d|]; [|discriminate].
  intros [= <-]. eauto.
Qed.

Lemma sorted_perm (l out : list string) :
  sorted key l = Ok out -> Permutation out l.
Proof.
  intros H. apply sorted_inv in H. destruct H as [d [D ->]].
  apply decorate_spec in D. destruct D as [<- _].
  apply Permutation_map, isort_perm.
Qed.

Lemma sorted_ordered (l out : list string) :
  sorted key l = Ok out -> ordered key out.
Proof.
  intros H. apply sorted_inv in H. destruct H as [d [D ->]].
  exists (isort d). split; [|apply isort_sorted].
  apply decorate_keyed. apply decorate_spec in D. destruct D as [_ F].
  eapply Permutation_Forall; [symmetry; apply isort_perm|exact F].
Qed.

Lemma ordered_sorted (l : list string) : ordered key l -> sorted key l = Ok l.
Proof.
  intros [d [D S]]. unfold sorted. rewrite D, (isort_id S).
  apply decorate_spec in D. destruct D as [-> _]. reflexivity.
Qed.

Lemma ordered_firstn (n : nat) (l : list string) :
  ordered key l -> ordered key (firstn n l).
Proof.
  intros [d [D S]]. exists (firstn n d).
  apply decorate_spec in D. destruct D as [<- F]. split.
  - rewrite firstn_map. apply decorate_keyed.
    rewrite <- (firstn_skipn n d) in F. now apply Forall_app in F.
  - clear F. revert n. induction S as [|p d S IH F]; intros [|n]; cbn;
      try constructor; auto.
    rewrite <- (firstn_skipn n d) in F. now apply Forall_app in F.
Qed.

Lemma sorted_total (l : list string) :
  Forall (fun w => key w <> None) l -> exists out, sorted key l = Ok out.
Proof.
  intros F. destruct (decorate_total F) as [d D].
  unfold sorted. rewrite D. eauto.
Qed.

Lemma sorted_fails (l : list string) :
  ~ Forall (fun w => key w <> None) l -> sorted key l = Raise ValueError.
Proof. intros N. unfold sorted. now rewrite decorate_fails. Qed.

Lemma sorted_parses (l out : list string) :
  sorted key l = Ok out -> Forall (fun w => key w <> None) l.
Proof.
  intros H. apply sorted_inv in H. destruct H as [d [D _]].
  eauto using decorate_parses.
Qed.

(** The result of [sorted] does not depend on the order of its input
    when no two elements have the same key. *)
Lemma sorted_perm_invariant (l l' : list string) (d' : list (Z * string)) :
  Permutation l l' -> decorate key l' = Some d' -> NoDup (map fst d') ->
  sorted key l = sorted key l'.
Proof.
  intros P D' N. destruct (decorate_perm P D') as [d [D Pd]].
  unfold sorted. rewrite D, D'. do 2 f_equal.
  apply sorted_unique; auto using isort_sorted.
  - now rewrite !isort_perm.
  - eapply Permutation_NoDup; [|exact N].
    apply Permutation_map. symmetry. now rewrite isort_perm.
Qed.

End SortedFacts.

(* ------------------------------------------------------------------ *)
(** ** [_sortconv]: the output loop in closed form *)

Lemma emit_loop_noq (I2 I1 Q out : list string) :
  for_each (emit (I1 ++ I2) Q true) (seq (List.length I1) (List.length I2)) out
  = Ok (out ++ I2).
Proof.
  revert I1 out. induction I2 as [|a I2 IH]; intros I1 out.
  - cbn. now rewrite app_nil_r.
  - cbn [List.length seq for_each]. unfold emit at 1, index.
    rewrite nth_error_app2 by lia. rewrite Nat.sub_diag. cbn.
    replace (I1 ++ a :: I2) with ((I1 ++ [a]) ++ I2)
      by (now rewrite <- app_assoc).
    replace (S (List.length I1)) with (List.length (I1 ++ [a]))
      by (rewrite length_app; cbn; lia).
    rewrite IH. now rewrite <- app_assoc.
Qed.

Lemma emit_loop_weave (I2 I1 Q1 Q2 out : list string) :
  List.length Q1 = List.length I1 ->
  for_each (emit (I1 ++ I2) (Q1 ++ Q2) false)
    (seq (List.length I1) (List.length I2)) out
  = r <- weave I2 Q2 ;; Ok (out ++ r).
Proof.
  revert I1 Q1 Q2 out. induction I2 as [|a I2 IH]; intros I1 Q1 Q2 out L.
  - cbn. now rewrite app_nil_r.
  - cbn [List.length seq for_each]. unfold emit at 1, index.
    rewrite nth_error_app2 by lia. rewrite Nat.sub_diag.
    rewrite nth_error_app2 by lia. rewrite L, Nat.sub_diag.
    destruct Q2 as [|b Q2]; cbn; [reflexivity|].
    replace (I1 ++ a :: I2) with ((I1 ++ [a]) ++ I2)
      by (now rewrite <- app_assoc).
    replace (Q1 ++ b :: Q2) with ((Q1 ++ [b]) ++ Q2)
      by (now rewrite <- app_assoc).
    replace (S (List.length I1)) with (List.length (I1 ++ [a]))
      by (rewrite length_app; cbn; lia).
    rewrite IH by (rewrite !length_app; cbn; lia).
    destruct (weave I2 Q2) as [r|e]; cbn; [|reflexivity].
    now rewrite <- !app_assoc.
Qed.

Lemma sorted_filter_total (key : string -> option Z) (f : string -> bool)
  (l out : list string) :
  sorted key l = Ok out -> exists out', sorted key (filter f l) = Ok out'.
Proof.
  intros H. apply sorted_total. apply sorted_parses in H.
  rewrite Forall_forall in *. intros w Hw. apply filter_In in Hw.
  now apply H.
Qed.

(** Outside complex mode the call is [sorted] on the whole list: the
    second sort, of the names with [_q], has all its keys among those of
    the first. *)
Lemma sortconv_plain (l : list string) (noq dds : bool) :
  _sortconv l noq dds false
  = sorted (if dds then ignorealt else ignorevoltage) l.
Proof.
  unfold _sortconv.
  destruct dds; cbn [andb negb];
    match goal with
    | |- context [sorted ?k l] =>
        destruct (sorted k l) as [tmpI|e] eqn:E; cbn [bind]; [|reflexivity];
        destruct (@sorted_filter_total _ (PyStr.str_in "_q") _ _ E) as [tmpQ EQ];
        rewrite EQ; cbn [bind];
        exact (emit_loop_noq tmpI [] tmpQ [])
    end.
Qed.

Lemma sortconv_complex (l : list string) (noq : bool) :
  _sortconv l noq false true
  = tmpI <- sorted ignoreadc (filter (PyStr.str_in "_i") l) ;;
    tmpQ <- sorted ignoreadc (filter (PyStr.str_in "_q") l) ;;
    if noq then Ok tmpI else weave tmpI tmpQ.
Proof.
  unfold _sortconv. cbn [andb negb].
  destruct (sorted ignoreadc (filter _ l)) as [tmpI|e]; cbn [bind];
    [|reflexivity].
  destruct (sorted ignoreadc (filter _ l)) as [tmpQ|e]; cbn [bind];
    [|reflexivity].
  destruct noq.
  - apply (emit_loop_noq tmpI [] tmpQ []).
  - pose proof (emit_loop_weave tmpI [] [] tmpQ [] eq_refl) as W.
    cbn [app List.length] in W. rewrite W.
    destruct (weave tmpI tmpQ); reflexivity.
Qed.

(* ------------------------------------------------------------------ *)
(** ** Interleaving *)

Lemma weave_length (tmpI tmpQ out : list string) :
  weave tmpI tmpQ = Ok out ->
  List.length tmpI <= List.length tmpQ
  /\ List.length out = 2 * List.length tmpI.
Proof.
  revert tmpQ out. induction tmpI as [|a tmpI IH]; intros [|b tmpQ] out;
    cbn; try discriminate; try (intros [= <-]; cbn; lia).
  destruct (weave tmpI tmpQ) as [r|] eqn:E; cbn; [|discriminate].
  intros [= <-]. destruct (IH _ _ E). cbn. lia.
Qed.

Lemma weave_short (tmpI tmpQ : list string) :
  List.length tmpQ < List.length tmpI -> weave tmpI tmpQ = Raise IndexError.
Proof.
  revert tmpQ. induction tmpI as [|a tmpI IH]; intros [|b tmpQ]; cbn;
    intros L; try lia; try reflexivity.
  rewrite IH by lia. reflexivity.
Qed.

Lemma weave_total (tmpI tmpQ : list string) :
  List.length tmpI <= List.length tmpQ -> exists out, weave tmpI tmpQ = Ok out.
Proof.
  revert tmpQ. induction tmpI as [|a tmpI IH]; intros [|b tmpQ]; cbn;
    intros L; try lia; eauto.
  destruct (IH tmpQ) as [r E]; [lia|]. rewrite E. cbn. eauto.
Qed.

Lemma weave_In (tmpI tmpQ out : list string) (x : string) :
  weave tmpI tmpQ = Ok out -> In x out -> In x tmpI \/ In x tmpQ.
Proof.
  revert tmpQ out. induction tmpI as [|a tmpI IH]; intros [|b tmpQ] out;
    cbn; try discriminate; try (intros [= <-] []).
  destruct (weave tmpI tmpQ) as [r|] eqn:E; cbn; [|discriminate].
  intros [= <-] [<-|[<-|H]]; auto.
  destruct (IH _ _ E H); auto.
Qed.

Lemma weave_firstn (tmpI tmpQ out : list string) :
  weave tmpI tmpQ = Ok out ->
  weave tmpI (firstn (List.length tmpI) tmpQ) = Ok out.
Proof.
  revert tmpQ out. induction tmpI as [|a tmpI IH]; intros [|b tmpQ] out;
    cbn; try discriminate; auto.
  destruct (weave tmpI tmpQ) as [r|] eqn:E; cbn; [|discriminate].
  intros [= <-]. now rewrite (IH _ _ E).
Qed.

Lemma filter_weave_I (f : string -> bool) (tmpI tmpQ out : list string) :
  weave tmpI tmpQ = Ok out ->
  Forall (fun x => f x = true) tmpI -> Forall (fun x => f x = false) tmpQ ->
  filter f out = tmpI.
Proof.
  revert tmpQ out. induction tmpI as [|a tmpI IH]; intros [|b tmpQ] out;
    cbn; try discriminate; try (now intros [= <-]).
  destruct (weave tmpI tmpQ) as [r|] eqn:E; cbn; [|discriminate].
  intros [= <-] FI FQ. inversion FI; inversion FQ; subst. cbn.
  replace (f a) with true by auto. replace (f b) with false by auto.
  f_equal. eauto.
Qed.

Lemma filter_weave_Q (f : string -> bool) (tmpI tmpQ out : list string) :
  weave tmpI tmpQ = Ok out ->
  Forall (fun x => f x = false) tmpI -> Forall (fun x => f x = true) tmpQ ->
  filter f out = firstn (List.length tmpI) tmpQ.
Proof.
  revert tmpQ out. induction tmpI as [|a tmpI IH]; intros [|b tmpQ] out;
    cbn; try discriminate; try (now intros [= <-]).
  destruct (weave tmpI tmpQ) as [r|] eqn:E; cbn; [|discriminate].
  intros [= <-] FI FQ. inversion FI; inversion FQ; subst. cbn.
  replace (f a) with false by auto. replace (f b) with true by auto.
  f_equal. eauto.
Qed.

Lemma filter_all {A : Type} (f : A -> bool) (l : list A) :
  Forall (fun x => f x = true) l -> filter f l = l.
Proof.
  induction 1 as [|x l H _ IH]; cbn; [reflexivity|]. now rewrite H, IH.
Qed.

(* ------------------------------------------------------------------ *)
(** ** [_sortconv]: order independence, rejection, idempotence *)

(** In complex mode the result is the same for two orders of the same
    names, provided that within the [_i] names, and within the [_q]
    names, no two have the same index. *)
Lemma sortconv_complex_perm (l l' : list string) (noq : bool)
  (dI dQ : list (Z * string)) :
  Permutation l l' ->
  decorate ignoreadc (filter (PyStr.str_in "_i") l') = Some dI ->
  decorate ignoreadc (filter (PyStr.str_in "_q") l') = Some dQ ->
  NoDup (map fst dI) -> NoDup (map fst dQ) ->
  _sortconv l noq false true = _sortconv l' noq false true.
Proof.
  intros P DI DQ NI NQ. rewrite !sortconv_complex.
  rewrite (@sorted_perm_invariant _ _ _ _
             (@Permutation_filter _ (PyStr.str_in "_i") _ _ P) DI NI).
  rewrite (@sorted_perm_invariant _ _ _ _
             (@Permutation_filter _ (PyStr.str_in "_q") _ _ P) DQ NQ).
  reflexivity.
Qed.

(** C3. Every ordering of the names [voltage0_i], [voltage0_q],
    [voltage1_i], [voltage1_q] is sorted by [_sortconv] with
    [complex=True] to [voltage0_i, voltage0_q, voltage1_i, voltage1_q]. *)
Theorem C3_complex_order_independent (l : list string) :
  Permutation l ["voltage0_i"; "voltage0_q"; "voltage1_i"; "voltage1_q"] ->
  _sortconv l false false true
  = Ok ["voltage0_i"; "voltage0_q"; "voltage1_i"; "voltage1_q"].
Proof.
  intros P.
  rewrite (@sortconv_complex_perm l _ false
             [(0%Z, "voltage0_i"); (1%Z, "voltage1_i")]
             [(0%Z, "voltage0_q"); (1%Z, "voltage1_q")] P).
  - reflexivity.
  - reflexivity.
  - reflexivity.
  - repeat constructor; cbn; intuition discriminate.
  - repeat constructor; cbn; intuition discriminate.
Qed.

Lemma C3_complex_order_independent_witness :
  Permutation ["voltage1_q"; "voltage1_i"; "voltage0_q"; "voltage0_i"]
    ["voltage0_i"; "voltage0_q"; "voltage1_i"; "voltage1_q"]
  /\ _sortconv ["voltage1_q"; "voltage1_i"; "voltage0_q"; "voltage0_i"]
       false false true
     = Ok ["voltage0_i"; "voltage0_q"; "voltage1_i"; "voltage1_q"].
Proof.
  assert (P : Permutation
                ["voltage1_q"; "voltage1_i"; "voltage0_q"; "voltage0_i"]
                ["voltage0_i"; "voltage0_q"; "voltage1_i"; "voltage1_q"]).
  { symmetry.
    apply (Permutation_rev
             ["voltage0_i"; "voltage0_q"; "voltage1_i"; "voltage1_q"]). }
  split; [exact P|]. exact (@C3_complex_order_independent _ P).
Defined.

(** C5. With [dds=True] and [complex=True] the call is rejected by the
    assertion of line 51, whatever the list and whatever [noq]: the result
    is the assertion error, also for lists whose keys do not parse, and
    never a sorted list. *)
Theorem C5_dds_complex_rejected (l : list string) (noq : bool) :
  _sortconv l noq true true = Raise AssertionError
  /\ forall out, _sortconv l noq true true <> Ok out.
Proof.
  assert (E : _sortconv l noq true true = Raise AssertionError)
    by reflexivity.
  split; [exact E|]. intros out. rewrite E. discriminate.
Qed.

(** The result of [sorted] is sorted again to itself. *)
Lemma sorted_idempotent (key : string -> option Z) (l out : list string) :
  sorted key l = Ok out -> sorted key out = Ok out.
Proof. intros H. apply ordered_sorted. eapply sorted_ordered; eauto. Qed.

Lemma Forall_perm_filter (f g : string -> bool) (v : bool)
  (l out : list string) :
  Permutation out (filter f l) ->
  (forall n, In n l -> f n = true -> g n = v) ->
  Forall (fun n => g n = v) out.
Proof.
  intros P H. apply Forall_forall. intros n Hn.
  apply (@Permutation_in _ _ _ _ P) in Hn. apply filter_In in Hn.
  destruct Hn. auto.
Qed.

(** C7, as the code has it.  Applying [_sortconv] to its own output gives
    that output again: in real mode and in DDS mode for every list the
    first call accepts, and in complex mode provided no name of the input
    contains both [_i] and [_q]. *)
Theorem C7_sortconv_idempotent (l out : list string) (noq dds complex : bool) :
  (complex = true ->
   forall n, In n l ->
     PyStr.str_in "_i" n = true -> PyStr.str_in "_q" n = false) ->
  _sortconv l noq dds complex = Ok out ->
  _sortconv out noq dds complex = Ok out.
Proof.
  intros Hdual. destruct complex.
  - destruct dds; [discriminate|].
    specialize (Hdual eq_refl).
    rewrite !sortconv_complex.
    destruct (sorted ignoreadc (filter (PyStr.str_in "_i") l))
      as [tmpI|] eqn:EI; cbn [bind]; [|discriminate].
    destruct (sorted ignoreadc (filter (PyStr.str_in "_q") l))
      as [tmpQ|] eqn:EQ; cbn [bind]; [|discriminate].
    pose proof (@sorted_perm _ _ _ EI) as PI.
    pose proof (@sorted_perm _ _ _ EQ) as PQ.
    assert (Ii : Forall (fun n => PyStr.str_in "_i" n = true) tmpI).
    { eapply Forall_perm_filter; eauto. }
    assert (Iq : Forall (fun n => PyStr.str_in "_q" n = false) tmpI).
    { eapply Forall_perm_filter; eauto. }
    assert (Qq : Forall (fun n => PyStr.str_in "_q" n = true) tmpQ).
    { eapply Forall_perm_filter; eauto. }
    assert (Qi : Forall (fun n => PyStr.str_in "_i" n = false) tmpQ).
    { eapply Forall_perm_filter; eauto. intros n In Hq.
      destruct (PyStr.str_in "_i" n) eqn:Hi; [|reflexivity].
      rewrite (Hdual n In Hi) in Hq. discriminate. }
    destruct noq.
    + intros [= <-]. rewrite (@filter_all _ _ _ Ii).
      rewrite (@sorted_idempotent _ _ _ EI). cbn [bind].
      destruct (@sorted_filter_total _ (PyStr.str_in "_q") _ _
                  (@sorted_idempotent _ _ _ EI)) as [q' ->].
      reflexivity.
    + intros W.
      rewrite (@filter_weave_I _ _ _ _ W Ii Qi).
      rewrite (@filter_weave_Q _ _ _ _ W Iq Qq).
      rewrite (@sorted_idempotent _ _ _ EI). cbn [bind].
      rewrite (@ordered_sorted _ _
                 (@ordered_firstn _ (List.length tmpI) _
                    (@sorted_ordered _ _ _ EQ))).
      cbn [bind]. now apply weave_firstn.
  - rewrite !sortconv_plain. apply sorted_idempotent.
Qed.

Lemma C7_sortconv_idempotent_witness :
  (true = true ->
   forall n, In n ["voltage1_q"; "voltage0_i"; "voltage1_i"; "voltage0_q"] ->
     PyStr.str_in "_i" n = true -> PyStr.str_in "_q" n = false)
  /\ _sortconv ["voltage1_q"; "voltage0_i"; "voltage1_i"; "voltage0_q"]
       false false true
     = Ok ["voltage0_i"; "voltage0_q"; "voltage1_i"; "voltage1_q"]
  /\ _sortconv ["voltage0_i"; "voltage0_q"; "voltage1_i"; "voltage1_q"]
       false false true
     = Ok ["voltage0_i"; "voltage0_q"; "voltage1_i"; "voltage1_q"].
Proof.
  assert (D : true = true ->
    forall n, In n ["voltage1_q"; "voltage0_i"; "voltage1_i"; "voltage0_q"] ->
      PyStr.str_in "_i" n = true -> PyStr.str_in "_q" n = false).
  { intros _ n [<-|[<-|[<-|[<-|[]]]]]; cbn; intros H;
      reflexivity || discriminate H. }
  split; [exact D|]. split; [reflexivity|].
  exact (@C7_sortconv_idempotent
           ["voltage1_q"; "voltage0_i"; "voltage1_i"; "voltage0_q"]
           ["voltage0_i"; "voltage0_q"; "voltage1_i"; "voltage1_q"]
           false false true D eq_refl).
Defined.

(** C7 as stated fails in complex mode: a name that contains both [_i]
    and [_q] is in both partitions, so each application doubles it. *)
Lemma C7_counterexample :
  _sortconv ["voltage0_i_q"] false false true
    = Ok ["voltage0_i_q"; "voltage0_i_q"]
  /\ _sortconv ["voltage0_i_q"; "voltage0_i_q"] false false true
     = Ok ["voltage0_i_q"; "voltage0_i_q"; "voltage0_i_q"; "voltage0_i_q"]
  /\ ~ (forall l out : list string,
          _sortconv l false false true = Ok out ->
          _sortconv out false false true = Ok out).
Proof.
  split; [reflexivity|]. split; [reflexivity|].
  intros H. specialize (H ["voltage0_i_q"] _ eq_refl). discriminate H.
Qed.

(* ------------------------------------------------------------------ *)
(** ** [_sortconv] in complex mode: the two partitions *)

Lemma sorted_raise (key : string -> option Z) (l : list string) (e : exn) :
  sorted key l = Raise e -> e = ValueError.
Proof.
  unfold sorted. destruct (decorate key l); [discriminate|].
  now intros [= <-].
Qed.

Lemma sorted_length (key : string -> option Z) (l out : list string) :
  sorted key l = Ok out -> List.length out = List.length l.
Proof. intros H. apply Permutation_length. eapply sorted_perm; eauto. Qed.


(* ------------------------------------------------------------------ *)
(** ** Loops *)

Lemma for_each_app {A S : Type} (body : A -> S -> result S)
  (l1 l2 : list A) (s : S) :
  for_each body (l1 ++ l2) s
  = s' <- for_each body l1 s ;; for_each body l2 s'.
Proof.
  revert s. induction l1 as [|a l1 IH]; intros s; cbn; [reflexivity|].
  destruct (body a s); cbn; auto.
Qed.

Lemma for_each_map {A B S : Type} (f : A -> B) (body : B -> S -> result S)
  (l : list A) (s : S) :
  for_each (fun a => body (f a)) l s = for_each body (map f l) s.
Proof.
  revert s. induction l as [|a l IH]; intros s; cbn; [reflexivity|].
  destruct (body (f a) s); cbn; auto.
Qed.

Lemma for_each_ext {A S : Type} (body body' : A -> S -> result S)
  (l : list A) (s : S) :
  (forall a s, In a l -> body a s = body' a s) ->
  for_each body l s = for_each body' l s.
Proof.
  revert s. induction l as [|a l IH]; intros s H; cbn; [reflexivity|].
  rewrite H by (now left). destruct (body' a s); cbn; auto.
  apply IH. intros. apply H. now right.
Qed.

(** A loop whose body raises nothing but [e0] raises nothing but [e0],
    and does raise it when some round raises it from every state. *)
Lemma for_each_raise_only {A S : Type} (body : A -> S -> result S)
  (e0 : exn) (l : list A) (s : S) (e : exn) :
  (forall a s e, body a s = Raise e -> e = e0) ->
  for_each body l s = Raise e -> e = e0.
Proof.
  intros B. revert s. induction l as [|a l IH]; intros s; cbn.
  - discriminate.
  - destruct (body a s) as [s'|e'] eqn:E; cbn; eauto.
    intros [= <-]. eauto.
Qed.

Lemma for_each_raises {A S : Type} (body : A -> S -> result S)
  (e0 : exn) (l : list A) (a : A) (s : S) :
  (forall a s e, body a s = Raise e -> e = e0) ->
  In a l -> (forall s, body a s = Raise e0) ->
  for_each body l s = Raise e0.
Proof.
  intros B I R. revert s. induction l as [|x l IH]; intros s; cbn.
  - contradiction.
  - destruct (body x s) as [s'|e'] eqn:E; cbn.
    + destruct I as [->|I]; [|auto]. rewrite R in E. discriminate.
    + now rewrite (B _ _ _ E).
Qed.

(** A property that every round keeps holds when the loop returns. *)
Lemma for_each_invariant {A S : Type} (body : A -> S -> result S)
  (P : S -> Prop) (l : list A) (s s' : S) :
  (forall a s s', P s -> body a s = Ok s' -> P s') ->
  P s -> for_each body l s = Ok s' -> P s'.
Proof.
  intros B. revert s. induction l as [|a l IH]; intros s Ps; cbn.
  - now intros [= <-].
  - destruct (body a s) as [s1|e] eqn:E; cbn; [|discriminate].
    apply IH. eapply B; eauto.
Qed.

(* ------------------------------------------------------------------ *)
(** ** Dictionaries with each key once *)

Section DictOnce.
Variable V : Type.
Implicit Types (d : Dict.dict V) (k : string) (v : V).

Lemma get_keys k v d : Dict.get k d = Some v -> In k (Dict.keys d).
Proof.
  induction d as [|[k' v'] d IH]; cbn; [discriminate|].
  destruct (String.eqb_spec k k') as [->|_]; auto.
Qed.

Lemma keys_get k d : In k (Dict.keys d) -> Dict.get k d <> None.
Proof.
  induction d as [|[k' v'] d IH]; cbn; [contradiction|].
  destruct (String.eqb_spec k k') as [->|N]; [discriminate|].
  intros [E|H]; [congruence|auto].
Qed.

Lemma items_once (dflt : V) d :
  NoDup (Dict.keys d) ->
  map (fun k => Dict.item dflt k d) (Dict.keys d) = Dict.values d.
Proof.
  unfold Dict.keys, Dict.values.
  induction d as [|[k v] d IH]; cbn; intros N; [reflexivity|].
  inversion N as [|? ? Nk Nd]; subst.
  unfold Dict.item at 1. cbn. rewrite String.eqb_refl. f_equal.
  rewrite <- (IH Nd). apply map_ext_in. intros k' Hk'.
  unfold Dict.item. cbn.
  destruct (String.eqb_spec k' k) as [->|_]; [contradiction|reflexivity].
Qed.

Lemma keys_set k v d :
  Dict.keys (Dict.set k v d)
  = if Dict.mem k d then Dict.keys d else Dict.keys d ++ [k].
Proof.
  unfold Dict.mem, Dict.keys.
  induction d as [|[k' v'] d IH]; cbn; [reflexivity|].
  destruct (String.eqb k k'); cbn; [reflexivity|].
  rewrite IH. destruct (Dict.get k d); reflexivity.
Qed.

Lemma keys_set_once k v d :
  NoDup (Dict.keys d) -> NoDup (Dict.keys (Dict.set k v d)).
Proof.
  intros N. rewrite keys_set. unfold Dict.mem.
  destruct (Dict.get k d) eqn:E; [exact N|].
  apply (@Permutation_NoDup _ (k :: Dict.keys d)).
  - apply Permutation_cons_append.
  - constructor; [|exact N]. intros H. now apply keys_get in H.
Qed.

Lemma values_set_all (P : V -> Prop) k v d :
  P v -> Forall P (Dict.values d) -> Forall P (Dict.values (Dict.set k v d)).
Proof.
  intros Pv F. apply Forall_forall. intros x Hx.
  apply DictFacts.values_set in Hx. destruct Hx as [->|Hx]; auto.
  rewrite Forall_forall in F. auto.
Qed.

Lemma item_all (P : V -> Prop) (dflt : V) k d :
  P dflt -> Forall P (Dict.values d) -> P (Dict.item dflt k d).
Proof.
  intros Pd F. unfold Dict.item. destruct (Dict.get k d) eqn:E; auto.
  rewrite Forall_forall in F. eauto using DictFacts.get_In.
Qed.

Lemma keys_ensure_once k v d :
  NoDup (Dict.keys d) -> NoDup (Dict.keys (Dict.ensure k v d)).
Proof.
  unfold Dict.ensure. destruct (Dict.mem k d); auto using keys_set_once.
Qed.

Lemma values_ensure_all (P : V -> Prop) k v d :
  P v -> Forall P (Dict.values d) ->
  Forall P (Dict.values (Dict.ensure k v d)).
Proof.
  unfold Dict.ensure. destruct (Dict.mem k d); auto using values_set_all.
Qed.

End DictOnce.

Lemma entries_once {V : Type} (dflt : V) (d : Dict.dict V) :
  NoDup (Dict.keys d) ->
  map (fun k => (k, Dict.item dflt k d)) (Dict.keys d) = d.
Proof.
  unfold Dict.keys.
  induction d as [|[k v] d IH]; cbn; intros N; [reflexivity|].
  inversion N as [|? ? Nk Nd]; subst.
  unfold Dict.item at 1. cbn. rewrite String.eqb_refl. f_equal.
  rewrite <- (IH Nd) at 2. apply map_ext_in. intros k' Hk'.
  unfold Dict.item. cbn.
  destruct (String.eqb_spec k' k) as [->|_]; [contradiction|reflexivity].
Qed.

(* ------------------------------------------------------------------ *)
(** ** The parser builds dictionaries with each key once *)

Lemma wf_place (paths : topology) (adc cddc fddc id : string) :
  wf_topology paths -> wf_topology (place paths adc cddc fddc id).
Proof.
  intros [N F]. unfold place. cbv zeta.
  set (p1 := Dict.ensure adc [] paths).
  set (a1 := Dict.ensure cddc [] (Dict.item [] adc p1)).
  set (c1 := Dict.item [] cddc a1).
  assert (Wnil : wf_coarse []) by (split; constructor).
  assert (Fnil : wf_fine []) by constructor.
  assert (W1 : NoDup (Dict.keys p1) /\ Forall wf_coarse (Dict.values p1)).
  { split; [now apply keys_ensure_once|now apply values_ensure_all]. }
  destruct W1 as [N1 F1].
  assert (Wa : wf_coarse (Dict.item [] adc p1)) by (now apply item_all).
  destruct Wa as [Na Fa].
  assert (Wa1 : wf_coarse a1).
  { split; [now apply keys_ensure_once|now apply values_ensure_all]. }
  destruct Wa1 as [Na1 Fa1].
  assert (Wc1 : wf_fine c1) by (now apply item_all).
  split.
  - now apply keys_set_once.
  - apply values_set_all; [|exact F1]. split.
    + now apply keys_set_once.
    + apply values_set_all; [|exact Fa1].
      destruct (Dict.mem fddc c1); now apply keys_set_once.
Qed.

Lemma wf_map_to_dict (paths : topology) (ch : channel) :
  wf_topology paths -> wf_topology (_map_to_dict paths ch).
Proof.
  intros W. unfold _map_to_dict.
  destruct (label ch) as [lab|]; [|exact W].
  destruct (String.eqb lab "buffer_only"); [exact W|].
  cbv zeta.
  destruct (PyStr.split _ _) as [|p1 [|p2 [|p3 [|p4 [|p5 r]]]]];
    auto using wf_place.
Qed.

Lemma wf_build_path_map (chs : list channel) :
  wf_topology (build_path_map chs).
Proof.
  unfold build_path_map.
  assert (W : wf_topology []) by (split; constructor).
  revert W. generalize (@nil (string * coarse_map)).
  induction chs as [|ch chs IH]; intros paths W; cbn; [exact W|].
  apply IH. unfold parse_step. destruct (label ch); auto using wf_map_to_dict.
Qed.

(* ------------------------------------------------------------------ *)
(** ** The derivation of the representative lists *)

Lemma fold_left_concat {A : Type} (g : A -> list string) (ks : list A)
  (acc : list string) :
  fold_left (fun chans k => chans ++ g k) ks acc = acc ++ concat (map g ks).
Proof.
  revert acc. induction ks as [|k ks IH]; intros acc; cbn.
  - now rewrite app_nil_r.
  - rewrite IH. now rewrite <- app_assoc.
Qed.

Lemma flatten_once (at_cdc : fine_map) :
  wf_fine at_cdc ->
  flatten at_cdc = concat (map (@channels) (Dict.values at_cdc)).
Proof.
  intros W. unfold flatten. rewrite fold_left_concat. cbn [app].
  unfold wf_fine in W. plain_dicts.
  rewrite <- (@items_once _ no_leaf _ W). now rewrite map_map.
Qed.

(** The filter of line 173 is the filter of the description. *)
Lemma keep_i_half (n : string) : keep n = i_half n.
Proof.
  unfold keep, i_half.
  destruct (PyStr.str_in "_q" n), (PyStr.str_in "voltage" n); reflexivity.
Qed.

Lemma filter_keep (l : list string) : filter keep l = filter i_half l.
Proof.
  induction l as [|n l IH]; cbn [filter]; [reflexivity|].
  now rewrite keep_i_half, IH.
Qed.

Lemma i_half_true (n : string) :
  i_half n = true
  <-> PyStr.str_in "voltage" n = true /\ PyStr.str_in "_q" n = false.
Proof.
  unfold i_half. rewrite andb_true_iff, negb_true_iff. tauto.
Qed.

Lemma i_half_false (n : string) :
  i_half n = false
  <-> PyStr.str_in "voltage" n = false \/ PyStr.str_in "_q" n = true.
Proof.
  unfold i_half. rewrite andb_false_iff, negb_false_iff. tauto.
Qed.

Lemma derive_group_add (converter : string) (at_cdc : fine_map) (r : reps) :
  derive_group converter at_cdc r
  = add_group (converter, filter i_half (flatten at_cdc)) r.
Proof.
  unfold derive_group, add_group, is_rx. cbn [fst snd].
  rewrite filter_keep.
  destruct (PyStr.str_in "ADC" converter);
    destruct (index (filter i_half (flatten at_cdc)) 0); reflexivity.
Qed.

Lemma derive_coarse_groups (converter : string) (at_converter : coarse_map)
  (r : reps) :
  wf_coarse at_converter ->
  for_each
    (fun cdc r => derive_group converter (Dict.item [] cdc at_converter) r)
    (Dict.keys at_converter) r
  = for_each add_group
      (map (fun at_cdc => (converter, survivors at_cdc))
         (Dict.values at_converter)) r.
Proof.
  intros [N F]. plain_dicts.
  rewrite (for_each_map (fun cdc => Dict.item [] cdc at_converter)
             (derive_group converter)).
  rewrite (@items_once _ [] _ N).
  rewrite <- (for_each_map (fun at_cdc => (converter, survivors at_cdc))
                add_group).
  apply for_each_ext. intros at_cdc s I.
  rewrite derive_group_add. unfold survivors.
  rewrite flatten_once; [reflexivity|].
  rewrite Forall_forall in F. auto.
Qed.

Lemma derive_groups (paths : topology) (r : reps) :
  wf_topology paths -> derive paths r = for_each add_group (groups paths) r.
Proof.
  intros [N F]. unfold derive. plain_dicts.
  rewrite (for_each_map (fun converter => (converter, Dict.item [] converter paths))
             (fun entry r =>
                for_each
                  (fun cdc r =>
                     derive_group (fst entry) (Dict.item [] cdc (snd entry)) r)
                  (Dict.keys (snd entry)) r)).
  rewrite (@entries_once _ [] _ N). clear N. unfold groups.
  revert r. induction paths as [|[converter at_converter] paths IH];
    intros r; cbn [for_each flat_map fst snd]; [reflexivity|].
  inversion F as [|? ? W F']; subst.
  rewrite for_each_app, (@derive_coarse_groups _ _ _ W).
  destruct (for_each add_group _ r); cbn [bind]; auto.
Qed.

Lemma add_groups (gs : list (string * list string)) (r : reps) :
  for_each add_group gs r
  = if forallb nonempty gs
    then Ok {| rx_coarse := rx_coarse r ++ firsts (filter is_rx gs);
               rx_fine := rx_fine r ++ alls (filter is_rx gs);
               tx_coarse :=
                 tx_coarse r ++ firsts (filter (fun g => negb (is_rx g)) gs);
               tx_fine :=
                 tx_fine r ++ alls (filter (fun g => negb (is_rx g)) gs) |}
    else Raise IndexError.
Proof.
  revert r. induction gs as [|[converter chans] gs IH]; intros r.
  - cbn. rewrite !app_nil_r. now destruct r.
  - cbn [for_each forallb filter]. unfold add_group at 1, nonempty at 1.
    cbn [snd]. destruct chans as [|c chans]; [reflexivity|].
    cbn [index nth_error bind andb]. rewrite IH.
    destruct (forallb nonempty gs); [|reflexivity].
    destruct (is_rx (converter, c :: chans)); cbn [negb];
      unfold firsts, alls; cbn [flat_map firstn snd];
      cbn [rx_coarse rx_fine tx_coarse tx_fine];
      rewrite <- ?app_assoc; reflexivity.
Qed.

Lemma derive_representatives (paths : topology) :
  wf_topology paths -> derive paths no_reps = representatives paths.
Proof.
  intros W. rewrite (@derive_groups _ _ W), add_groups. reflexivity.
Qed.

(** A constructed object is the one that lines 121-179 have filled. *)
Lemma construct_discover (base : inherited)
  (rxadc txdac : option (list channel)) (cr ct : bool) (obj : ad9084) :
  construct base rxadc txdac cr ct = Ok obj ->
  discover rxadc txdac cr ct = Ok obj.
Proof.
  unfold construct.
  destruct (discover rxadc txdac cr ct) as [self|]; cbn [bind];
    [|discriminate].
  destruct (rx_tx_init base self); cbn [bind]; [|discriminate].
  destruct (sync_start_init base self); cbn [bind]; [|discriminate].
  destruct (set_rx_buffer_size base self _); cbn [bind]; [|discriminate].
  trivial.
Qed.

(** The inherited calls come last: an error of lines 121-179 is the error
    of the constructor. *)
Lemma construct_raise (base : inherited)
  (rxadc txdac : option (list channel)) (cr ct : bool) (e : exn) :
  discover rxadc txdac cr ct = Raise e ->
  construct base rxadc txdac cr ct = Raise e.
Proof. unfold construct. now intros ->. Qed.

(** With base classes that accept every object the constructor is lines
    121-179 alone, so the objects those lines fill are the objects that
    some base classes let through. *)
Lemma construct_accepting (rxadc txdac : option (list channel))
  (cr ct : bool) :
  construct accepting rxadc txdac cr ct = discover rxadc txdac cr ct.
Proof.
  unfold construct. destruct (discover rxadc txdac cr ct); reflexivity.
Qed.

Lemma constructed_iff (rxadc txdac : option (list channel)) (cr ct : bool)
  (obj : ad9084) :
  discover rxadc txdac cr ct = Ok obj
  <-> exists base, construct base rxadc txdac cr ct = Ok obj.
Proof.
  split.
  - intros D. exists accepting. now rewrite construct_accepting.
  - intros [base C]. eapply construct_discover; eauto.
Qed.

(** What a successful construction stores. *)
Lemma discover_inv (rx tx : list channel) (cr ct : bool) (obj : ad9084) :
  discover (Some rx) (Some tx) cr ct = Ok obj ->
  _path_map obj = build_path_map rx
  /\ derive (build_path_map rx) no_reps
     = Ok {| rx_coarse := _rx_coarse_ddc_channel_names obj;
             rx_fine := _rx_fine_ddc_channel_names obj;
             tx_coarse := _tx_coarse_duc_channel_names obj;
             tx_fine := _tx_fine_duc_channel_names obj |}.
Proof.
  unfold discover. destruct (gather_tx tx) as [tx_names dds_names].
  destruct (_sortconv (gather_rx rx) _ _ _); cbn [bind]; [|discriminate].
  destruct (_sortconv tx_names _ _ _); cbn [bind]; [|discriminate].
  destruct (_sortconv dds_names _ _ _); cbn [bind]; [|discriminate].
  destruct (derive _ _) as [r|]; cbn [bind]; [|discriminate].
  intros [= <-]. cbn. split; [reflexivity|]. now destruct r.
Qed.

Lemma construct_inv (base : inherited) (rx tx : list channel) (cr ct : bool)
  (obj : ad9084) :
  construct base (Some rx) (Some tx) cr ct = Ok obj ->
  _path_map obj = build_path_map rx
  /\ derive (build_path_map rx) no_reps
     = Ok {| rx_coarse := _rx_coarse_ddc_channel_names obj;
             rx_fine := _rx_fine_ddc_channel_names obj;
             tx_coarse := _tx_coarse_duc_channel_names obj;
             tx_fine := _tx_fine_duc_channel_names obj |}.
Proof.
  intros C. apply construct_discover in C. eapply discover_inv; eauto.
Qed.

Lemma derive_group_filtered (converter : string) (at_cdc : fine_map)
  (r r' : reps) :
  filtered r -> derive_group converter at_cdc r = Ok r' -> filtered r'.
Proof.
  intros F. rewrite derive_group_add. unfold add_group. cbn [snd].
  assert (K : forall n, In n (filter i_half (flatten at_cdc)) ->
                        i_half n = true).
  { intros n I. apply filter_In in I. tauto. }
  destruct (filter i_half (flatten at_cdc)) as [|c chans];
    [discriminate|].
  cbn [index nth_error bind]. intros [= <-]. unfold filtered in *.
  assert (Kc : i_half c = true) by (apply K; now left).
  assert (F1 : forall n, In n (rx_coarse r) -> i_half n = true)
    by (intros; apply F; rewrite !in_app_iff; tauto).
  assert (F2 : forall n, In n (rx_fine r) -> i_half n = true)
    by (intros; apply F; rewrite !in_app_iff; tauto).
  assert (F3 : forall n, In n (tx_coarse r) -> i_half n = true)
    by (intros; apply F; rewrite !in_app_iff; tauto).
  assert (F4 : forall n, In n (tx_fine r) -> i_half n = true)
    by (intros; apply F; rewrite !in_app_iff; tauto).
  clear F.
  destruct (is_rx _); cbn [rx_coarse rx_fine tx_coarse tx_fine];
    intros n I; rewrite !in_app_iff in I; cbn [In] in I;
    intuition (subst; auto); apply K; now right.
Qed.

Lemma derive_filtered (paths : topology) (r r' : reps) :
  filtered r -> derive paths r = Ok r' -> filtered r'.
Proof.
  unfold derive. apply for_each_invariant. intros converter s s'.
  apply for_each_invariant. intros cdc t t'.
  apply derive_group_filtered.
Qed.


(** C2. For the topology map [{ADC0: {CDDC0: {FDDC0: [voltage0_i,
    voltage0_q]}}}] the derivation gives the receive coarse list
    [[voltage0_i]] and the receive fine list [[voltage0_i]], and a
    construction whose receive device yields that map stores these two
    lists; the same holds for any map of that shape: one converter named
    with [ADC], one coarse stage, one fine stage holding a name [i] that
    contains [voltage] and not [_q] and a name [q] that contains [_q];
    and a name without [voltage] put in front of the two is not taken
    for the representative.  In general, on a map with each key once,
    the loop of lines 167-179 computes what its description says: per
    (converter, coarse) pair the channel lists of the fine stages are
    flattened in iteration order, names with [_q] or without [voltage] are
    filtered out, the first survivor is appended to the coarse list and
    all survivors to the fine list of the pair's direction.  On every
    map, each name of the four lists contains [voltage] and does not
    contain [_q]. *)
Theorem C2_representative_derivation :
  derive example_map no_reps
    = Ok {| rx_coarse := ["voltage0_i"]; rx_fine := ["voltage0_i"];
            tx_coarse := []; tx_fine := [] |}
  /\ (forall base rx tx cr ct obj,
        build_path_map rx = example_map ->
        construct base (Some rx) (Some tx) cr ct = Ok obj ->
        _rx_coarse_ddc_channel_names obj = ["voltage0_i"]
        /\ _rx_fine_ddc_channel_names obj = ["voltage0_i"])
  /\ (forall converter cdc fdc i q,
        PyStr.str_in "ADC" converter = true ->
        PyStr.str_in "voltage" i = true -> PyStr.str_in "_q" i = false ->
        PyStr.str_in "_q" q = true ->
        derive [(converter, [(cdc, [(fdc, {| channels := [i; q] |})])])]
          no_reps
        = Ok {| rx_coarse := [i]; rx_fine := [i];
                tx_coarse := []; tx_fine := [] |})
  /\ (forall converter cdc fdc x i q,
        PyStr.str_in "ADC" converter = true ->
        PyStr.str_in "voltage" x = false ->
        PyStr.str_in "voltage" i = true -> PyStr.str_in "_q" i = false ->
        PyStr.str_in "_q" q = true ->
        derive [(converter, [(cdc, [(fdc, {| channels := [x; i; q] |})])])]
          no_reps
        = Ok {| rx_coarse := [i]; rx_fine := [i];
                tx_coarse := []; tx_fine := [] |})
  /\ (forall paths, wf_topology paths ->
        derive paths no_reps = representatives paths)
  /\ (forall paths r n,
        derive paths no_reps = Ok r ->
        In n (rx_coarse r ++ rx_fine r ++ tx_coarse r ++ tx_fine r) ->
        PyStr.str_in "voltage" n = true /\ PyStr.str_in "_q" n = false).
Proof.
  split; [reflexivity|]. split; [|split; [|split; [|split]]].
  - intros base rx tx cr ct obj M C. apply construct_inv in C.
    destruct C as [_ D]. rewrite M in D. injection D as <- <- _ _. auto.
  - intros converter cdc fdc i q A Vi Qi Qq.
    assert (Ki : i_half i = true) by (apply i_half_true; auto).
    assert (Kq : i_half q = false) by (apply i_half_false; auto).
    rewrite derive_representatives.
    + unfold representatives, groups, survivors, is_rx. cbn.
      rewrite Ki, Kq, A. reflexivity.
    + unfold wf_topology, wf_coarse, wf_fine. cbn.
      repeat constructor; cbn; tauto.
  - intros converter cdc fdc x i q A Vx Vi Qi Qq.
    assert (Kx : i_half x = false) by (apply i_half_false; auto).
    assert (Ki : i_half i = true) by (apply i_half_true; auto).
    assert (Kq : i_half q = false) by (apply i_half_false; auto).
    rewrite derive_representatives.
    + unfold representatives, groups, survivors, is_rx. cbn.
      rewrite Kx, Ki, Kq, A. reflexivity.
    + unfold wf_topology, wf_coarse, wf_fine. cbn.
      repeat constructor; cbn; tauto.
  - apply derive_representatives.
  - intros paths r n D I. apply i_half_true.
    refine (@derive_filtered paths no_reps r _ D n I).
    intros m [].
Qed.

Lemma C2_representative_derivation_witness :
  let ch (id : string) :=
    {| label := Some "FDDC0->CDDC0->ADC0"; _id := id;
       scan_element := true; output := false |} in
  let rx := [ch "voltage0_i"; ch "voltage0_q"] in
  build_path_map rx = example_map
  /\ discover (Some rx) (Some []) true true
     = Ok {| _rx_channel_names := ["voltage0_i"; "voltage0_q"];
             _tx_channel_names := [];
             _dds_channel_names := [];
             _rx_coarse_ddc_channel_names := ["voltage0_i"];
             _tx_coarse_duc_channel_names := [];
             _rx_fine_ddc_channel_names := ["voltage0_i"];
             _tx_fine_duc_channel_names := [];
             _path_map := example_map |}
  /\ PyStr.str_in "ADC" "ADC1" = true
  /\ PyStr.str_in "voltage" "timestamp" = false
  /\ PyStr.str_in "voltage" "voltage2_i" = true
  /\ PyStr.str_in "_q" "voltage2_i" = false
  /\ PyStr.str_in "_q" "voltage2_q" = true
  /\ derive
       [("ADC1",
         [("CDDC2",
           [("FDDC3",
             {| channels := ["timestamp"; "voltage2_i"; "voltage2_q"] |})])])]
       no_reps
     = Ok {| rx_coarse := ["voltage2_i"]; rx_fine := ["voltage2_i"];
             tx_coarse := []; tx_fine := [] |}
  /\ wf_topology example_map
  /\ derive example_map no_reps = representatives example_map.
Proof.
  intros ch rx.
  assert (W : wf_topology example_map).
  { unfold wf_topology, wf_coarse, wf_fine. cbn.
    repeat constructor; cbn; tauto. }
  split; [reflexivity|]. split; [reflexivity|].
  split; [reflexivity|]. split; [reflexivity|]. split; [reflexivity|].
  split; [reflexivity|]. split; [reflexivity|].
  split.
  - exact (proj1 (proj2 (proj2 (proj2 C2_representative_derivation)))
             "ADC1" "CDDC2" "FDDC3" "timestamp" "voltage2_i" "voltage2_q"
             eq_refl eq_refl eq_refl eq_refl eq_refl).
  - split; [exact W|].
    exact (proj1 (proj2 (proj2 (proj2 (proj2 C2_representative_derivation))))
             example_map W).
Defined.

(* ------------------------------------------------------------------ *)
(** ** A group without a representative *)

Lemma derive_group_raise (converter : string) (at_cdc : fine_map) (r : reps)
  (e : exn) :
  derive_group converter at_cdc r = Raise e -> e = IndexError.
Proof.
  unfold derive_group, index.
  destruct (PyStr.str_in "ADC" converter);
    destruct (nth_error _ 0); cbn; congruence.
Qed.

Lemma filter_none {A : Type} (f : A -> bool) (l : list A) :
  (forall a, In a l -> f a = false) -> filter f l = [].
Proof.
  induction l as [|a l IH]; intros H; cbn [filter]; [reflexivity|].
  rewrite (H a) by (now left). apply IH. intros b I. apply H. now right.
Qed.

Lemma derive_group_empty (converter : string) (at_cdc : fine_map) (r : reps) :
  (forall n, In n (flatten at_cdc) ->
             PyStr.str_in "voltage" n = false \/ PyStr.str_in "_q" n = true) ->
  derive_group converter at_cdc r = Raise IndexError.
Proof.
  intros E. rewrite derive_group_add. unfold add_group. cbn [snd].
  rewrite filter_none; [reflexivity|].
  intros n I. apply i_half_false. auto.
Qed.

Lemma derive_raise (paths : topology) (r : reps) (e : exn) :
  derive paths r = Raise e -> e = IndexError.
Proof.
  unfold derive. apply for_each_raise_only. intros converter s e'.
  apply for_each_raise_only. intros cdc s' e''. apply derive_group_raise.
Qed.

Lemma derive_empty_group (paths : topology) (converter cdc : string)
  (at_converter : coarse_map) (at_cdc : fine_map) (r : reps) :
  Dict.get converter paths = Some at_converter ->
  Dict.get cdc at_converter = Some at_cdc ->
  (forall n, In n (flatten at_cdc) ->
             PyStr.str_in "voltage" n = false \/ PyStr.str_in "_q" n = true) ->
  derive paths r = Raise IndexError.
Proof.
  intros G1 G2 E. unfold derive. plain_dicts.
  assert (I1 : Dict.item [] converter paths = at_converter)
    by (unfold Dict.item; now rewrite G1).
  assert (I2 : Dict.item [] cdc at_converter = at_cdc)
    by (unfold Dict.item; now rewrite G2).
  apply for_each_raises with (a := converter).
  - intros c s e. apply for_each_raise_only. intros c' s' e'.
    apply derive_group_raise.
  - eapply get_keys; eauto.
  - intros s. rewrite I1.
    apply for_each_raises with (a := cdc).
    + intros c' s' e'. apply derive_group_raise.
    + eapply get_keys; eauto.
    + intros s'. rewrite I2. now apply derive_group_empty.
Qed.

(** Lines 121-179 with the derivation raising: the three sorts run first,
    and the first error among theirs and the derivation's is raised. *)
Lemma discover_derive_raises (rx txs : list channel) (cr ct : bool) (e : exn) :
  derive (build_path_map rx) no_reps = Raise e ->
  discover (Some rx) (Some txs) cr ct
  = (rx_names <- _sortconv (gather_rx rx) false false cr ;;
     tx_names <- _sortconv (fst (gather_tx txs)) false false ct ;;
     dds_names <- _sortconv (snd (gather_tx txs)) false true false ;;
     Raise e).
Proof.
  intros D. unfold discover. destruct (gather_tx txs) as [t d].
  cbn [fst snd]. rewrite D.
  destruct (_sortconv (gather_rx rx) _ _ _); cbn [bind]; [|reflexivity].
  destruct (_sortconv t _ _ _); cbn [bind]; [|reflexivity].
  destruct (_sortconv d _ _ _); cbn [bind]; reflexivity.
Qed.

(** C10, as the code has it.  If the topology map has a (converter,
    coarse) pair whose flattened channel list has no name that contains
    [voltage] and lacks [_q], the derivation raises the index error of
    [chans[0]] from every state: the pair is not skipped.  A construction
    whose receive device yields such a map never returns an object.  It
    raises what the three sorts of lines 153-160 followed by that index
    error raise: the index error when the three raw lists sort, and
    otherwise the error of the first sort that fails, which comes
    first. *)
Theorem C10_group_without_representative (paths : topology)
  (converter cdc : string) (at_converter : coarse_map) (at_cdc : fine_map) :
  Dict.get converter paths = Some at_converter ->
  Dict.get cdc at_converter = Some at_cdc ->
  (forall n, In n (flatten at_cdc) ->
             PyStr.str_in "voltage" n = false \/ PyStr.str_in "_q" n = true) ->
  (forall r, derive paths r = Raise IndexError)
  /\ (forall base rx tx cr ct,
        build_path_map rx = paths ->
        (forall obj, construct base (Some rx) tx cr ct <> Ok obj)
        /\ (forall txs,
              tx = Some txs ->
              construct base (Some rx) tx cr ct
              = (rx_names <- _sortconv (gather_rx rx) false false cr ;;
                 tx_names <- _sortconv (fst (gather_tx txs)) false false ct ;;
                 dds_names <-
                   _sortconv (snd (gather_tx txs)) false true false ;;
                 Raise IndexError))
        /\ (forall txs rx_names tx_names dds_names,
              tx = Some txs ->
              _sortconv (gather_rx rx) false false cr = Ok rx_names ->
              _sortconv (fst (gather_tx txs)) false false ct = Ok tx_names ->
              _sortconv (snd (gather_tx txs)) false true false = Ok dds_names ->
              construct base (Some rx) tx cr ct = Raise IndexError)).
Proof.
  intros G1 G2 E.
  assert (D : forall r, derive paths r = Raise IndexError).
  { intros r. eapply derive_empty_group; eauto. }
  split; [exact D|].
  intros base rx tx cr ct M.
  assert (R : forall txs,
             construct base (Some rx) (Some txs) cr ct
             = (rx_names <- _sortconv (gather_rx rx) false false cr ;;
                tx_names <- _sortconv (fst (gather_tx txs)) false false ct ;;
                dds_names <-
                  _sortconv (snd (gather_tx txs)) false true false ;;
                Raise IndexError)).
  { intros txs. unfold construct.
    rewrite (@discover_derive_raises rx txs cr ct IndexError)
      by (rewrite M; apply D).
    destruct (_sortconv (gather_rx rx) _ _ _); cbn [bind]; [|reflexivity].
    destruct (_sortconv (fst (gather_tx txs)) _ _ _); cbn [bind];
      [|reflexivity].
    destruct (_sortconv (snd (gather_tx txs)) _ _ _); cbn [bind];
      reflexivity. }
  split; [|split].
  - intros obj C. destruct tx as [txs|]; [|discriminate C].
    apply construct_inv in C. destruct C as [_ C].
    rewrite M, D in C. discriminate C.
  - intros txs ->. apply R.
  - intros txs rx_names tx_names dds_names -> S1 S2 S3.
    rewrite R, S1, S2, S3. reflexivity.
Qed.

Lemma C10_group_without_representative_witness :
  let at_cdc : fine_map :=
    [("FDDC0", {| channels := ["timestamp"; "voltage0_q"] |})] in
  let at_converter : coarse_map := [("CDDC0", at_cdc)] in
  let paths : topology := [("ADC0", at_converter)] in
  Dict.get "ADC0" paths = Some at_converter
  /\ Dict.get "CDDC0" at_converter = Some at_cdc
  /\ flatten at_cdc = ["timestamp"; "voltage0_q"]
  /\ PyStr.str_in "voltage" "timestamp" = false
  /\ PyStr.str_in "_q" "voltage0_q" = true
  /\ derive paths no_reps = Raise IndexError.
Proof.
  intros at_cdc at_converter paths.
  split; [reflexivity|]. split; [reflexivity|]. split; [reflexivity|].
  split; [reflexivity|]. split; [reflexivity|].
  refine (proj1 (@C10_group_without_representative paths "ADC0" "CDDC0"
                   at_converter at_cdc eq_refl eq_refl _) no_reps).
  intros n [<-|[<-|[]]]; [left|right]; reflexivity.
Defined.

(** C10 as stated fails: the index error of [chans[0]] is raised only if
    the lines before it raise nothing.  Here the receive device yields a
    map whose only group holds a [_q] name, and the construction raises
    the [ValueError] of a sort instead: of the DDS sort of line 160 for a
    transmit channel [voltage0] outside the scan, and of the receive sort
    of line 154 when the receive names are sorted as real. *)
Lemma C10_counterexample :
  let rx := [{| label := Some "FDDC0->CDDC0->ADC0"; _id := "voltage0_q";
                scan_element := true; output := false |}] in
  let tx := [{| label := None; _id := "voltage0";
                scan_element := false; output := true |}] in
  let at_cdc : fine_map := [("FDDC0", {| channels := ["voltage0_q"] |})] in
  build_path_map rx = [("ADC0", [("CDDC0", at_cdc)])]
  /\ flatten at_cdc = ["voltage0_q"]
  /\ PyStr.str_in "_q" "voltage0_q" = true
  /\ (forall base,
        construct base (Some rx) (Some tx) true true = Raise ValueError)
  /\ (forall base,
        construct base (Some rx) (Some []) false false = Raise ValueError).
Proof.
  intros rx tx at_cdc.
  split; [reflexivity|]. split; [reflexivity|]. split; [reflexivity|].
  split; intros base; apply construct_raise; reflexivity.
Qed.

(* ------------------------------------------------------------------ *)
(** ** An empty topology map, and accessors on an empty list *)

(** C8, as the code has it.  The representative lists come from the
    topology map, not from the raw data-channel list: when the topology
    map is empty the derivation cannot fail and all four lists are empty.
    Lines 121-179 then raise nothing as soon as the three raw lists sort,
    in particular for devices without channels, and hand the object with
    its empty representative lists to the inherited initialisers of lines
    181-183, which decide whether the construction returns; an object
    that is returned has the four lists empty.  Each of the four
    single-element accessors, given an empty list, raises the index error
    of [channel_name[0]] without reaching the attribute primitive. *)
Theorem C8_empty_topology :
  (forall r, derive [] r = Ok r)
  /\ (forall rx tx cr ct rx_names tx_names dds_names,
        build_path_map rx = [] ->
        _sortconv (gather_rx rx) false false cr = Ok rx_names ->
        _sortconv (fst (gather_tx tx)) false false ct = Ok tx_names ->
        _sortconv (snd (gather_tx tx)) false true false = Ok dds_names ->
        let self :=
          {| _rx_channel_names := rx_names;
             _tx_channel_names := tx_names;
             _dds_channel_names := dds_names;
             _rx_coarse_ddc_channel_names := [];
             _tx_coarse_duc_channel_names := [];
             _rx_fine_ddc_channel_names := [];
             _tx_fine_duc_channel_names := [];
             _path_map := [] |} in
        discover (Some rx) (Some tx) cr ct = Ok self
        /\ forall base,
             construct base (Some rx) (Some tx) cr ct
             = (u <- rx_tx_init base self ;;
                u <- sync_start_init base self ;;
                u <- set_rx_buffer_size base self (2 ^ 16) ;;
                Ok self))
  /\ (forall base rx tx cr ct obj,
        build_path_map rx = [] ->
        construct base (Some rx) (Some tx) cr ct = Ok obj ->
        _rx_coarse_ddc_channel_names obj = []
        /\ _rx_fine_ddc_channel_names obj = []
        /\ _tx_coarse_duc_channel_names obj = []
        /\ _tx_fine_duc_channel_names obj = []
        /\ _path_map obj = [])
  /\ (forall cr ct,
        discover (Some []) (Some []) cr ct
        = Ok {| _rx_channel_names := [];
                _tx_channel_names := [];
                _dds_channel_names := [];
                _rx_coarse_ddc_channel_names := [];
                _tx_coarse_duc_channel_names := [];
                _rx_fine_ddc_channel_names := [];
                _tx_fine_duc_channel_names := [];
                _path_map := [] |})
  /\ (forall (T U Ctrl : Type)
        (get_str : string -> string -> bool -> result T)
        (get : string -> string -> bool -> option Ctrl -> result T)
        (set : string -> string -> bool -> U -> option Ctrl -> result unit)
        (attr : string) (output : bool) (value : U) (ctrl : option Ctrl),
        _get_iio_attr_str_single get_str (Names []) attr output
          = Raise IndexError
        /\ _set_iio_attr_str_single set (Names []) attr output value
          = Raise IndexError
        /\ _get_iio_attr_single get (Names []) attr output ctrl
          = Raise IndexError
        /\ _set_iio_attr_single set (Names []) attr output value ctrl
          = Raise IndexError).
Proof.
  split; [reflexivity|]. split; [|split; [|split]].
  - intros rx tx cr ct rx_names tx_names dds_names M S1 S2 S3 self.
    assert (D : discover (Some rx) (Some tx) cr ct = Ok self).
    { unfold discover. destruct (gather_tx tx) as [t d]. cbn [fst snd] in *.
      rewrite S1, S2, S3, M. reflexivity. }
    split; [exact D|]. intros base. unfold construct. now rewrite D.
  - intros base rx tx cr ct obj M C. apply construct_inv in C.
    destruct C as [P D]. rewrite M in D, P. cbn in D.
    injection D as <- <- <- <-. auto.
  - intros [|] [|]; reflexivity.
  - intros. repeat split; reflexivity.
Qed.

Lemma C8_empty_topology_witness :
  let rx := [{| label := Some "buffer_only"; _id := "voltage0";
                scan_element := true; output := false |};
             {| label := Some "buffer_only"; _id := "voltage1";
                scan_element := true; output := false |}] in
  build_path_map rx = []
  /\ _sortconv (gather_rx rx) false false false = Ok ["voltage0"; "voltage1"]
  /\ _sortconv (fst (gather_tx [])) false false false = Ok []
  /\ _sortconv (snd (gather_tx [])) false true false = Ok []
  /\ discover (Some rx) (Some []) false false
     = Ok {| _rx_channel_names := ["voltage0"; "voltage1"];
             _tx_channel_names := [];
             _dds_channel_names := [];
             _rx_coarse_ddc_channel_names := [];
             _tx_coarse_duc_channel_names := [];
             _rx_fine_ddc_channel_names := [];
             _tx_fine_duc_channel_names := [];
             _path_map := [] |}.
Proof.
  intros rx.
  split; [reflexivity|]. split; [reflexivity|].
  split; [reflexivity|]. split; [reflexivity|].
  exact (proj1 (proj1 (proj2 C8_empty_topology) rx [] false false
                  ["voltage0"; "voltage1"] [] []
                  eq_refl eq_refl eq_refl eq_refl)).
Defined.

(** C8 as stated fails: the raw data-channel lists can be empty while the
    topology map, and with it a representative list, is not.  Here the
    receive device has one labelled output channel, which is not gathered
    into the raw receive list but is parsed into the map: the object that
    lines 121-179 fill has a transmit representative, so that no
    construction, whatever the inherited initialisers do, returns an
    object with empty representative lists. *)
Lemma C8_counterexample :
  let rx := [{| label := Some "FDUC0->CDUC0->DAC0"; _id := "voltage0_i";
                scan_element := false; output := true |}] in
  gather_rx rx = []
  /\ gather_tx [] = ([], [])
  /\ discover (Some rx) (Some []) true true
     = Ok {| _rx_channel_names := [];
             _tx_channel_names := [];
             _dds_channel_names := [];
             _rx_coarse_ddc_channel_names := [];
             _tx_coarse_duc_channel_names := ["voltage0_i"];
             _rx_fine_ddc_channel_names := [];
             _tx_fine_duc_channel_names := ["voltage0_i"];
             _path_map := build_path_map rx |}
  /\ forall base,
       ~ exists obj,
           construct base (Some rx) (Some []) true true = Ok obj
           /\ _tx_coarse_duc_channel_names obj = []
           /\ _tx_fine_duc_channel_names obj = [].
Proof.
  intros rx. split; [reflexivity|]. split; [reflexivity|].
  split; [reflexivity|].
  intros base [obj [C [E _]]]. apply construct_discover in C.
  injection C as <-. discriminate E.
Qed.

(* ------------------------------------------------------------------ *)
(** ** The parser and the store *)

Module StoreFacts.
Import Store.

Lemma length_write (h : store) (p : loc) (m : topology) :
  List.length (write h p m) = List.length h.
Proof.
  revert p. induction h as [|x h IH]; intros [|p]; cbn; auto.
Qed.

Lemma read_write_same (h : store) (p : loc) (m : topology) :
  p < List.length h -> read (write h p m) p = Some m.
Proof.
  unfold read. revert p. induction h as [|x h IH]; intros [|p]; cbn;
    intros L; try lia; auto. apply IH. lia.
Qed.

Lemma read_write_other (h : store) (p q : loc) (m : topology) :
  q <> p -> read (write h p m) q = read h q.
Proof.
  unfold read. revert p q. induction h as [|x h IH]; intros [|p] [|q] N;
    cbn; auto; try contradiction.
Qed.

Lemma read_bound (h : store) (p : loc) (m : topology) :
  read h p = Some m -> p < List.length h.
Proof. intros H. apply nth_error_Some. unfold read in H. congruence. Qed.

(** [_map_to_dict] hands back the object it was given, updated. *)
Lemma map_to_dict_in_place (h : store) (p : loc) (m : topology) (ch : channel) :
  read h p = Some m ->
  snd (map_to_dict h p ch) = p
  /\ read (fst (map_to_dict h p ch)) p = Some (_map_to_dict m ch)
  /\ (forall q, q <> p -> read (fst (map_to_dict h p ch)) q = read h q)
  /\ List.length (fst (map_to_dict h p ch)) = List.length h.
Proof.
  intros R. unfold map_to_dict. rewrite R. cbn [fst snd].
  repeat split.
  - apply read_write_same. eapply read_bound; eauto.
  - intros q N. now apply read_write_other.
  - apply length_write.
Qed.

(** The loop of lines 138-140 works on the one object at [p]. *)
Lemma loop_in_place (chs : list channel) (h : store) (p : loc) (m : topology) :
  read h p = Some m ->
  snd (fold_left round chs (h, p)) = p
  /\ read (fst (fold_left round chs (h, p))) p
     = Some (fold_left parse_step chs m)
  /\ (forall q, q <> p ->
        read (fst (fold_left round chs (h, p))) q = read h q)
  /\ List.length (fst (fold_left round chs (h, p))) = List.length h.
Proof.
  revert h m. induction chs as [|ch chs IH]; intros h m R; cbn [fold_left].
  - cbn. auto.
  - unfold round at 2 4 6 8, parse_step at 2.
    destruct (label ch) as [lab|].
    + destruct (@map_to_dict_in_place h p m ch R) as [P [R' [O L]]].
      destruct (map_to_dict h p ch) as [h1 p1]. cbn [fst snd] in *. subst p1.
      destruct (IH h1 _ R') as [P2 [R2 [O2 L2]]].
      split; [exact P2|]. split; [exact R2|]. split.
      * intros q N. rewrite O2 by exact N. now apply O.
      * congruence.
    + now apply IH.
Qed.

End StoreFacts.

(** C4. The topology parser, run on any store of dictionary objects and
    any channel sequence, returns a location that was not in use before
    (a fresh map), leaves every object that was in the store as it was
    (so it changes no map returned by an earlier call, and nothing else),
    allocates that one map only, and fills it with a value that depends on
    the channel sequence alone. *)
Theorem C4_parser_is_pure (h : Store.store) (chs : list channel) :
  let r := Store.parse h chs in
  Store.read h (snd r) = None
  /\ Store.read (fst r) (snd r) = Some (build_path_map chs)
  /\ (forall q, q <> snd r -> Store.read (fst r) q = Store.read h q)
  /\ List.length (fst r) = S (List.length h)
  /\ (forall chs',
        let r' := Store.parse (fst r) chs' in
        snd r' <> snd r
        /\ Store.read (fst r') (snd r) = Some (build_path_map chs)
        /\ Store.read (fst r') (snd r') = Some (build_path_map chs')).
Proof.
  assert (A : forall (h0 : Store.store) (l : list channel),
    let r := Store.parse h0 l in
    snd r = List.length h0
    /\ Store.read (fst r) (snd r) = Some (build_path_map l)
    /\ (forall q, q <> snd r -> Store.read (fst r) q = Store.read h0 q)
    /\ List.length (fst r) = S (List.length h0)).
  { intros h0 l. unfold Store.parse, Store.alloc.
    assert (R : Store.read (h0 ++ [[]]) (List.length h0) = Some []).
    { unfold Store.read. rewrite nth_error_app2 by lia.
      now rewrite Nat.sub_diag. }
    pose proof (@StoreFacts.loop_in_place l _ _ _ R) as X.
    cbv zeta. unfold build_path_map.
    set (r0 := fold_left Store.round l _) in *.
    destruct X as [P [R' [O L]]].
    rewrite P. split; [reflexivity|]. split; [exact R'|]. split.
    - intros q N. rewrite O by exact N. unfold Store.read.
      destruct (Nat.lt_ge_cases q (List.length h0)) as [Lt|Ge].
      + now rewrite nth_error_app1.
      + rewrite nth_error_app2 by exact Ge.
        assert (Hn : nth_error h0 q = None) by (now apply nth_error_None).
        rewrite Hn. destruct (q - List.length h0) as [|[|k]] eqn:D;
          cbn; try reflexivity. lia.
    - rewrite L, length_app. cbn. lia. }
  intros r. destruct (A h chs) as [P [R [O L]]]. fold r in P, R, O, L.
  split; [|split; [|split; [|split]]]; auto.
  - rewrite P. unfold Store.read. now apply nth_error_None.
  - intros chs' r'. destruct (A (fst r) chs') as [P' [R' [O' L']]].
    fold r' in P', R', O', L'.
    assert (N : snd r <> snd r') by lia.
    split; [auto|]. split; [|exact R']. rewrite O' by exact N. exact R.
Qed.

(* ------------------------------------------------------------------ *)
(** ** Worked examples *)

Example split_plain :
  PyStr.split "FDDC0->CDDC0->ADC0" "->" = ["FDDC0"; "CDDC0"; "ADC0"].
Proof. reflexivity. Qed.

Example split_dashes :
  PyStr.split "a-->>b->" "->" = ["a-"; ">b"; ""].
Proof. reflexivity. Qed.

Example replace_side :
  PyStr.replace "a:FDDC0->CDDC0->ADC0" ":" "->" = "a->FDDC0->CDDC0->ADC0".
Proof. reflexivity. Qed.

Example int_forms :
  PyStr.int " +1_000 " = Some 1000%Z
  /\ PyStr.int "-7" = Some (-7)%Z
  /\ PyStr.int "1__0" = None
  /\ PyStr.int "" = None
  /\ PyStr.int "0_q" = None.
Proof. repeat split; reflexivity. Qed.

(** White space around a literal: the next-line control (133) and the
    no-break space (160) are skipped like a blank, the separator controls
    (28 to 31) are not. *)
Example int_white_space :
  PyStr.int (String (ascii_of_nat 133) "5") = Some 5%Z
  /\ PyStr.int ("5" ++ String (ascii_of_nat 160) "") = Some 5%Z
  /\ PyStr.int (String (ascii_of_nat 28) "5") = None
  /\ ignorevoltage ("voltage" ++ String (ascii_of_nat 133) "5") = Some 5%Z.
Proof. repeat split; reflexivity. Qed.

Example key_without_underscore : ignoreadc "voltage12" = Some 1%Z.
Proof. reflexivity. Qed.

Example sortconv_real :
  _sortconv ["voltage2"; "voltage0"; "voltage1"] false false false
  = Ok ["voltage0"; "voltage1"; "voltage2"].
Proof. reflexivity. Qed.

Example sortconv_dds :
  _sortconv ["altvoltage2"; "altvoltage10"; "altvoltage1"] false true false
  = Ok ["altvoltage1"; "altvoltage2"; "altvoltage10"].
Proof. reflexivity. Qed.

Example sortconv_stable :
  _sortconv ["voltage01"; "voltage1"; "voltage0"] false false false
  = Ok ["voltage0"; "voltage01"; "voltage1"].
Proof. reflexivity. Qed.

Example sortconv_drops :
  _sortconv ["timestamp"; "voltage0_q"; "voltage1_q"; "voltage0_i"]
    false false true
  = Ok ["voltage0_i"; "voltage0_q"].
Proof. reflexivity. Qed.

Example parser_two_levels :
  let ch (lab id : string) :=
    {| label := Some lab; _id := id; scan_element := true; output := false |} in
  build_path_map
    [ch "FDDC1->CDDC0->ADC0" "voltage1_i"; ch "FDDC0->CDDC0->ADC0" "voltage0_i";
     ch "buffer_only" "voltage9"; ch "a:FDDC1->CDDC0->ADC0" "voltage1_q"]
  = [("ADC0",
      [("CDDC0",
        [("FDDC1", {| channels := ["voltage1_i"; "voltage1_q"] |});
         ("FDDC0", {| channels := ["voltage0_i"] |})])])].
Proof. reflexivity. Qed.

(* ================================================================== *)
(** * Further properties *)

(* ------------------------------------------------------------------ *)
(** ** The parser: what the map holds, and in which order *)

Lemma map_to_dict_target (paths : topology) (ch : channel) :
  _map_to_dict paths ch
  = match target ch with
    | Some (adc, cddc, fddc) => place paths adc cddc fddc (_id ch)
    | None => paths
    end.
Proof.
  unfold _map_to_dict, target, segments.
  destruct (label ch) as [lab|]; [|reflexivity].
  destruct (String.eqb lab "buffer_only"); [reflexivity|].
  cbv zeta.
  destruct (PyStr.split _ _) as [|p1 [|p2 [|p3 [|p4 [|p5 r]]]]]; reflexivity.
Qed.

Lemma parse_step_target (paths : topology) (ch : channel) :
  parse_step paths ch
  = match target ch with
    | Some (adc, cddc, fddc) => place paths adc cddc fddc (_id ch)
    | None => paths
    end.
Proof.
  unfold parse_step. destruct (label ch) eqn:L.
  - apply map_to_dict_target.
  - unfold target. now rewrite L.
Qed.

Lemma parsed_target (ch : channel) :
  parsed ch = match target ch with Some _ => true | None => false end.
Proof.
  unfold parsed, target. destruct (label ch) as [lab|]; [|reflexivity].
  destruct (String.eqb lab "buffer_only"); [reflexivity|]. cbn [negb andb].
  destruct (segments lab) as [|p1 [|p2 [|p3 [|p4 [|p5 r]]]]]; reflexivity.
Qed.

Lemma existing_place (paths : topology) (adc cddc fddc id A C F : string) :
  existing (place paths adc cddc fddc id) A C F
  = existing paths A C F
    ++ (if String.eqb adc A && String.eqb cddc C && String.eqb fddc F
        then [id] else []).
Proof.
  destruct (String.eqb adc A && String.eqb cddc C && String.eqb fddc F)
    eqn:E.
  - apply andb_true_iff in E. destruct E as [E E3].
    apply andb_true_iff in E. destruct E as [E1 E2].
    apply String.eqb_eq in E1, E2, E3. subst.
    unfold existing at 1. now rewrite channels_at_place_same.
  - rewrite app_nil_r. apply channels_at_place_other.
    now rewrite (String.eqb_sym A), (String.eqb_sym C), (String.eqb_sym F).
Qed.

Lemma existing_fold (chs : list channel) (paths : topology) (A C F : string) :
  existing (fold_left parse_step chs paths) A C F
  = existing paths A C F ++ map _id (filter (hits A C F) chs).
Proof.
  revert paths. induction chs as [|ch chs IH]; intros paths; cbn [fold_left].
  - cbn. now rewrite app_nil_r.
  - rewrite IH, parse_step_target. cbn [filter]. unfold hits at 2.
    destruct (target ch) as [[[a c] f]|]; [|reflexivity].
    rewrite existing_place.
    destruct (String.eqb a A && String.eqb c C && String.eqb f F); cbn.
    + now rewrite <- app_assoc.
    + now rewrite app_nil_r.
Qed.

(** X1. The list at [paths[A][C][F]] of the topology map holds exactly
    the identifiers of the channels whose label is that path, in the order
    of the channel sequence (duplicates included); it is absent or empty
    when no channel has that path. *)
Theorem leaf_in_encounter_order (chs : list channel) (A C F : string) :
  existing (build_path_map chs) A C F = map _id (filter (hits A C F) chs).
Proof. unfold build_path_map. now rewrite existing_fold. Qed.

(* ------------------------------------------------------------------ *)
(** ** Nothing is lost and nothing is invented *)

Section PermIds.
Variable V : Type.
Variable g : V -> list string.

Lemma values_set_new (k : string) (v : V) (d : Dict.dict V) :
  Dict.mem k d = false -> Dict.values (Dict.set k v d) = Dict.values d ++ [v].
Proof.
  unfold Dict.mem, Dict.values. induction d as [|[k' v'] d IH]; cbn.
  - reflexivity.
  - destruct (String.eqb k k'); [discriminate|]. intros H. cbn.
    now rewrite IH.
Qed.

Lemma ids_ensure_eq (k : string) (v0 : V) (d : Dict.dict V) :
  g v0 = [] ->
  flat_map g (Dict.values (Dict.ensure k v0 d)) = flat_map g (Dict.values d).
Proof.
  intros G. unfold Dict.ensure. destruct (Dict.mem k d) eqn:M; [reflexivity|].
  rewrite (values_set_new _ _ _ M), flat_map_app. cbn.
  now rewrite G, !app_nil_r.
Qed.

Lemma perm_ids_set (dflt : V) (k : string) (v : V) (d : Dict.dict V)
  (extra : list string) :
  g dflt = [] ->
  Permutation (g v) (g (Dict.item dflt k d) ++ extra) ->
  Permutation (flat_map g (Dict.values (Dict.set k v d)))
    (flat_map g (Dict.values d) ++ extra).
Proof.
  intros G. unfold Dict.item, Dict.values.
  induction d as [|[k' v'] d IH]; cbn; intros P.
  - rewrite G in P. now rewrite app_nil_r.
  - destruct (String.eqb k k'); cbn.
    + rewrite P. rewrite <- !app_assoc. apply Permutation_app_head.
      apply Permutation_app_comm.
    + rewrite <- app_assoc. apply Permutation_app_head. now apply IH.
Qed.

End PermIds.

Lemma leaf_ids_place_perm (paths : topology) (adc cddc fddc id : string) :
  Permutation (leaf_ids (place paths adc cddc fddc id))
    (leaf_ids paths ++ [id]).
Proof.
  unfold place, leaf_ids. cbv zeta.
  set (p1 := Dict.ensure adc [] paths).
  set (a0 := Dict.item [] adc p1).
  set (a1 := Dict.ensure cddc [] a0).
  set (c1 := Dict.item [] cddc a1).
  set (X := if Dict.mem fddc c1 then _ else _).
  assert (HX : Permutation (fine_ids X) (fine_ids c1 ++ [id])).
  { unfold X, fine_ids.
    destruct (Dict.mem fddc c1) eqn:M.
    - apply (@perm_ids_set _ (@channels) no_leaf); reflexivity.
    - apply (@perm_ids_set _ (@channels) no_leaf); [reflexivity|].
      unfold Dict.mem in M. unfold Dict.item.
      destruct (Dict.get fddc c1); [discriminate|]. reflexivity. }
  assert (HA : Permutation (coarse_ids (Dict.set cddc X a1))
                 (coarse_ids a0 ++ [id])).
  { unfold coarse_ids.
    rewrite <- (@ids_ensure_eq _ fine_ids cddc [] a0 eq_refl). fold a1.
    apply (@perm_ids_set _ fine_ids []); [reflexivity|exact HX]. }
  rewrite <- (@ids_ensure_eq _ coarse_ids adc [] paths eq_refl). fold p1.
  apply (@perm_ids_set _ coarse_ids []); [reflexivity|exact HA].
Qed.

Lemma leaf_ids_fold_perm (chs : list channel) (paths : topology) :
  Permutation (leaf_ids (fold_left parse_step chs paths))
    (leaf_ids paths ++ map _id (filter parsed chs)).
Proof.
  revert paths. induction chs as [|ch chs IH]; intros paths; cbn [fold_left].
  - cbn. now rewrite app_nil_r.
  - rewrite IH, parse_step_target. cbn [filter]. rewrite parsed_target.
    destruct (target ch) as [[[a c] f]|]; [|reflexivity].
    rewrite leaf_ids_place_perm. cbn. now rewrite <- app_assoc.
Qed.

(** X2. The identifiers held by the leaves of the topology map are, as a
    multiset, the identifiers of the channels whose label was taken as a
    path: each such channel contributes one entry, and nothing else is in
    the map. *)
Theorem leaves_hold_parsed_channels (chs : list channel) :
  Permutation (leaf_ids (build_path_map chs)) (map _id (filter parsed chs))
  /\ List.length (leaf_ids (build_path_map chs))
     = List.length (filter parsed chs).
Proof.
  assert (P : Permutation (leaf_ids (build_path_map chs))
                (map _id (filter parsed chs))).
  { unfold build_path_map. now rewrite leaf_ids_fold_perm. }
  split; [exact P|]. rewrite (Permutation_length P). apply length_map.
Qed.

(* ------------------------------------------------------------------ *)
(** ** The order of the converters *)

Lemma mem_keys {V : Type} (k : string) (d : Dict.dict V) :
  Dict.mem k d = existsb (String.eqb k) (Dict.keys d).
Proof.
  unfold Dict.mem, Dict.keys. induction d as [|[k' v'] d IH]; cbn.
  - reflexivity.
  - destruct (String.eqb k k'); [reflexivity|exact IH].
Qed.

Lemma keys_ensure {V : Type} (k : string) (v0 : V) (d : Dict.dict V) :
  Dict.keys (Dict.ensure k v0 d) = add_new (Dict.keys d) k.
Proof.
  unfold Dict.ensure, add_new. rewrite <- mem_keys.
  destruct (Dict.mem k d) eqn:M; [reflexivity|].
  rewrite keys_set. now rewrite M.
Qed.

Lemma keys_place (paths : topology) (adc cddc fddc id : string) :
  Dict.keys (place paths adc cddc fddc id) = add_new (Dict.keys paths) adc.
Proof.
  unfold place. cbv zeta. plain_dicts.
  rewrite keys_set.
  assert (M : Dict.mem adc (Dict.ensure adc [] paths) = true).
  { unfold Dict.mem. now rewrite DictFacts.get_ensure. }
  rewrite M. apply keys_ensure.
Qed.

Lemma keys_fold (chs : list channel) (paths : topology) :
  Dict.keys (fold_left parse_step chs paths)
  = fold_left add_new (converters chs) (Dict.keys paths).
Proof.
  revert paths. induction chs as [|ch chs IH]; intros paths; cbn [fold_left].
  - reflexivity.
  - rewrite IH, parse_step_target. unfold converters. cbn [flat_map].
    rewrite fold_left_app.
    destruct (target ch) as [[[a c] f]|]; [|reflexivity].
    now rewrite keys_place.
Qed.

(** X3. The converters of the topology map are iterated in the order in
    which they first appear among the parsed labels of the channel
    sequence, each once. *)
Theorem converters_in_first_seen_order (chs : list channel) :
  Dict.keys (build_path_map chs) = first_seen (converters chs).
Proof. unfold build_path_map, first_seen. now rewrite keys_fold. Qed.

(* ------------------------------------------------------------------ *)
(** ** Colons and arrows are the same separator *)

Lemma prefix_colon (c : ascii) (s : string) :
  prefix ":" (String c s) = Ascii.eqb ":" c.
Proof.
  cbn [prefix]. destruct (ascii_dec ":" c) as [<-|N].
  - now rewrite PyStrFacts.prefix_empty.
  - symmetry. now apply Ascii.eqb_neq.
Qed.

Lemma replace_colon_cons (c : ascii) (s : string) :
  PyStr.replace (String c s) ":" "->"
  = if Ascii.eqb ":" c
    then String "-" (String ">" (PyStr.replace s ":" "->"))
    else String c (PyStr.replace s ":" "->").
Proof.
  unfold PyStr.replace. cbn [PyStr.replace_go]. rewrite prefix_colon.
  destruct (Ascii.eqb ":" c); reflexivity.
Qed.

Lemma replace_has_no_colon (s : string) :
  PyStr.str_in ":" (PyStr.replace s ":" "->") = false.
Proof.
  induction s as [|c s IH]; [reflexivity|].
  rewrite replace_colon_cons. destruct (Ascii.eqb ":" c) eqn:E.
  - cbn [PyStr.str_in]. rewrite !prefix_colon, IH. reflexivity.
  - cbn [PyStr.str_in]. rewrite prefix_colon, E, IH. reflexivity.
Qed.

Lemma replace_colon_idempotent (s : string) :
  PyStr.replace (PyStr.replace s ":" "->") ":" "->"
  = PyStr.replace s ":" "->".
Proof. apply PyStrFacts.replace_colon_id, replace_has_no_colon. Qed.

Lemma replace_with_colon_has_gt (s : string) :
  PyStr.str_in ":" s = true ->
  PyStr.str_in ">" (PyStr.replace s ":" "->") = true.
Proof.
  induction s as [|c s IH]; [discriminate|].
  rewrite replace_colon_cons. cbn [PyStr.str_in]. rewrite prefix_colon.
  destruct (Ascii.eqb ":" c); cbn [orb].
  - intros _. cbn. rewrite PyStrFacts.prefix_empty. reflexivity.
  - intros H. cbn [PyStr.str_in]. rewrite (IH H). apply orb_true_r.
Qed.

Lemma replace_sentinel (lab : string) :
  String.eqb (PyStr.replace lab ":" "->") "buffer_only"
  = String.eqb lab "buffer_only".
Proof.
  destruct (PyStr.str_in ":" lab) eqn:H.
  - destruct (String.eqb_spec (PyStr.replace lab ":" "->") "buffer_only")
      as [E|_].
    + apply replace_with_colon_has_gt in H. rewrite E in H. discriminate H.
    + destruct (String.eqb_spec lab "buffer_only") as [E|_]; [|reflexivity].
      rewrite E in H. discriminate H.
  - now rewrite PyStrFacts.replace_colon_id.
Qed.

(** X4. A label and its form with every colon written as an arrow are
    parsed alike: [_map_to_dict] returns the same map for both.  So a
    label whose separator-free segments are joined by colons only,
    [F:C:A], is the path to [paths[A][C][F]] like [F->C->A]. *)
Theorem colon_is_arrow (paths : topology) (lab id : string) (se out : bool)
  (F C A : string) :
  _map_to_dict paths
    {| label := Some lab; _id := id; scan_element := se; output := out |}
  = _map_to_dict paths
      {| label := Some (PyStr.replace lab ":" "->"); _id := id;
         scan_element := se; output := out |}
  /\ (is_segment F = true -> is_segment C = true -> is_segment A = true ->
      target {| label := Some (F ++ ":" ++ C ++ ":" ++ A)%string; _id := id;
                scan_element := se; output := out |}
      = Some (A, C, F)).
Proof.
  split.
  - unfold _map_to_dict. cbn [label _id].
    rewrite replace_sentinel, replace_colon_idempotent. reflexivity.
  - intros HF HC HA.
    pose proof (segments_3 F C A HF HC HA) as Sg.
    assert (E : segments (F ++ ":" ++ C ++ ":" ++ A) = [F; C; A]).
    { unfold segments in *. rewrite <- Sg.
      rewrite !PyStrFacts.replace_colon_app. reflexivity. }
    unfold target. cbn [label].
    destruct (String.eqb_spec (F ++ ":" ++ C ++ ":" ++ A) "buffer_only")
      as [e|_].
    + rewrite e in E. discriminate E.
    + now rewrite E.
Qed.

Lemma colon_is_arrow_witness :
  is_segment "FDDC0" = true /\ is_segment "CDDC0" = true
  /\ is_segment "ADC0" = true
  /\ target {| label := Some "FDDC0:CDDC0:ADC0"; _id := "voltage0_i";
               scan_element := true; output := false |}
     = Some ("ADC0", "CDDC0", "FDDC0").
Proof.
  split; [reflexivity|]. split; [reflexivity|]. split; [reflexivity|].
  exact (proj2 (colon_is_arrow [] "" "voltage0_i" true false
                  "FDDC0" "CDDC0" "ADC0") eq_refl eq_refl eq_refl).
Defined.
Lemma NoDup_map_inj {A B : Type} (f : A -> B) (l : list A) (a b : A) :
  NoDup (map f l) -> In a l -> In b l -> f a = f b -> a = b.
Proof.
  induction l as [|x l IH]; cbn; intros N Ia Ib E; [contradiction|].
  inversion N as [|? ? Nx Nl]; subst.
  destruct Ia as [->|Ia], Ib as [->|Ib]; auto.
  - exfalso. apply Nx. rewrite E. now apply in_map.
  - exfalso. apply Nx. rewrite <- E. now apply in_map.
Qed.

(* ------------------------------------------------------------------ *)
(** ** Labels that are not taken as a path *)

Lemma skipped_not_parsed (ch : channel) (lab : string) :
  label ch = Some lab ->
  lab = "buffer_only"
  \/ (List.length (segments lab) <> 3 /\ List.length (segments lab) <> 4) ->
  parsed ch = false.
Proof.
  intros L Hlab. unfold parsed. rewrite L. destruct Hlab as [->|[H3 H4]].
  - reflexivity.
  - apply Nat.eqb_neq in H3, H4. rewrite H3, H4. apply andb_false_r.
Qed.

Lemma leaf_ids_build (chs : list channel) (x : string) :
  In x (leaf_ids (build_path_map chs))
  <-> exists ch, In ch chs /\ parsed ch = true /\ _id ch = x.
Proof.
  assert (P : Permutation (leaf_ids (build_path_map chs))
                (map _id (filter parsed chs))).
  { unfold build_path_map. now rewrite leaf_ids_fold_perm. }
  split.
  - intros I. apply (Permutation_in _ P) in I. apply in_map_iff in I.
    destruct I as [ch [E I]]. apply filter_In in I. exists ch. tauto.
  - intros [ch [I [Q E]]]. apply (Permutation_in _ (Permutation_sym P)).
    apply in_map_iff. exists ch. split; [exact E|].
    apply filter_In. tauto.
Qed.

(** C6, as the code has it.  A descriptor whose label is the sentinel
    [buffer_only], or whose label has a number of segments other than 3
    and 4, leaves every map it is parsed into as it was: the topology map
    of the device is the one built without the descriptor.  Its
    identifier is therefore in a leaf of the topology map exactly when
    some descriptor of the device with the same identifier has a label
    that is taken as a path, and in no leaf when there is none, in
    particular when the identifiers of the device are distinct.  If the
    descriptor is a scan-enabled input channel its identifier is in the
    raw receive channel-name list in every case. *)
Theorem C6_skipped_label (chs : list channel) (ch : channel) (lab : string) :
  In ch chs ->
  label ch = Some lab ->
  lab = "buffer_only"
  \/ (List.length (segments lab) <> 3 /\ List.length (segments lab) <> 4) ->
  (forall paths, _map_to_dict paths ch = paths)
  /\ (forall before after,
        chs = before ++ ch :: after ->
        build_path_map chs = build_path_map (before ++ after))
  /\ (In (_id ch) (leaf_ids (build_path_map chs))
      <-> exists ch',
            In ch' chs /\ parsed ch' = true /\ _id ch' = _id ch)
  /\ ((forall ch', In ch' chs -> _id ch' = _id ch -> parsed ch' = false) ->
      ~ In (_id ch) (leaf_ids (build_path_map chs)))
  /\ (NoDup (map _id chs) ->
      ~ In (_id ch) (leaf_ids (build_path_map chs)))
  /\ (scan_element ch = true -> output ch = false ->
      In (_id ch) (gather_rx chs)).
Proof.
  intros I L Hlab.
  pose proof (skipped_not_parsed ch L Hlab) as P.
  assert (M : forall paths, _map_to_dict paths ch = paths)
    by (intros paths; now apply parsed_false_skip).
  assert (A : (forall ch', In ch' chs -> _id ch' = _id ch ->
                           parsed ch' = false) ->
              ~ In (_id ch) (leaf_ids (build_path_map chs))).
  { intros U H. apply leaf_ids_build in H.
    destruct H as [ch' [I' [P' E]]]. rewrite (U ch' I' E) in P'.
    discriminate P'. }
  split; [exact M|]. split; [|split; [|split; [|split]]].
  - intros before after ->. unfold build_path_map.
    rewrite !fold_left_app. cbn [fold_left]. f_equal.
    unfold parse_step. rewrite L. apply M.
  - apply leaf_ids_build.
  - exact A.
  - intros N. apply A. intros ch' I' E.
    assert (ch' = ch) by (eapply NoDup_map_inj; eauto).
    now subst ch'.
  - intros Hs Ho. rewrite gather_rx_spec. apply in_map.
    apply filter_In. split; [exact I|]. now rewrite Hs, Ho.
Qed.

Lemma C6_skipped_label_witness :
  let ch := {| label := Some "buffer_only"; _id := "voltage0_i";
               scan_element := true; output := false |} in
  let ch' := {| label := Some "FDDC0->CDDC0->ADC0"; _id := "voltage1_i";
                scan_element := true; output := false |} in
  In ch [ch; ch'] /\
  label ch = Some "buffer_only" /\
  build_path_map [ch; ch'] = build_path_map [ch'] /\
  ~ In (_id ch) (leaf_ids (build_path_map [ch; ch'])) /\
  In (_id ch) (gather_rx [ch; ch']).
Proof.
  intros ch ch'.
  assert (I : In ch [ch; ch']) by (now left).
  destruct (@C6_skipped_label [ch; ch'] ch "buffer_only" I eq_refl
              (or_introl eq_refl))
    as [_ [H0 [_ [H1 [_ H2]]]]].
  split; [exact I|]. split; [reflexivity|].
  split; [exact (H0 [] [ch'] eq_refl)|].
  split; [|exact (H2 eq_refl eq_refl)].
  apply H1. intros x [<-|[<-|[]]] E; [reflexivity|discriminate E].
Defined.

(** C6 as stated fails: the identifier of a descriptor with the sentinel
    label is in a leaf of the topology map when another descriptor of the
    device carries the same identifier and a label that is taken as a
    path.  The receive device has such pairs, an input and an output
    channel of one name. *)
Lemma C6_counterexample :
  let ch := {| label := Some "buffer_only"; _id := "voltage0_i";
               scan_element := true; output := false |} in
  let ch' := {| label := Some "FDUC0->CDUC0->DAC0"; _id := "voltage0_i";
                scan_element := true; output := true |} in
  In ch [ch; ch']
  /\ label ch = Some "buffer_only"
  /\ gather_rx [ch; ch'] = ["voltage0_i"]
  /\ leaf_ids (build_path_map [ch; ch']) = ["voltage0_i"]
  /\ In (_id ch) (leaf_ids (build_path_map [ch; ch'])).
Proof.
  intros ch ch'. split; [now left|]. split; [reflexivity|].
  split; [reflexivity|]. split; [reflexivity|]. now left.
Qed.


(* ------------------------------------------------------------------ *)
(** ** [_sortconv] without interleaving: a stable sort by index *)

Section StableFacts.
Variable key : string -> option Z.

Lemma insert_stable (k : Z) (p : Z * string) (l : list (Z * string)) :
  filter (fun q => (fst q =? k)%Z) (insert p l)
  = filter (fun q => (fst q =? k)%Z) (p :: l).
Proof.
  induction l as [|q l IH]; [reflexivity|].
  cbn [insert]. destruct (fst p <=? fst q)%Z eqn:E; [reflexivity|].
  apply Z.leb_gt in E. cbn [filter] in *. rewrite IH.
  destruct (fst p =? k)%Z eqn:Ep; [|reflexivity].
  apply Z.eqb_eq in Ep.
  assert (Eq : (fst q =? k)%Z = false) by (apply Z.eqb_neq; lia).
  now rewrite Eq.
Qed.

Lemma isort_stable (k : Z) (d : list (Z * string)) :
  filter (fun q => (fst q =? k)%Z) (isort d)
  = filter (fun q => (fst q =? k)%Z) d.
Proof.
  induction d as [|p d IH]; [reflexivity|].
  cbn [isort]. rewrite insert_stable. cbn [filter]. now rewrite IH.
Qed.

Lemma filter_keyed (k : Z) (d : list (Z * string)) :
  Forall (keyed key) d ->
  filter (has_key key k) (map snd d)
  = map snd (filter (fun q => (fst q =? k)%Z) d).
Proof.
  induction 1 as [|p d K _ IH]; [reflexivity|].
  cbn [map filter]. unfold has_key at 1. unfold keyed in K. rewrite K, IH.
  destruct (fst p =? k)%Z; reflexivity.
Qed.

Lemma sorted_keyed (d : list (Z * string)) :
  Forall (keyed key) d -> StronglySorted le_key d ->
  StronglySorted (key_le key) (map snd d).
Proof.
  intros F S. induction S as [|p d S IH H]; cbn; [constructor|].
  inversion F as [|? ? Kp Fd]; subst. constructor; [auto|].
  apply Forall_forall. intros w Hw. apply in_map_iff in Hw.
  destruct Hw as [q [<- Hq]]. rewrite Forall_forall in H, Fd.
  exists (fst p), (fst q). repeat split.
  - exact Kp.
  - exact (Fd q Hq).
  - exact (H q Hq).
Qed.

Lemma sorted_is_stable_sort (l out : list string) :
  sorted key l = Ok out ->
  Permutation out l
  /\ StronglySorted (key_le key) out
  /\ forall k, filter (has_key key k) out = filter (has_key key k) l.
Proof.
  intros H. split; [eapply sorted_perm; eauto|].
  apply sorted_inv in H. destruct H as [d [D ->]].
  apply decorate_spec in D. destruct D as [<- F].
  assert (F' : Forall (keyed key) (isort d)).
  { eapply Permutation_Forall; [symmetry; apply isort_perm|exact F]. }
  split.
  - apply sorted_keyed; [exact F'|apply isort_sorted].
  - intros k. rewrite !filter_keyed by assumption. now rewrite isort_stable.
Qed.

End StableFacts.

(** X5. In real mode and in DDS mode a returned list is the input list
    stably sorted by index: it has the same names (none dropped, none
    doubled), the indices never decrease along it, and the names of one
    index keep their input order. *)
Theorem plain_mode_is_stable_sort (l out : list string) (noq dds : bool) :
  _sortconv l noq dds false = Ok out ->
  Permutation out l
  /\ StronglySorted (key_le (plain_key dds)) out
  /\ forall k,
       filter (has_key (plain_key dds) k) out
       = filter (has_key (plain_key dds) k) l.
Proof.
  rewrite sortconv_plain. apply sorted_is_stable_sort.
Qed.

Lemma plain_mode_is_stable_sort_witness :
  _sortconv ["voltage10"; "voltage2"; "voltage02"] false false false
    = Ok ["voltage2"; "voltage02"; "voltage10"]
  /\ Permutation ["voltage2"; "voltage02"; "voltage10"]
       ["voltage10"; "voltage2"; "voltage02"]
  /\ filter (has_key (plain_key false) 2) ["voltage2"; "voltage02"; "voltage10"]
     = filter (has_key (plain_key false) 2) ["voltage10"; "voltage2"; "voltage02"].
Proof.
  pose proof (@plain_mode_is_stable_sort
                ["voltage10"; "voltage2"; "voltage02"]
                ["voltage2"; "voltage02"; "voltage10"] false false eq_refl)
    as [P [_ S]].
  split; [reflexivity|]. split; [exact P|]. exact (S 2%Z).
Defined.

(** X6. In real mode and in DDS mode the call returns exactly when the
    index of every name parses under the mode's key function; otherwise
    it raises the value error of [int], and it raises nothing else. *)
Theorem plain_mode_fails_on_keys_only (l : list string) (noq dds : bool) :
  (Forall (fun w => plain_key dds w <> None) l ->
   exists out, _sortconv l noq dds false = Ok out)
  /\ (~ Forall (fun w => plain_key dds w <> None) l ->
      _sortconv l noq dds false = Raise ValueError)
  /\ (forall e, _sortconv l noq dds false = Raise e -> e = ValueError)
  /\ (forall out, _sortconv l noq dds false = Ok out ->
      Forall (fun w => plain_key dds w <> None) l).
Proof.
  rewrite sortconv_plain. fold (plain_key dds).
  split; [apply sorted_total|]. split; [apply sorted_fails|].
  split.
  - intros e. apply sorted_raise.
  - intros out. apply sorted_parses.
Qed.

Lemma plain_mode_fails_on_keys_only_witness :
  Forall (fun w => plain_key true w <> None) ["altvoltage1"; "altvoltage0"]
  /\ (exists out, _sortconv ["altvoltage1"; "altvoltage0"] false true false
                  = Ok out)
  /\ ~ Forall (fun w => plain_key false w <> None) ["voltage0"; "timestamp"]
  /\ _sortconv ["voltage0"; "timestamp"] false false false = Raise ValueError.
Proof.
  assert (F : Forall (fun w => plain_key true w <> None)
                ["altvoltage1"; "altvoltage0"]).
  { repeat constructor; discriminate. }
  assert (N : ~ Forall (fun w => plain_key false w <> None)
                  ["voltage0"; "timestamp"]).
  { intros H. inversion H as [|? ? _ H']; subst.
    inversion H' as [|? ? K _]; subst. now apply K. }
  split; [exact F|]. split.
  - exact (proj1 (plain_mode_fails_on_keys_only
                    ["altvoltage1"; "altvoltage0"] false true) F).
  - split; [exact N|].
    exact (proj1 (proj2 (plain_mode_fails_on_keys_only
                           ["voltage0"; "timestamp"] false false)) N).
Defined.

(** X7. The [noq] argument matters in complex mode only.  Outside it the
    result is the same for both values; in complex mode [noq=True] gives
    the names with [_i] alone, sorted by index, and never the index error
    of the interleaving. *)
Theorem noq_in_complex_mode_only (l : list string) (dds : bool) :
  _sortconv l true dds false = _sortconv l false dds false
  /\ (forall out, _sortconv l true false true = Ok out ->
        Permutation out (filter (PyStr.str_in "_i") l)
        /\ StronglySorted (key_le ignoreadc) out)
  /\ _sortconv l true false true <> Raise IndexError.
Proof.
  split; [now rewrite !sortconv_plain|].
  rewrite sortconv_complex.
  destruct (sorted ignoreadc (filter (PyStr.str_in "_i") l))
    as [tmpI|e] eqn:EI; cbn [bind].
  - destruct (sorted ignoreadc (filter (PyStr.str_in "_q") l))
      as [tmpQ|e] eqn:EQ; cbn [bind].
    + split; [|discriminate]. intros out [= <-].
      destruct (sorted_is_stable_sort _ _ EI) as [P [S _]]. auto.
    + split; [discriminate|]. rewrite (sorted_raise _ _ EQ). discriminate.
  - split; [discriminate|]. rewrite (sorted_raise _ _ EI). discriminate.
Qed.

Lemma noq_in_complex_mode_only_witness :
  _sortconv ["voltage1_i"; "voltage0_q"; "voltage0_i"] true false true
    = Ok ["voltage0_i"; "voltage1_i"]
  /\ Permutation ["voltage0_i"; "voltage1_i"]
       (filter (PyStr.str_in "_i") ["voltage1_i"; "voltage0_q"; "voltage0_i"]).
Proof.
  split; [reflexivity|].
  exact (proj1 (proj1 (proj2 (noq_in_complex_mode_only
                                ["voltage1_i"; "voltage0_q"; "voltage0_i"]
                                false))
                  ["voltage0_i"; "voltage1_i"] eq_refl)).
Defined.

(* ------------------------------------------------------------------ *)
(** ** Complex mode: which [_q] name follows which [_i] name *)

Lemma sortedZ_unique (a b : list Z) :
  StronglySorted Z.le a -> StronglySorted Z.le b -> Permutation a b -> a = b.
Proof.
  intros Sa. revert b. induction Sa as [|x a Sa IH Fa]; intros b Sb P.
  - apply Permutation_nil in P. now subst.
  - destruct b as [|y b].
    { symmetry in P. apply Permutation_nil in P. discriminate. }
    inversion Sb as [|? ? Sb' Fb]; subst.
    assert (E : x = y).
    { assert (Iy : In y (x :: a)).
      { eapply Permutation_in; [symmetry; exact P|now left]. }
      assert (Ix : In x (y :: b)).
      { eapply Permutation_in; [exact P|now left]. }
      rewrite Forall_forall in Fa, Fb.
      destruct Iy as [|Iy]; [assumption|].
      destruct Ix as [|Ix]; [now symmetry|].
      pose proof (Fa y Iy). pose proof (Fb x Ix). lia. }
    subst y. f_equal. apply IH; auto.
    now apply Permutation_cons_inv in P.
Qed.

Lemma map_Some_inj {A : Type} (a b : list A) :
  map (@Some A) a = map (@Some A) b -> a = b.
Proof.
  revert b. induction a as [|x a IH]; intros [|y b]; cbn; try discriminate.
  - reflexivity.
  - intros [= -> H]. f_equal. auto.
Qed.

Lemma Permutation_map_Some {A : Type} (a b : list A) :
  Permutation (map (@Some A) a) (map (@Some A) b) -> Permutation a b.
Proof.
  intros P. apply Permutation_map_inv in P. destruct P as [c [E P]].
  apply map_Some_inj in E. subst c. now symmetry.
Qed.

Lemma keys_of_keyed (key : string -> option Z) (d : list (Z * string)) :
  Forall (keyed key) d -> map key (map snd d) = map (@Some Z) (map fst d).
Proof.
  induction 1 as [|p d K _ IH]; cbn; [reflexivity|].
  unfold keyed in K. now rewrite K, IH.
Qed.

Lemma sorted_fst (d : list (Z * string)) :
  StronglySorted le_key d -> StronglySorted Z.le (map fst d).
Proof.
  induction 1 as [|p d S IH F]; cbn; constructor; auto.
  apply Forall_forall. intros k Hk. apply in_map_iff in Hk.
  destruct Hk as [q [<- Hq]]. rewrite Forall_forall in F. exact (F q Hq).
Qed.

(** The indices of a sorted list, and that they depend on the multiset of
    the indices of the input only. *)
Lemma sorted_keys (key : string -> option Z) (l out : list string) :
  sorted key l = Ok out ->
  exists ks, map key out = map (@Some Z) ks
             /\ StronglySorted Z.le ks
             /\ Permutation (map key out) (map key l).
Proof.
  intros H. pose proof (sorted_perm _ _ H) as P.
  apply sorted_inv in H. destruct H as [d [D ->]].
  apply decorate_spec in D. destruct D as [<- F].
  assert (F' : Forall (keyed key) (isort d)).
  { eapply Permutation_Forall; [symmetry; apply isort_perm|exact F]. }
  exists (map fst (isort d)). split; [now apply keys_of_keyed|]. split.
  - apply sorted_fst, isort_sorted.
  - now apply Permutation_map.
Qed.

Lemma weave_nth (tmpI tmpQ out : list string) (k : nat) :
  weave tmpI tmpQ = Ok out ->
  k < List.length tmpI ->
  nth_error out (2 * k) = nth_error tmpI k
  /\ nth_error out (2 * k + 1) = nth_error tmpQ k.
Proof.
  revert tmpQ out k. induction tmpI as [|a tmpI IH]; intros [|b tmpQ] out k;
    cbn [weave List.length]; try discriminate; try lia.
  destruct (weave tmpI tmpQ) as [r|] eqn:E; cbn [bind]; [|discriminate].
  intros [= <-] L. destruct k as [|k].
  - split; reflexivity.
  - replace (2 * S k) with (S (S (2 * k))) by lia.
    replace (S (S (2 * k)) + 1) with (S (S (2 * k + 1))) by lia.
    cbn [nth_error]. apply (IH _ _ _ E). lia.
Qed.

Lemma weave_perm (tmpI tmpQ out : list string) :
  weave tmpI tmpQ = Ok out ->
  Permutation out (tmpI ++ firstn (List.length tmpI) tmpQ).
Proof.
  revert tmpQ out. induction tmpI as [|a tmpI IH]; intros [|b tmpQ] out;
    cbn [weave List.length firstn app]; try discriminate.
  - now intros [= <-].
  - now intros [= <-].
  - destruct (weave tmpI tmpQ) as [r|] eqn:E; cbn [bind]; [|discriminate].
    intros [= <-]. constructor.
    rewrite (IH _ _ E). apply Permutation_middle.
Qed.

(** X8. In complex mode the pairs are made by rank: the name at position
    [2k] is the [k]-th name with [_i] and the name after it is the [k]-th
    name with [_q], both in index order.  When the names with [_i] and
    the names with [_q] carry the same indices (as multisets), every
    returned pair shares one index and no name of either partition is
    left out. *)
Theorem complex_pairs_share_index (l out : list string) :
  _sortconv l false false true = Ok out ->
  Permutation (map ignoreadc (filter (PyStr.str_in "_i") l))
    (map ignoreadc (filter (PyStr.str_in "_q") l)) ->
  Permutation out
    (filter (PyStr.str_in "_i") l ++ filter (PyStr.str_in "_q") l)
  /\ forall k a b,
       nth_error out (2 * k) = Some a ->
       nth_error out (2 * k + 1) = Some b ->
       PyStr.str_in "_i" a = true /\ PyStr.str_in "_q" b = true
       /\ ignoreadc a = ignoreadc b.
Proof.
  rewrite sortconv_complex.
  destruct (sorted ignoreadc (filter (PyStr.str_in "_i") l))
    as [sI|] eqn:EI; cbn [bind]; [|discriminate].
  destruct (sorted ignoreadc (filter (PyStr.str_in "_q") l))
    as [sQ|] eqn:EQ; cbn [bind]; [|discriminate].
  intros W PK.
  pose proof (sorted_perm _ _ EI) as PI. pose proof (sorted_perm _ _ EQ) as PQ.
  destruct (sorted_keys _ _ EI) as [kI [KI [SI PKI]]].
  destruct (sorted_keys _ _ EQ) as [kQ [KQ [SQ PKQ]]].
  assert (EK : kI = kQ).
  { apply sortedZ_unique; auto. apply Permutation_map_Some.
    rewrite <- KI, <- KQ, PKI, PKQ. exact PK. }
  assert (LK : List.length sI = List.length sQ).
  { rewrite <- (length_map ignoreadc sI), <- (length_map ignoreadc sQ).
    now rewrite KI, KQ, EK. }
  destruct (weave_length _ _ W) as [_ Lout].
  split.
  - rewrite (weave_perm _ _ W), LK, firstn_all. now rewrite PI, PQ.
  - intros k a b Ha Hb.
    assert (Lk : k < List.length sI).
    { assert (2 * k < List.length out)
        by (apply nth_error_Some; congruence). lia. }
    destruct (@weave_nth sI sQ out k W Lk) as [Na Nb].
    rewrite Ha in Na. rewrite Hb in Nb. symmetry in Na, Nb.
    split; [|split].
    + apply nth_error_In in Na. apply (@Permutation_in _ _ _ _ PI) in Na.
      apply filter_In in Na. tauto.
    + apply nth_error_In in Nb. apply (@Permutation_in _ _ _ _ PQ) in Nb.
      apply filter_In in Nb. tauto.
    + apply (map_nth_error ignoreadc) in Na.
      apply (map_nth_error ignoreadc) in Nb.
      rewrite KI in Na. rewrite KQ, <- EK in Nb. congruence.
Qed.

Lemma complex_pairs_share_index_witness :
  let l := ["voltage1_q"; "voltage0_i"; "voltage1_i"; "voltage0_q"] in
  _sortconv l false false true
    = Ok ["voltage0_i"; "voltage0_q"; "voltage1_i"; "voltage1_q"]
  /\ Permutation (map ignoreadc (filter (PyStr.str_in "_i") l))
       (map ignoreadc (filter (PyStr.str_in "_q") l))
  /\ ignoreadc "voltage1_i" = ignoreadc "voltage1_q".
Proof.
  intros l.
  assert (P : Permutation (map ignoreadc (filter (PyStr.str_in "_i") l))
                (map ignoreadc (filter (PyStr.str_in "_q") l))).
  { cbn. apply perm_swap. }
  split; [reflexivity|]. split; [exact P|].
  exact (proj2 (proj2 (proj2 (@complex_pairs_share_index l _ eq_refl P)
                         1 "voltage1_i" "voltage1_q" eq_refl eq_refl))).
Defined.

(* ------------------------------------------------------------------ *)
(** ** [_sortconv] in complex mode: what is kept and what is dropped *)

(** C9, as the code has it.  In complex mode names are classified by
    containment of [_i] and of [_q].  Whenever the call returns, the [_i]
    partition is no larger than the [_q] partition and the output is
    [I[0], Q[0], I[1], Q[1], ...] over the two partitions, each stably
    sorted by index: it has two names per [_i] name, every [_i] name is
    kept, of the sorted [_q] names exactly the first as many are kept and
    the surplus ones at the end are left out, and every name of the
    output is a name of the input that contains [_i] or [_q] (names with
    neither are left out).  When the index of every name in the two
    partitions parses, the call returns if the [_i] partition is no
    larger than the [_q] partition and raises an index error if it is
    larger; when some index does not parse, the call raises the value
    error of the key function, whatever the sizes. *)
Theorem C9_complex_partitions (l : list string) :
  let tmpI := filter (PyStr.str_in "_i") l in
  let tmpQ := filter (PyStr.str_in "_q") l in
  let parses := Forall (fun w => ignoreadc w <> None) (tmpI ++ tmpQ) in
  (forall out, _sortconv l false false true = Ok out ->
     List.length tmpI <= List.length tmpQ
     /\ List.length out = 2 * List.length tmpI
     /\ (forall n, In n out ->
          In n l /\ (PyStr.str_in "_i" n = true \/ PyStr.str_in "_q" n = true))
     /\ exists sI sQ,
          sorted ignoreadc tmpI = Ok sI
          /\ sorted ignoreadc tmpQ = Ok sQ
          /\ (Permutation sI tmpI
              /\ StronglySorted (key_le ignoreadc) sI
              /\ forall k,
                   filter (has_key ignoreadc k) sI
                   = filter (has_key ignoreadc k) tmpI)
          /\ (Permutation sQ tmpQ
              /\ StronglySorted (key_le ignoreadc) sQ
              /\ forall k,
                   filter (has_key ignoreadc k) sQ
                   = filter (has_key ignoreadc k) tmpQ)
          /\ (forall k, k < List.length tmpI ->
                nth_error out (2 * k) = nth_error sI k
                /\ nth_error out (2 * k + 1) = nth_error sQ k)
          /\ Permutation out (sI ++ firstn (List.length tmpI) sQ))
  /\ (parses -> List.length tmpQ < List.length tmpI ->
      _sortconv l false false true = Raise IndexError)
  /\ (parses -> List.length tmpI <= List.length tmpQ ->
      exists out, _sortconv l false false true = Ok out)
  /\ (~ parses -> _sortconv l false false true = Raise ValueError).
Proof.
  intros tmpI tmpQ parses. rewrite sortconv_complex.
  fold tmpI tmpQ. unfold parses.
  split; [|split; [|split]].
  - intros out.
    destruct (sorted ignoreadc tmpI) as [sI|] eqn:EI; cbn [bind];
      [|discriminate].
    destruct (sorted ignoreadc tmpQ) as [sQ|] eqn:EQ; cbn [bind];
      [|discriminate].
    intros W. destruct (weave_length _ _ W) as [L1 L2].
    pose proof (sorted_length _ _ EI) as LI.
    rewrite LI in L1, L2.
    rewrite (sorted_length _ _ EQ) in L1.
    split; [exact L1|]. split; [exact L2|]. split.
    + intros n H. destruct (weave_In _ _ n W H) as [Hn|Hn];
        [apply (@Permutation_in _ _ _ _ (@sorted_perm _ _ _ EI)) in Hn
        |apply (@Permutation_in _ _ _ _ (@sorted_perm _ _ _ EQ)) in Hn];
        apply filter_In in Hn; tauto.
    + exists sI, sQ. split; [reflexivity|]. split; [reflexivity|].
      split; [exact (@sorted_is_stable_sort _ _ _ EI)|].
      split; [exact (@sorted_is_stable_sort _ _ _ EQ)|].
      split.
      * intros k Hk. apply (@weave_nth _ _ _ _ W). now rewrite LI.
      * rewrite <- LI. exact (@weave_perm _ _ _ W).
  - intros P L. apply Forall_app in P. destruct P as [PI PQ].
    destruct (@sorted_total _ _ PI) as [sI EI].
    destruct (@sorted_total _ _ PQ) as [sQ EQ].
    rewrite EI, EQ. cbn [bind]. apply weave_short.
    rewrite (sorted_length _ _ EI), (sorted_length _ _ EQ). exact L.
  - intros P L. apply Forall_app in P. destruct P as [PI PQ].
    destruct (@sorted_total _ _ PI) as [sI EI].
    destruct (@sorted_total _ _ PQ) as [sQ EQ].
    rewrite EI, EQ. cbn [bind]. apply weave_total.
    rewrite (sorted_length _ _ EI), (sorted_length _ _ EQ). exact L.
  - intros N.
    destruct (sorted ignoreadc tmpI) as [sI|e] eqn:EI; cbn [bind].
    + destruct (sorted ignoreadc tmpQ) as [sQ|e] eqn:EQ; cbn [bind].
      * exfalso. apply N. apply Forall_app. split; eapply sorted_parses; eauto.
      * now rewrite (sorted_raise _ _ EQ).
    + now rewrite (sorted_raise _ _ EI).
Qed.


Lemma C9_complex_partitions_witness :
  let l := ["voltage1_i"; "voltage0_q"; "voltage0_i"] in
  Forall (fun w => ignoreadc w <> None)
    (filter (PyStr.str_in "_i") l ++ filter (PyStr.str_in "_q") l)
  /\ List.length (filter (PyStr.str_in "_q") l)
     < List.length (filter (PyStr.str_in "_i") l)
  /\ _sortconv l false false true = Raise IndexError.
Proof.
  intros l.
  assert (P : Forall (fun w => ignoreadc w <> None)
                (filter (PyStr.str_in "_i") l ++ filter (PyStr.str_in "_q") l)).
  { repeat constructor; discriminate. }
  assert (L : List.length (filter (PyStr.str_in "_q") l)
              < List.length (filter (PyStr.str_in "_i") l)).
  { cbn. lia. }
  split; [exact P|]. split; [exact L|].
  exact (proj1 (proj2 (C9_complex_partitions l)) P L).
Defined.

(** C9 as stated fails where an index does not parse: with more [_i]
    names than [_q] names the call then stops in the key function, before
    the loop that would index out of range. *)
Lemma C9_counterexample :
  List.length (filter (PyStr.str_in "_q") ["voltagex_i"])
    < List.length (filter (PyStr.str_in "_i") ["voltagex_i"])
  /\ _sortconv ["voltagex_i"] false false true = Raise ValueError
  /\ _sortconv ["voltagex_i"] false false true <> Raise IndexError.
Proof.
  split; [cbn; lia|]. split; [reflexivity|]. discriminate.
Qed.


(* ------------------------------------------------------------------ *)
(** ** The key functions read back the index of a channel name *)

Unset Implicit Arguments.

Ltac eval_digit :=
  match goal with
  | |- context [PyStr.digit_val ?c] =>
      let v := eval vm_compute in (PyStr.digit_val c) in
      change (PyStr.digit_val c) with v
  end.

Ltac eval_space :=
  match goal with
  | |- context [PyStr.is_space ?c] =>
      let v := eval vm_compute in (PyStr.is_space c) in
      change (PyStr.is_space c) with v
  end.

Lemma parse_digits_uint_app (d : Decimal.uint) (t : string) :
  forall (n : nat) (b : bool),
    PyStr.parse_digits (Z.of_nat n) b (NilEmpty.string_of_uint d ++ t)
    = PyStr.parse_digits (Z.of_nat (Nat.of_uint_acc d n))
        (match d with Decimal.Nil => b | _ => true end) t.
Proof.
  induction d; intros n b; [reflexivity|..];
    cbn [NilEmpty.string_of_uint append PyStr.parse_digits];
    eval_digit; cbv iota beta; cbn [Nat.of_uint_acc];
    match goal with
    | |- PyStr.parse_digits ?a true _
         = PyStr.parse_digits (Z.of_nat (Nat.of_uint_acc _ ?m)) _ _ =>
        replace a with (Z.of_nat m) by (rewrite Nat.tail_mul_spec; lia)
    end;
    rewrite IHd; destruct d; reflexivity.
Qed.

Lemma to_uint_not_nil (n : nat) : Nat.to_uint n <> Decimal.Nil.
Proof.
  intros E. pose proof (DecimalNat.Unsigned.of_to n) as H.
  rewrite E in H. cbn in H. subst n. discriminate E.
Qed.

Lemma lstrip_uint (d : Decimal.uint) (t : string) :
  d <> Decimal.Nil ->
  PyStr.lstrip (NilEmpty.string_of_uint d ++ t)
  = (NilEmpty.string_of_uint d ++ t)%string.
Proof.
  destruct d; intros N; [contradiction|..];
    cbn [NilEmpty.string_of_uint append PyStr.lstrip]; eval_space;
    reflexivity.
Qed.

Lemma rstrip_uint (d : Decimal.uint) :
  PyStr.rstrip (NilEmpty.string_of_uint d) = NilEmpty.string_of_uint d.
Proof.
  induction d; [reflexivity|..];
    cbn [NilEmpty.string_of_uint PyStr.rstrip]; rewrite IHd;
    (destruct (NilEmpty.string_of_uint d); [eval_space|]; reflexivity).
Qed.

Lemma rstrip_app (s t : string) :
  PyStr.rstrip t = t -> t <> EmptyString ->
  PyStr.rstrip (s ++ t) = (s ++ t)%string.
Proof.
  intros R N. induction s as [|c s IH]; [exact R|].
  cbn [append PyStr.rstrip]. rewrite IH.
  destruct (s ++ t)%string eqn:E; [|reflexivity].
  destruct s; [contradiction|discriminate E].
Qed.

Lemma int_head_digit (d : Decimal.uint) (t : string) :
  d <> Decimal.Nil ->
  match (NilEmpty.string_of_uint d ++ t)%string with
  | String "+" r => PyStr.parse_digits 0 false r
  | String "-" r => option_map Z.opp (PyStr.parse_digits 0 false r)
  | _ => PyStr.parse_digits 0 false (NilEmpty.string_of_uint d ++ t)
  end
  = PyStr.parse_digits 0 false (NilEmpty.string_of_uint d ++ t).
Proof. destruct d; intros N; [contradiction|..]; reflexivity. Qed.

(** A numeral has as many digits as characters. *)
Lemma count_digits_uint (d : Decimal.uint) :
  PyStr.count_digits (NilEmpty.string_of_uint d)
  = Z.of_nat (String.length (NilEmpty.string_of_uint d)).
Proof.
  induction d; [reflexivity|..];
    cbn [NilEmpty.string_of_uint PyStr.count_digits String.length];
    eval_digit; cbv iota beta; rewrite IHd; lia.
Qed.

Lemma strip_uint (d : Decimal.uint) :
  d <> Decimal.Nil ->
  PyStr.strip (NilEmpty.string_of_uint d) = NilEmpty.string_of_uint d.
Proof.
  intros N. unfold PyStr.strip.
  pose proof (lstrip_uint d EmptyString N) as L.
  assert (A : forall s, (s ++ "")%string = s).
  { induction s as [|c s IH]; cbn; [reflexivity|now rewrite IH]. }
  rewrite A in L. rewrite L. apply rstrip_uint.
Qed.

(** [int] of a numeral within the limit of digits, of a numeral beyond
    it, and of a numeral followed by [_i] or [_q]. *)
Lemma int_uint (d : Decimal.uint) :
  d <> Decimal.Nil ->
  (Z.of_nat (String.length (NilEmpty.string_of_uint d))
   <= PyStr.max_str_digits)%Z ->
  PyStr.int (NilEmpty.string_of_uint d) = Some (Z.of_nat (Nat.of_uint d)).
Proof.
  intros N B. unfold PyStr.int. cbv zeta.
  rewrite (strip_uint d N), count_digits_uint.
  destruct (Z.ltb_spec PyStr.max_str_digits
              (Z.of_nat (String.length (NilEmpty.string_of_uint d))));
    [lia|].
  pose proof (int_head_digit d EmptyString N) as Hd.
  pose proof (parse_digits_uint_app d EmptyString 0 false) as P.
  assert (A : forall s, (s ++ "")%string = s).
  { induction s as [|c s IH]; cbn; [reflexivity|now rewrite IH]. }
  rewrite A in Hd, P. rewrite Hd.
  change 0%Z with (Z.of_nat 0). rewrite P.
  destruct d; [contradiction|..]; reflexivity.
Qed.

Lemma int_uint_long (d : Decimal.uint) :
  d <> Decimal.Nil ->
  (PyStr.max_str_digits
   < Z.of_nat (String.length (NilEmpty.string_of_uint d)))%Z ->
  PyStr.int (NilEmpty.string_of_uint d) = None.
Proof.
  intros N B. unfold PyStr.int. cbv zeta.
  rewrite (strip_uint d N), count_digits_uint.
  destruct (Z.ltb_spec PyStr.max_str_digits
              (Z.of_nat (String.length (NilEmpty.string_of_uint d))));
    [reflexivity|lia].
Qed.

Lemma int_uint_suffix (d : Decimal.uint) (c : ascii) :
  d <> Decimal.Nil ->
  PyStr.digit_val c = None -> Ascii.eqb c "_" = false ->
  PyStr.is_space c = false ->
  PyStr.int (NilEmpty.string_of_uint d ++ String "_" (String c "")) = None.
Proof.
  intros N D U Sp. unfold PyStr.int, PyStr.strip. cbv zeta.
  rewrite (lstrip_uint d _ N).
  rewrite rstrip_app.
  - destruct (_ <? _)%Z; [reflexivity|].
    rewrite (int_head_digit d _ N).
    change 0%Z with (Z.of_nat 0). rewrite parse_digits_uint_app.
    cbn [PyStr.parse_digits]. rewrite D, U.
    change (PyStr.digit_val "_") with (@None Z).
    destruct d; [contradiction|..]; reflexivity.
  - cbn [PyStr.rstrip]. rewrite Sp. reflexivity.
  - discriminate.
Qed.

Lemma int_str_of_nat (n : nat) :
  short_index n -> PyStr.int (str_of_nat n) = Some (Z.of_nat n).
Proof.
  unfold short_index, str_of_nat. intros B.
  rewrite int_uint by (apply to_uint_not_nil || exact B).
  now rewrite DecimalNat.Unsigned.of_to.
Qed.

Lemma int_str_of_nat_long (n : nat) :
  ~ short_index n -> PyStr.int (str_of_nat n) = None.
Proof.
  unfold short_index, str_of_nat. intros B.
  apply int_uint_long; [apply to_uint_not_nil|lia].
Qed.

(* ------------------------------------------------------------------ *)
(** ** Slices and searches in a name built from parts *)

Lemma str_length_app (a b : string) :
  String.length (a ++ b) = String.length a + String.length b.
Proof. induction a as [|c a IH]; cbn; [reflexivity|now rewrite IH]. Qed.

Lemma substring_drop (pre s : string) (m : nat) :
  substring (String.length pre) m (pre ++ s) = substring 0 m s.
Proof. induction pre as [|c pre IH]; [reflexivity|exact IH]. Qed.

Lemma substring_take (s t : string) :
  substring 0 (String.length s) (s ++ t) = s.
Proof.
  induction s as [|c s IH]; cbn.
  - destruct t; reflexivity.
  - now rewrite IH.
Qed.

Lemma clamp_index_inside (len i : Z) :
  (0 <= i <= len)%Z -> PyStr.clamp_index len i = i.
Proof.
  intros H. unfold PyStr.clamp_index.
  destruct (i <? 0)%Z eqn:E; [apply Z.ltb_lt in E; lia|lia].
Qed.

Lemma slice_middle (pre s t : string) :
  PyStr.slice (pre ++ s ++ t) (Z.of_nat (String.length pre))
    (Z.of_nat (String.length pre + String.length s)) = s.
Proof.
  unfold PyStr.slice. rewrite !str_length_app.
  rewrite !clamp_index_inside by lia.
  replace (Z.to_nat (Z.of_nat (String.length pre))) with (String.length pre)
    by lia.
  replace (Z.to_nat (Z.of_nat (String.length pre + String.length s)
                     - Z.of_nat (String.length pre)))
    with (String.length s) by lia.
  rewrite substring_drop. apply substring_take.
Qed.

Lemma append_empty (s : string) : (s ++ "")%string = s.
Proof. induction s as [|c s IH]; cbn; [reflexivity|now rewrite IH]. Qed.

Lemma slice_from_prefix (pre s : string) :
  PyStr.slice_from (pre ++ s) (Z.of_nat (String.length pre)) = s.
Proof.
  unfold PyStr.slice_from. rewrite str_length_app.
  pose proof (slice_middle pre s EmptyString) as H.
  now rewrite append_empty in H.
Qed.

Lemma prefix_underscore (c : ascii) (s : string) :
  prefix "_" (String c s) = Ascii.eqb "_" c.
Proof.
  cbn [prefix]. destruct (ascii_dec "_" c) as [<-|N].
  - now rewrite PyStrFacts.prefix_empty.
  - symmetry. now apply Ascii.eqb_neq.
Qed.

Lemma find_underscore (a r : string) (i : Z) :
  PyStr.str_in "_" a = false ->
  PyStr.find_from "_" (a ++ String "_" r) i
  = (i + Z.of_nat (String.length a))%Z.
Proof.
  revert i. induction a as [|c a IH]; intros i H.
  - cbn [append PyStr.find_from String.length]. rewrite prefix_underscore.
    cbn. lia.
  - apply PyStrFacts.str_in_inv in H. destruct H as [Hp Ha].
    rewrite prefix_underscore in Hp.
    cbn [append PyStr.find_from String.length].
    rewrite prefix_underscore, Hp, (IH _ Ha). lia.
Qed.

Lemma no_underscore_app (a b : string) :
  PyStr.str_in "_" a = false -> PyStr.str_in "_" b = false ->
  PyStr.str_in "_" (a ++ b) = false.
Proof.
  intros Ha Hb. induction a as [|c a IH]; [exact Hb|].
  apply PyStrFacts.str_in_inv in Ha. destruct Ha as [Hp Ha].
  rewrite prefix_underscore in Hp.
  cbn [append PyStr.str_in]. now rewrite prefix_underscore, Hp, IH.
Qed.

Lemma no_underscore_uint (d : Decimal.uint) :
  PyStr.str_in "_" (NilEmpty.string_of_uint d) = false.
Proof.
  induction d; [reflexivity|..];
    cbn [NilEmpty.string_of_uint PyStr.str_in];
    rewrite prefix_underscore, IHd; reflexivity.
Qed.

Lemma ignorevoltage_index (n : nat) :
  ignorevoltage ("voltage" ++ str_of_nat n) = PyStr.int (str_of_nat n).
Proof. unfold ignorevoltage. now rewrite slice_from_prefix. Qed.

Lemma ignorealt_index (n : nat) :
  ignorealt ("altvoltage" ++ str_of_nat n) = PyStr.int (str_of_nat n).
Proof. unfold ignorealt. now rewrite slice_from_prefix. Qed.

Lemma ignorevoltage_name (n : nat) :
  short_index n ->
  ignorevoltage ("voltage" ++ str_of_nat n) = Some (Z.of_nat n).
Proof. intros B. rewrite ignorevoltage_index. now apply int_str_of_nat. Qed.

Lemma ignorealt_name (n : nat) :
  short_index n ->
  ignorealt ("altvoltage" ++ str_of_nat n) = Some (Z.of_nat n).
Proof. intros B. rewrite ignorealt_index. now apply int_str_of_nat. Qed.

Lemma ignoreadc_index (n : nat) (rest : string) :
  ignoreadc ("voltage" ++ str_of_nat n ++ "_" ++ rest)
  = PyStr.int (str_of_nat n).
Proof.
  unfold ignoreadc, PyStr.find.
  assert (F : PyStr.find_from "_" ("voltage" ++ str_of_nat n ++ "_" ++ rest) 0
              = Z.of_nat (String.length "voltage"
                          + String.length (str_of_nat n))).
  { pose proof (find_underscore ("voltage" ++ str_of_nat n) rest 0) as H.
    rewrite str_length_app in H.
    replace (("voltage" ++ str_of_nat n) ++ String "_" rest)%string
      with ("voltage" ++ str_of_nat n ++ "_" ++ rest)%string in H
      by reflexivity.
    rewrite H; [lia|]. apply no_underscore_app; [reflexivity|].
    apply no_underscore_uint. }
  now rewrite F, slice_middle.
Qed.

Lemma ignoreadc_name (n : nat) (rest : string) :
  short_index n ->
  ignoreadc ("voltage" ++ str_of_nat n ++ "_" ++ rest) = Some (Z.of_nat n).
Proof. intros B. rewrite ignoreadc_index. now apply int_str_of_nat. Qed.

Lemma ignorevoltage_complex_name (n : nat) (c : ascii) :
  PyStr.digit_val c = None -> Ascii.eqb c "_" = false ->
  PyStr.is_space c = false ->
  ignorevoltage ("voltage" ++ str_of_nat n ++ String "_" (String c ""))
  = None.
Proof.
  intros D U Sp. unfold ignorevoltage. rewrite slice_from_prefix.
  apply int_uint_suffix; auto using to_uint_not_nil.
Qed.

(** X9. The key functions read the index back from the channel names
    they are written for: [ignoreadc] gives [N] on [voltage{N}_...],
    [ignorevoltage] gives [N] on [voltage{N}] and [ignorealt] gives [N] on
    [altvoltage{N}], for every natural number [N] whose decimal writing
    has no more digits than [int] accepts (4300); for a longer index the
    three key functions fail with the value error of [int]. *)
Theorem key_reads_index_back (n : nat) (rest : string) :
  ((Z.of_nat (String.length (str_of_nat n)) <= 4300)%Z ->
   ignoreadc ("voltage" ++ str_of_nat n ++ "_" ++ rest) = Some (Z.of_nat n)
   /\ ignorevoltage ("voltage" ++ str_of_nat n) = Some (Z.of_nat n)
   /\ ignorealt ("altvoltage" ++ str_of_nat n) = Some (Z.of_nat n))
  /\ ((4300 < Z.of_nat (String.length (str_of_nat n)))%Z ->
      ignoreadc ("voltage" ++ str_of_nat n ++ "_" ++ rest) = None
      /\ ignorevoltage ("voltage" ++ str_of_nat n) = None
      /\ ignorealt ("altvoltage" ++ str_of_nat n) = None).
Proof.
  split; intros B.
  - split; [now apply ignoreadc_name|].
    split; [now apply ignorevoltage_name|now apply ignorealt_name].
  - rewrite ignoreadc_index, ignorevoltage_index, ignorealt_index.
    rewrite int_str_of_nat_long; [auto|].
    unfold short_index, PyStr.max_str_digits. lia.
Qed.

Lemma key_reads_index_back_witness :
  (Z.of_nat (String.length (str_of_nat 12)) <= 4300)%Z
  /\ ignoreadc "voltage12_i" = Some 12%Z
  /\ ignorevoltage "voltage12" = Some 12%Z
  /\ ignorealt "altvoltage12" = Some 12%Z.
Proof.
  assert (B : (Z.of_nat (String.length (str_of_nat 12)) <= 4300)%Z)
    by (vm_compute; discriminate).
  split; [exact B|].
  exact (proj1 (key_reads_index_back 12 "i") B).
Defined.

(** X10. Real mode rejects complex names: a list that holds a name
    [voltage{N}_i] or [voltage{N}_q] makes [_sortconv] with
    [complex=False] raise the value error of [int], since [{N}_i] is not a
    numeral. *)
Theorem real_mode_rejects_complex_names (l : list string) (noq : bool)
  (n : nat) :
  In ("voltage" ++ str_of_nat n ++ "_i")%string l
  \/ In ("voltage" ++ str_of_nat n ++ "_q")%string l ->
  _sortconv l noq false false = Raise ValueError.
Proof.
  intros H. rewrite sortconv_plain. apply sorted_fails. intros F.
  rewrite Forall_forall in F. destruct H as [H|H]; apply (F _ H);
    apply ignorevoltage_complex_name; reflexivity.
Qed.

Lemma real_mode_rejects_complex_names_witness :
  (In ("voltage" ++ str_of_nat 0 ++ "_i")%string ["voltage0_i"; "voltage0_q"]
   \/ In ("voltage" ++ str_of_nat 0 ++ "_q")%string ["voltage0_i"; "voltage0_q"])
  /\ _sortconv ["voltage0_i"; "voltage0_q"] false false false
     = Raise ValueError.
Proof.
  assert (H : In ("voltage" ++ str_of_nat 0 ++ "_i")%string
                ["voltage0_i"; "voltage0_q"]
              \/ In ("voltage" ++ str_of_nat 0 ++ "_q")%string
                   ["voltage0_i"; "voltage0_q"]).
  { left. left. reflexivity. }
  split; [exact H|].
  exact (real_mode_rejects_complex_names _ false 0 H).
Defined.

(* ------------------------------------------------------------------ *)
(** ** Numeric, not lexicographic, order *)

Lemma sorted_names_numeric (key : string -> option Z) (name : nat -> string)
  (ms : list nat) :
  (forall n, In n ms -> key (name n) = Some (Z.of_nat n)) ->
  StronglySorted (key_le key) (map name ms) -> StronglySorted le ms.
Proof.
  induction ms as [|m ms IH]; cbn; intros K S; [constructor|].
  inversion S as [|? ? S' F]; subst. constructor; [auto|].
  apply Forall_forall. intros x Hx. rewrite Forall_forall in F.
  destruct (F (name x) (in_map name ms x Hx)) as [a [b [Ka [Kb L]]]].
  rewrite K in Ka by (now left). rewrite K in Kb by (now right).
  injection Ka as <-. injection Kb as <-. lia.
Qed.

(** X11. Channel names are ordered by the value of their index, not as
    text: for every list of natural numbers whose decimal writing has no
    more digits than [int] accepts (4300), the names [voltage{N}] in real
    mode, and the names [altvoltage{N}] in DDS mode, are returned in the
    order of the numbers sorted ascending; a number of more digits in the
    list makes the call fail with the value error of [int]. *)
Theorem plain_mode_numeric_order (ns : list nat) (noq dds : bool) :
  let name n :=
    ((if dds then "altvoltage" else "voltage") ++ str_of_nat n)%string in
  (Forall (fun n => (Z.of_nat (String.length (str_of_nat n)) <= 4300)%Z) ns ->
   exists ms,
     _sortconv (map name ns) noq dds false = Ok (map name ms)
     /\ Permutation ms ns
     /\ StronglySorted le ms)
  /\ (Exists (fun n => (4300 < Z.of_nat (String.length (str_of_nat n)))%Z) ns ->
      _sortconv (map name ns) noq dds false = Raise ValueError).
Proof.
  intros name.
  assert (I : forall n, plain_key dds (name n) = PyStr.int (str_of_nat n)).
  { intros n. unfold name, plain_key. destruct dds.
    - apply ignorealt_index.
    - apply ignorevoltage_index. }
  rewrite sortconv_plain. fold (plain_key dds). split.
  - intros B. rewrite Forall_forall in B.
    assert (K : forall n, In n ns ->
                          plain_key dds (name n) = Some (Z.of_nat n)).
    { intros n Hn. rewrite I. apply int_str_of_nat. exact (B n Hn). }
    destruct (@sorted_total (plain_key dds) (map name ns)) as [out E].
    { apply Forall_forall. intros w Hw. apply in_map_iff in Hw.
      destruct Hw as [n [<- Hn]]. rewrite K by exact Hn. discriminate. }
    destruct (@sorted_is_stable_sort _ _ _ E) as [P [S _]].
    apply Permutation_map_inv in P. destruct P as [ms [-> P]].
    exists ms. split; [exact E|]. split; [now symmetry|].
    eapply sorted_names_numeric; [|exact S].
    intros n Hn. apply K. apply Permutation_in with (l := ms); [|exact Hn].
    now symmetry.
  - intros B. apply Exists_exists in B. destruct B as [n [Hn B]].
    apply sorted_fails. intros F. rewrite Forall_forall in F.
    apply (F (name n) (in_map name ns n Hn)). rewrite I.
    apply int_str_of_nat_long. unfold short_index, PyStr.max_str_digits. lia.
Qed.

Lemma plain_mode_numeric_order_witness :
  Forall (fun n => (Z.of_nat (String.length (str_of_nat n)) <= 4300)%Z)
    [10; 9; 100; 2]
  /\ exists ms,
       _sortconv ["voltage10"; "voltage9"; "voltage100"; "voltage2"]
         false false false
       = Ok (map (fun n => ("voltage" ++ str_of_nat n)%string) ms)
       /\ Permutation ms [10; 9; 100; 2]
       /\ StronglySorted le ms.
Proof.
  assert (B : Forall
                (fun n => (Z.of_nat (String.length (str_of_nat n)) <= 4300)%Z)
                [10; 9; 100; 2])
    by (repeat constructor; vm_compute; discriminate).
  split; [exact B|].
  exact (proj1 (plain_mode_numeric_order [10; 9; 100; 2] false false) B).
Defined.

(* ------------------------------------------------------------------ *)
(** ** The raw channel-name lists *)

Lemma gather_tx_fold (chs : list channel) (t d : list string) :
  fold_left
    (fun '(tx_names, dds_names) ch =>
       if scan_element ch then (tx_names ++ [_id ch], dds_names)
       else (tx_names, dds_names ++ [_id ch]))
    chs (t, d)
  = (t ++ map _id (filter scan_element chs),
     d ++ map _id (filter (fun ch => negb (scan_element ch)) chs)).
Proof.
  revert t d. induction chs as [|ch chs IH]; intros t d; cbn.
  - now rewrite !app_nil_r.
  - destruct (scan_element ch); rewrite IH; cbn; now rewrite <- app_assoc.
Qed.

Lemma gather_tx_spec (chs : list channel) :
  gather_tx chs
  = (map _id (filter scan_element chs),
     map _id (filter (fun ch => negb (scan_element ch)) chs)).
Proof. unfold gather_tx. now rewrite gather_tx_fold. Qed.

Lemma filter_partition_perm {A : Type} (p : A -> bool) (l : list A) :
  Permutation (filter p l ++ filter (fun x => negb (p x)) l) l.
Proof.
  induction l as [|x l IH]; cbn; [constructor|].
  destruct (p x); cbn.
  - now constructor.
  - rewrite <- Permutation_middle. now constructor.
Qed.

(** X12. The channels of the transmit device are split by their
    scan-element flag, in device order: the flagged ones form the raw
    transmit list and all the others the raw DDS list, so every channel
    is in exactly one of the two; the raw receive list holds the
    scan-enabled input channels of the receive device, in device order. *)
Theorem raw_lists_split_the_channels (rx tx : list channel) :
  gather_tx tx
    = (map _id (filter scan_element tx),
       map _id (filter (fun ch => negb (scan_element ch)) tx))
  /\ Permutation (fst (gather_tx tx) ++ snd (gather_tx tx)) (map _id tx)
  /\ gather_rx rx
     = map _id (filter (fun ch => scan_element ch && negb (output ch)) rx).
Proof.
  split; [apply gather_tx_spec|]. split; [|apply gather_rx_spec].
  rewrite gather_tx_spec. cbn [fst snd]. rewrite <- map_app.
  apply Permutation_map, filter_partition_perm.
Qed.

(* ------------------------------------------------------------------ *)
(** ** What a successful construction has checked and stored *)

Lemma construct_sorts (base : inherited) (rx tx : list channel)
  (cr ct : bool) (obj : ad9084) :
  construct base (Some rx) (Some tx) cr ct = Ok obj ->
  _sortconv (gather_rx rx) false false cr = Ok (_rx_channel_names obj)
  /\ _sortconv (fst (gather_tx tx)) false false ct
     = Ok (_tx_channel_names obj)
  /\ _sortconv (snd (gather_tx tx)) false true false
     = Ok (_dds_channel_names obj).
Proof.
  intros C. apply construct_discover in C. revert C.
  unfold discover. destruct (gather_tx tx) as [tx_names dds_names].
  cbn [fst snd].
  destruct (_sortconv (gather_rx rx) _ _ _); cbn [bind]; [|discriminate].
  destruct (_sortconv tx_names _ _ _); cbn [bind]; [|discriminate].
  destruct (_sortconv dds_names _ _ _); cbn [bind]; [|discriminate].
  destruct (derive _ _) as [r|]; cbn [bind]; [|discriminate].
  intros [= <-]. cbn. auto.
Qed.

Lemma Forall_map_filter (P : string -> Prop) (p : channel -> bool)
  (chs : list channel) :
  Forall P (map _id (filter p chs)) ->
  Forall (fun ch => p ch = true -> P (_id ch)) chs.
Proof.
  intros F. apply Forall_forall. intros ch I Hp.
  rewrite Forall_forall in F. apply F. apply in_map. apply filter_In. auto.
Qed.

(** X13. A construction that returns an object has parsed the index of
    every name it had to sort: every channel of the transmit device that
    is not a scan element is named so that [ignorealt] parses
    (altvoltage{N}), and, for a direction that is not complex, every
    gathered data channel is named so that [ignorevoltage] parses
    (voltage{N}).  A channel named otherwise makes the construction
    fail. *)
Theorem construction_needs_indexed_names (base : inherited)
  (rx tx : list channel) (cr ct : bool) (obj : ad9084) :
  construct base (Some rx) (Some tx) cr ct = Ok obj ->
  Forall (fun ch => scan_element ch = false -> ignorealt (_id ch) <> None) tx
  /\ (cr = false ->
      Forall (fun ch => scan_element ch && negb (output ch) = true ->
                        ignorevoltage (_id ch) <> None) rx)
  /\ (ct = false ->
      Forall (fun ch => scan_element ch = true ->
                        ignorevoltage (_id ch) <> None) tx).
Proof.
  intros C. apply construct_sorts in C. destruct C as [S1 [S2 S3]].
  rewrite gather_tx_spec in S2, S3. cbn [fst snd] in S2, S3.
  rewrite gather_rx_spec in S1.
  split; [|split].
  - rewrite sortconv_plain in S3. apply sorted_parses in S3.
    apply Forall_map_filter in S3. eapply Forall_impl; [|exact S3].
    cbn. intros ch H E. apply H. now rewrite E.
  - intros ->. rewrite sortconv_plain in S1. apply sorted_parses in S1.
    now apply Forall_map_filter in S1.
  - intros ->. rewrite sortconv_plain in S2. apply sorted_parses in S2.
    now apply Forall_map_filter in S2.
Qed.

Lemma construction_needs_indexed_names_witness :
  let rx := [{| label := None; _id := "voltage0_i";
                scan_element := true; output := false |};
             {| label := None; _id := "voltage0_q";
                scan_element := true; output := false |}] in
  let tx := [{| label := None; _id := "altvoltage3";
                scan_element := false; output := true |}] in
  (exists obj, construct accepting (Some rx) (Some tx) true false = Ok obj)
  /\ Forall (fun ch => scan_element ch = false ->
                       ignorealt (_id ch) <> None) tx.
Proof.
  intros rx tx. split; [eexists; reflexivity|].
  exact (proj1 (construction_needs_indexed_names accepting rx tx true false _
                  eq_refl)).
Defined.

(** X14. The lists an object stores hold the gathered names: the DDS
    list is the raw DDS list reordered; a data list of a direction that
    is not complex is the raw list of that direction reordered; a data
    list of a complex direction holds names of the raw list only, two for
    each raw name with [_i]. *)
Theorem stored_lists_hold_gathered_names (base : inherited)
  (rx tx : list channel) (cr ct : bool) (obj : ad9084) :
  construct base (Some rx) (Some tx) cr ct = Ok obj ->
  Permutation (_dds_channel_names obj) (snd (gather_tx tx))
  /\ (cr = false -> Permutation (_rx_channel_names obj) (gather_rx rx))
  /\ (ct = false ->
      Permutation (_tx_channel_names obj) (fst (gather_tx tx)))
  /\ (cr = true ->
      incl (_rx_channel_names obj) (gather_rx rx)
      /\ List.length (_rx_channel_names obj)
         = 2 * List.length (filter (PyStr.str_in "_i") (gather_rx rx)))
  /\ (ct = true ->
      incl (_tx_channel_names obj) (fst (gather_tx tx))
      /\ List.length (_tx_channel_names obj)
         = 2 * List.length (filter (PyStr.str_in "_i") (fst (gather_tx tx)))).
Proof.
  intros C. apply construct_sorts in C. destruct C as [S1 [S2 S3]].
  assert (Plain : forall l out noq dds,
            _sortconv l noq dds false = Ok out -> Permutation out l).
  { intros l out noq dds H. rewrite sortconv_plain in H.
    eapply sorted_perm; eauto. }
  assert (Cplx : forall l out,
            _sortconv l false false true = Ok out ->
            incl out l
            /\ List.length out
               = 2 * List.length (filter (PyStr.str_in "_i") l)).
  { intros l out H. rewrite sortconv_complex in H.
    destruct (sorted ignoreadc (filter (PyStr.str_in "_i") l))
      as [sI|] eqn:EI; cbn [bind] in H; [|discriminate].
    destruct (sorted ignoreadc (filter (PyStr.str_in "_q") l))
      as [sQ|] eqn:EQ; cbn [bind] in H; [|discriminate].
    destruct (weave_length _ _ H) as [_ L].
    rewrite (sorted_length _ _ EI) in L. split; [|exact L].
    intros n Hn. destruct (weave_In _ _ n H Hn) as [I|I].
    - apply (@Permutation_in _ _ _ _ (@sorted_perm _ _ _ EI)) in I.
      apply filter_In in I. tauto.
    - apply (@Permutation_in _ _ _ _ (@sorted_perm _ _ _ EQ)) in I.
      apply filter_In in I. tauto. }
  split; [eapply Plain; eauto|].
  split; [intros ->; eapply Plain; eauto|].
  split; [intros ->; eapply Plain; eauto|].
  split; intros ->; apply Cplx; assumption.
Qed.

Lemma stored_lists_hold_gathered_names_witness :
  let ch (id : string) :=
    {| label := None; _id := id; scan_element := true; output := false |} in
  let rx := [ch "voltage1_q"; ch "voltage0_i"; ch "voltage0_q"] in
  (exists obj, construct accepting (Some rx) (Some []) true false = Ok obj
               /\ _rx_channel_names obj = ["voltage0_i"; "voltage0_q"])
  /\ incl ["voltage0_i"; "voltage0_q"] (gather_rx rx).
Proof.
  intros ch rx. split; [eexists; split; reflexivity|].
  exact (proj1 (proj1 (proj2 (proj2 (proj2
           (stored_lists_hold_gathered_names accepting rx [] true false _
              eq_refl))))
           eq_refl)).
Defined.

(* ------------------------------------------------------------------ *)
(** ** The representative lists of a constructed object *)

Lemma filter_flat_map {A B : Type} (p : B -> bool) (f : A -> list B)
  (l : list A) :
  filter p (flat_map f l) = flat_map (fun x => filter p (f x)) l.
Proof.
  induction l as [|x l IH]; cbn; [reflexivity|].
  now rewrite filter_app, IH.
Qed.

Lemma survivors_fine_ids (at_cdc : fine_map) :
  survivors at_cdc = filter i_half (fine_ids at_cdc).
Proof. unfold survivors, fine_ids. now rewrite flat_map_concat_map. Qed.

Lemma alls_groups (paths : topology) :
  alls (groups paths) = filter i_half (leaf_ids paths).
Proof.
  unfold alls, groups, leaf_ids, Dict.values.
  induction paths as [|[converter at_converter] paths IH]; [reflexivity|].
  cbn [flat_map map fst snd]. rewrite flat_map_app, filter_app, IH.
  f_equal. unfold coarse_ids. rewrite filter_flat_map.
  rewrite flat_map_concat_map, map_map. cbn [snd].
  rewrite <- flat_map_concat_map.
  apply flat_map_ext. intros at_cdc. apply survivors_fine_ids.
Qed.

Lemma alls_partition (p : string * list string -> bool)
  (gs : list (string * list string)) :
  Permutation (alls (filter p gs) ++ alls (filter (fun g => negb (p g)) gs))
    (alls gs).
Proof.
  unfold alls. rewrite <- flat_map_app.
  apply Permutation_flat_map, filter_partition_perm.
Qed.


Lemma construct_representatives (base : inherited) (rx tx : list channel)
  (cr ct : bool) (obj : ad9084) :
  construct base (Some rx) (Some tx) cr ct = Ok obj ->
  let gs := groups (_path_map obj) in
  forallb nonempty gs = true
  /\ _rx_coarse_ddc_channel_names obj = firsts (filter is_rx gs)
  /\ _rx_fine_ddc_channel_names obj = alls (filter is_rx gs)
  /\ _tx_coarse_duc_channel_names obj
     = firsts (filter (fun g => negb (is_rx g)) gs)
  /\ _tx_fine_duc_channel_names obj
     = alls (filter (fun g => negb (is_rx g)) gs).
Proof.
  intros C. apply construct_inv in C. destruct C as [M D].
  rewrite derive_representatives in D by apply wf_build_path_map.
  rewrite <- M in D. unfold representatives in D. cbv zeta.
  destruct (forallb nonempty (groups (_path_map obj))); [|discriminate].
  injection D as <- <- <- <-. auto.
Qed.

(** X15. In a constructed object the two fine representative lists hold,
    between them, exactly the names in the leaves of the topology map
    that contain [voltage] and lack [_q], each as often as it is in a
    leaf: no such name is left without a fine representative and no other
    name, in particular none without [voltage], becomes one. *)
Theorem fine_lists_hold_kept_leaf_names (base : inherited)
  (rx tx : list channel) (cr ct : bool) (obj : ad9084) :
  construct base (Some rx) (Some tx) cr ct = Ok obj ->
  Permutation
    (_rx_fine_ddc_channel_names obj ++ _tx_fine_duc_channel_names obj)
    (filter
       (fun n => PyStr.str_in "voltage" n && negb (PyStr.str_in "_q" n))
       (leaf_ids (_path_map obj)))
  /\ (forall n,
        In n (_rx_fine_ddc_channel_names obj
              ++ _tx_fine_duc_channel_names obj)
        <-> In n (leaf_ids (_path_map obj))
            /\ PyStr.str_in "voltage" n = true
            /\ PyStr.str_in "_q" n = false).
Proof.
  intros C.
  assert (P : Permutation
                (_rx_fine_ddc_channel_names obj
                 ++ _tx_fine_duc_channel_names obj)
                (filter i_half (leaf_ids (_path_map obj)))).
  { destruct (construct_representatives _ _ _ _ _ _ C)
      as [_ [_ [-> [_ ->]]]].
    rewrite alls_partition. now rewrite alls_groups. }
  split; [exact P|].
  intros n. rewrite <- i_half_true. rewrite <- filter_In. split; intros I.
  - eapply Permutation_in; [exact P|exact I].
  - eapply Permutation_in; [symmetry; exact P|exact I].
Qed.

Lemma fine_lists_hold_kept_leaf_names_witness :
  let ch (lab id : string) :=
    {| label := Some lab; _id := id; scan_element := true; output := false |} in
  let rx := [ch "FDDC0->CDDC0->ADC0" "timestamp";
             ch "FDDC0->CDDC0->ADC0" "voltage0_i";
             ch "FDDC0->CDDC0->ADC0" "voltage0_q";
             ch "FDUC0->CDUC0->DAC0" "voltage1_i";
             ch "FDUC0->CDUC0->DAC0" "voltage1_q"] in
  (exists obj, construct accepting (Some rx) (Some []) true true = Ok obj
               /\ _rx_fine_ddc_channel_names obj = ["voltage0_i"]
               /\ _tx_fine_duc_channel_names obj = ["voltage1_i"])
  /\ leaf_ids (build_path_map rx)
     = ["timestamp"; "voltage0_i"; "voltage0_q"; "voltage1_i"; "voltage1_q"]
  /\ Permutation (["voltage0_i"] ++ ["voltage1_i"])
       (filter
          (fun n => PyStr.str_in "voltage" n && negb (PyStr.str_in "_q" n))
          (leaf_ids (build_path_map rx))).
Proof.
  intros ch rx. split; [eexists; repeat split; reflexivity|].
  split; [reflexivity|].
  exact (proj1 (fine_lists_hold_kept_leaf_names accepting rx [] true true _
                  eq_refl)).
Defined.



(* ------------------------------------------------------------------ *)
(** ** The properties read through the first coarse representative *)

Lemma firsts_cons (c n : string) (chans : list string)
  (gs : list (string * list string)) :
  firsts ((c, n :: chans) :: gs) = n :: firsts gs.
Proof. reflexivity. Qed.

(** X17. On a constructed object [rx_sample_rate], [adc_frequency] and
    [rx_test_mode] (read and written) all address one channel: the first
    kept name of the first (converter, coarse) pair whose converter is
    named with [ADC].  When the topology map has no such pair they raise
    an index error, although the construction succeeded;
    [tx_sample_rate] and [dac_frequency] do the same with the pairs of
    the other converters. *)
Theorem rate_properties_use_first_pair (base : inherited)
  (rx tx : list channel) (cr ct : bool) (obj : ad9084) (T U Ctrl : Type)
  (get_str : string -> string -> bool -> result T)
  (get : string -> string -> bool -> option Ctrl -> result T)
  (set : string -> string -> bool -> U -> option Ctrl -> result unit)
  (value : U) :
  construct base (Some rx) (Some tx) cr ct = Ok obj ->
  let gs := groups (_path_map obj) in
  (filter is_rx gs = [] ->
     rx_sample_rate get obj = Raise IndexError
     /\ adc_frequency get obj = Raise IndexError
     /\ rx_test_mode get_str obj = Raise IndexError
     /\ set_rx_test_mode set obj value = Raise IndexError)
  /\ (forall c n chans gs',
        filter is_rx gs = (c, n :: chans) :: gs' ->
        rx_sample_rate get obj = get n "sampling_frequency" false None
        /\ adc_frequency get obj = get n "adc_frequency" false None
        /\ rx_test_mode get_str obj = get_str n "test_mode" false
        /\ set_rx_test_mode set obj value = set n "test_mode" false value None)
  /\ (filter (fun g => negb (is_rx g)) gs = [] ->
        tx_sample_rate get obj = Raise IndexError
        /\ dac_frequency get obj = Raise IndexError)
  /\ (forall c n chans gs',
        filter (fun g => negb (is_rx g)) gs = (c, n :: chans) :: gs' ->
        tx_sample_rate get obj = get n "sampling_frequency" true None
        /\ dac_frequency get obj = get n "dac_frequency" true None).
Proof.
  intros C gs. destruct (construct_representatives _ _ _ _ _ _ C)
    as [_ [R [_ [X _]]]]. fold gs in R, X.
  unfold rx_sample_rate, adc_frequency, rx_test_mode, set_rx_test_mode,
    tx_sample_rate, dac_frequency, _get_iio_attr_single,
    _set_iio_attr_single, _get_iio_attr_str_single.
  rewrite R, X.
  split; [|split; [|split]].
  - intros ->. repeat split; reflexivity.
  - intros c n chans gs' ->. rewrite firsts_cons. repeat split; reflexivity.
  - intros ->. repeat split; reflexivity.
  - intros c n chans gs' ->. rewrite firsts_cons. repeat split; reflexivity.
Qed.

Lemma rate_properties_use_first_pair_witness :
  let rx := [{| label := Some "FDUC0->CDUC0->DAC0"; _id := "voltage0_i";
                scan_element := true; output := false |};
             {| label := Some "FDUC0->CDUC0->DAC0"; _id := "voltage0_q";
                scan_element := true; output := false |}] in
  let get (n attr : string) (output : bool) (ctrl : option unit)
    : result string := Ok (n ++ "/" ++ attr)%string in
  (exists obj,
     construct accepting (Some rx) (Some []) true true = Ok obj
     /\ filter is_rx (groups (_path_map obj)) = []
     /\ rx_sample_rate get obj = Raise IndexError
     /\ tx_sample_rate get obj = Ok "voltage0_i/sampling_frequency").
Proof.
  intros rx get.
  pose proof (rate_properties_use_first_pair accepting rx [] true true _
                string unit unit
                (fun n attr output => Raise ValueError) get
                (fun n attr output value ctrl => Ok tt) tt eq_refl) as H.
  eexists. split; [reflexivity|]. split; [reflexivity|]. split.
  - exact (proj1 (proj1 H eq_refl)).
  - exact (proj1 (proj2 (proj2 (proj2 H)) "DAC0" "voltage0_i" [] []
                    eq_refl)).
Defined.

(* ------------------------------------------------------------------ *)
(** ** [jesd204_device_status_check]: lines of a status text *)

Module PyLinesFacts.
Import PyLines.

Lemma splitlines_cons (c : ascii) (s : string) :
  splitlines (String c s)
  = if is_linebreak c then
      EmptyString ::
        match s with
        | String c' s'' =>
            if (Ascii.eqb c "013" && Ascii.eqb c' "010")%bool
            then splitlines s''
            else splitlines s
        | EmptyString => []
        end
    else
      match splitlines s with
      | [] => [String c EmptyString]
      | line :: rest => String c line :: rest
      end.
Proof. destruct s; reflexivity. Qed.

Lemma splitlines_cons_nonempty (c : ascii) (s : string) :
  splitlines (String c s) <> [].
Proof.
  rewrite splitlines_cons. destruct (is_linebreak c); [discriminate|].
  destruct (splitlines s); discriminate.
Qed.

Lemma splitlines_lf (b : string) :
  splitlines (String "010" b) = EmptyString :: splitlines b.
Proof.
  rewrite splitlines_cons. change (is_linebreak "010") with true. cbv iota.
  destruct b; reflexivity.
Qed.

(** Joining two texts with a line feed joins their lines, with at most
    one empty line in between. *)
Lemma splitlines_join_cases (b : string) (a : string) :
  (splitlines (a ++ String "010" b) = splitlines a ++ splitlines b
   \/ splitlines (a ++ String "010" b)
      = splitlines a ++ EmptyString :: splitlines b)
  /\ forall c,
       splitlines (String c a ++ String "010" b)
         = splitlines (String c a) ++ splitlines b
       \/ splitlines (String c a ++ String "010" b)
          = splitlines (String c a) ++ EmptyString :: splitlines b.
Proof.
  induction a as [|c' a [IH1 IH2]].
  - split.
    + right. apply splitlines_lf.
    + intros c. cbn [append].
      rewrite (splitlines_cons c (String "010" b)), splitlines_lf.
      rewrite (splitlines_cons c EmptyString).
      destruct (is_linebreak c).
      * change (Ascii.eqb "010" "010") with true. rewrite andb_true_r.
        destruct (Ascii.eqb c "013"); [left|right]; reflexivity.
      * left. reflexivity.
  - split; [exact (IH2 c')|].
    intros c. cbn [append].
    rewrite (splitlines_cons c (String c' (a ++ String "010" b))).
    rewrite (splitlines_cons c (String c' a)).
    destruct (is_linebreak c).
    + destruct (Ascii.eqb c "013" && Ascii.eqb c' "010")%bool.
      * destruct IH1 as [E|E]; rewrite E; [left|right]; reflexivity.
      * destruct (IH2 c') as [E|E]; cbn [append] in E; rewrite E;
          [left|right]; reflexivity.
    + pose proof (splitlines_cons_nonempty c' a) as N.
      destruct (IH2 c') as [E|E]; cbn [append] in E; rewrite E;
        (destruct (splitlines (String c' a)) as [|l r]; [contradiction|]);
        [left|right]; reflexivity.
Qed.

(** Every line is a piece of the text, and the first line starts it. *)
Lemma splitlines_pieces (a : string) :
  ((forall l r, splitlines a = l :: r -> exists post, a = (l ++ post)%string)
   /\ (forall line, In line (splitlines a) -> piece_of a line))
  /\ forall c,
       (forall l r, splitlines (String c a) = l :: r ->
                    exists post, String c a = (l ++ post)%string)
       /\ (forall line, In line (splitlines (String c a)) ->
                        piece_of (String c a) line).
Proof.
  assert (Shift : forall c s line, piece_of s line ->
                                   piece_of (String c s) line).
  { intros c s line [pre [post ->]]. now exists (String c pre), post. }
  assert (Whole : forall s, piece_of s EmptyString).
  { intros s. now exists EmptyString, s. }
  induction a as [|c' a [[H1 P1] IH2]].
  - split; [split; [discriminate|intros line []]|].
    intros c. rewrite splitlines_cons. cbn [splitlines].
    destruct (is_linebreak c).
    + split.
      * intros l r [= <- _]. now exists (String c EmptyString).
      * intros line [<-|[]]. apply Whole.
    + split.
      * intros l r [= <- _]. now exists EmptyString.
      * intros line [<-|[]]. now exists EmptyString, EmptyString.
  - split; [exact (IH2 c')|].
    destruct (IH2 c') as [H2 P2].
    intros c. rewrite (splitlines_cons c (String c' a)).
    destruct (is_linebreak c).
    + split.
      * intros l r [= <- _]. now exists (String c (String c' a)).
      * intros line [<-|I]; [apply Whole|].
        destruct (Ascii.eqb c "013" && Ascii.eqb c' "010")%bool.
        -- apply Shift, Shift, P1, I.
        -- apply Shift, P2, I.
    + destruct (splitlines (String c' a)) as [|l0 r0] eqn:E.
      * split.
        -- intros l r [= <- _]. now exists (String c' a).
        -- intros line [<-|[]]. now exists EmptyString, (String c' a).
      * destruct (H2 l0 r0 eq_refl) as [post Epost].
        split.
        -- intros l r [= <- _]. exists post. cbn [append]. now rewrite <- Epost.
        -- intros line [<-|I].
           ++ exists EmptyString, post. cbn [append]. now rewrite <- Epost.
           ++ apply Shift, P2. now right.
Qed.

Lemma prefix_app (sub a b : string) :
  prefix sub a = true -> prefix sub (a ++ b) = true.
Proof.
  revert a. induction sub as [|x sub IH]; intros a.
  - intros _. apply PyStrFacts.prefix_empty.
  - destruct a as [|c a]; cbn [prefix append]; [discriminate|].
    destruct (ascii_dec x c); [apply IH|discriminate].
Qed.

Lemma str_in_app_l (sub a b : string) :
  PyStr.str_in sub a = true -> PyStr.str_in sub (a ++ b) = true.
Proof.
  induction a as [|c a IH].
  - cbn [PyStr.str_in append]. rewrite orb_false_r. intros H.
    apply (prefix_app _ _ b) in H. cbn [append] in H.
    destruct b; cbn [PyStr.str_in]; now rewrite H.
  - cbn [append PyStr.str_in]. intros H. apply orb_true_iff in H.
    destruct H as [H|H].
    + apply (prefix_app _ _ b) in H. cbn [append] in H. now rewrite H.
    + rewrite (IH H). apply orb_true_r.
Qed.

Lemma str_in_app_r (sub a b : string) :
  PyStr.str_in sub b = true -> PyStr.str_in sub (a ++ b) = true.
Proof.
  intros H. induction a as [|c a IH]; [exact H|].
  cbn [append PyStr.str_in]. rewrite IH. apply orb_true_r.
Qed.

Lemma str_in_piece (sub s line : string) :
  piece_of s line -> PyStr.str_in sub line = true -> PyStr.str_in sub s = true.
Proof.
  intros [pre [post ->]] H. apply str_in_app_r, str_in_app_l, H.
Qed.

Lemma str_in_line (sub s line : string) :
  In line (splitlines s) -> PyStr.str_in sub line = true ->
  PyStr.str_in sub s = true.
Proof.
  intros I. apply str_in_piece.
  now apply (proj2 (proj1 (splitlines_pieces s))).
Qed.

End PyLinesFacts.

Lemma scan_status_exists (lines : list string) :
  scan_status lines = existsb flagged lines.
Proof.
  induction lines as [|s rest IH]; [reflexivity|].
  cbn [scan_status existsb]. unfold flagged at 1. rewrite IH.
  destruct (PyStr.str_in "JRX" s).
  - destruct (PyStr.str_in "204C" s).
    + destruct (PyStr.str_in "Link is good" s); reflexivity.
    + destruct (PyStr.str_in "204B" s); [|reflexivity].
      destruct (PyStr.str_in "0x0 lanes in DATA" s); reflexivity.
  - destruct (PyStr.str_in "JTX" s); [|reflexivity].
    destruct (existsb _ _); reflexivity.
Qed.

(** X18. The status check of two status texts joined by a line feed
    reports a fault exactly when the check of one of the two texts does:
    the verdict is taken line by line. *)
Theorem status_check_of_joined_texts (Dev : Type) (dev : Dev) (a b : string) :
  jesd204_device_status_check (fun _ _ => Ok (a ++ String "010" b)%string) dev
  = x <- jesd204_device_status_check (fun _ _ => Ok a) dev ;;
    y <- jesd204_device_status_check (fun _ _ => Ok b) dev ;;
    Ok (x || y).
Proof.
  unfold jesd204_device_status_check. cbn [bind]. f_equal.
  rewrite !scan_status_exists.
  destruct (PyLinesFacts.splitlines_join_cases b a) as [[E|E] _];
    rewrite E, existsb_app; reflexivity.
Qed.

(** X19. The status check reports no fault for a status text that
    mentions neither [JRX] nor [JTX] anywhere, whatever else it says. *)
Theorem status_check_silent_without_links (Dev : Type)
  (get : string -> Dev -> result string) (dev : Dev) (stat : string) :
  get "status" dev = Ok stat ->
  PyStr.str_in "JRX" stat = false ->
  PyStr.str_in "JTX" stat = false ->
  jesd204_device_status_check get dev = Ok false.
Proof.
  intros G R T. unfold jesd204_device_status_check. rewrite G. cbn [bind].
  f_equal. rewrite scan_status_exists.
  destruct (existsb flagged (PyLines.splitlines stat)) eqn:E; [|reflexivity].
  apply existsb_exists in E. destruct E as [line [I F]].
  unfold flagged in F.
  destruct (PyStr.str_in "JRX" line) eqn:HR.
  - rewrite (PyLinesFacts.str_in_line _ _ _ I HR) in R. discriminate R.
  - destruct (PyStr.str_in "JTX" line) eqn:HT; [|discriminate F].
    rewrite (PyLinesFacts.str_in_line _ _ _ I HT) in T. discriminate T.
Qed.

Lemma status_check_silent_without_links_witness :
  let stat := ("Link0: initialised" ++ String "010" "no receiver")%string in
  let get (attr : string) (dev : unit) : result string := Ok stat in
  get "status" tt = Ok stat
  /\ PyStr.str_in "JRX" stat = false
  /\ PyStr.str_in "JTX" stat = false
  /\ jesd204_device_status_check get tt = Ok false.
Proof.
  intros stat get.
  split; [reflexivity|]. split; [reflexivity|]. split; [reflexivity|].
  exact (status_check_silent_without_links unit get tt stat
           eq_refl eq_refl eq_refl).
Defined.

Lemma flagged_cases (s : string) :
  flagged s = true <->
  (PyStr.str_in "JRX" s = true /\ PyStr.str_in "204C" s = true
   /\ PyStr.str_in "Link is good" s = false)
  \/ (PyStr.str_in "JRX" s = true /\ PyStr.str_in "204C" s = false
      /\ PyStr.str_in "204B" s = true
      /\ PyStr.str_in "0x0 lanes in DATA" s = true)
  \/ (PyStr.str_in "JRX" s = false /\ PyStr.str_in "JTX" s = true
      /\ (PyStr.str_in " asserted" s = true \/ PyStr.str_in "unlocked" s = true
          \/ PyStr.str_in "lost" s = true \/ PyStr.str_in "invalid" s = true)).
Proof.
  unfold flagged. cbn [existsb].
  destruct (PyStr.str_in "JRX" s).
  - destruct (PyStr.str_in "204C" s).
    + destruct (PyStr.str_in "Link is good" s); cbn; intuition congruence.
    + destruct (PyStr.str_in "204B" s);
        [destruct (PyStr.str_in "0x0 lanes in DATA" s)|];
        cbn; intuition congruence.
  - destruct (PyStr.str_in "JTX" s); [|intuition congruence].
    rewrite orb_false_r, !orb_true_iff. intuition congruence.
Qed.

(** X20. The status check returns a verdict for every status text it
    can read, and reports a fault exactly when some line of the text is
    faulty: a line with [JRX] and [204C] that lacks [Link is good]; a line
    with [JRX], without [204C], with [204B] and with [0x0 lanes in DATA];
    or a line without [JRX], with [JTX] and with one of [ asserted],
    [unlocked], [lost], [invalid].  A line with [JRX] is never judged by
    the [JTX] words. *)
Theorem status_check_flags_faulty_lines (Dev : Type)
  (get : string -> Dev -> result string) (dev : Dev) (stat : string) :
  get "status" dev = Ok stat ->
  exists verdict,
    jesd204_device_status_check get dev = Ok verdict
    /\ (verdict = true <->
        exists line,
          In line (PyLines.splitlines stat)
          /\ ((PyStr.str_in "JRX" line = true
               /\ PyStr.str_in "204C" line = true
               /\ PyStr.str_in "Link is good" line = false)
              \/ (PyStr.str_in "JRX" line = true
                  /\ PyStr.str_in "204C" line = false
                  /\ PyStr.str_in "204B" line = true
                  /\ PyStr.str_in "0x0 lanes in DATA" line = true)
              \/ (PyStr.str_in "JRX" line = false
                  /\ PyStr.str_in "JTX" line = true
                  /\ (PyStr.str_in " asserted" line = true
                      \/ PyStr.str_in "unlocked" line = true
                      \/ PyStr.str_in "lost" line = true
                      \/ PyStr.str_in "invalid" line = true)))).
Proof.
  intros G. unfold jesd204_device_status_check. rewrite G. cbn [bind].
  eexists. split; [reflexivity|].
  rewrite scan_status_exists, existsb_exists.
  split; intros [line [I F]]; exists line; split; auto;
    now apply flagged_cases.
Qed.

Lemma status_check_flags_faulty_lines_witness :
  let stat :=
    ("JRX 204C Link is good, JTX unlocked" ++ String "010"
     "JTX PLL unlocked")%string in
  let get (attr : string) (dev : unit) : result string := Ok stat in
  get "status" tt = Ok stat
  /\ jesd204_device_status_check get tt = Ok true
  /\ jesd204_device_status_check
       (fun _ (_ : unit) => Ok "JRX 204C Link is good, JTX unlocked") tt
     = Ok false.
Proof.
  intros stat get.
  destruct (status_check_flags_faulty_lines unit get tt stat eq_refl)
    as [v [E _]].
  split; [reflexivity|]. split; [|reflexivity].
  rewrite E. f_equal. injection E as <-. reflexivity.
Defined.
